(** * quantum-sim: a shallow embedding of the simulation core

    The development follows the four source files of the repository:
    [QuantumField.js] (lattice integrator), [Consciousness.js] (Orch-OR
    accumulator and IIT smoothing), [ParticleSystem.js] (slot pool, pairing,
    annihilation), [ShapeConstraint.js] (STL ingestion and voxel mask) and
    the fixed-timestep driver of [main.js].

    Number model.  JavaScript numbers are embedded as exact rationals [Q]:
    arithmetic is exact, there is no NaN and no infinity, and storing into a
    [Float32Array] does not round.  Integer typed arrays ([Uint8Array],
    [Int16Array], [Int32Array]) hold [Z] values and the wrap-around of a
    store is written out.  A typed array is a list of fixed length; a store
    outside the array is ignored, as in JavaScript, and a read outside the
    array yields the default [0] where JavaScript yields [undefined].

    Host functions ([Math.random], [Math.sin], ...) are not code of the
    repository; they are collected in the record [Host] and every function
    that calls [Math.random] threads the index of the next draw. *)

From Stdlib Require Import QArith ZArith List Lia Lqa Bool Qround Qminmax Qabs.
From Stdlib Require Import String Ascii FinFun.
From Stdlib.Strings Require Import Byte.
Import ListNotations.

Local Open Scope Z_scope.
Local Open Scope Q_scope.

(** ** JavaScript primitives *)

Module JS.

(** [x < y] and [x <= y] on numbers, as booleans. *)
Definition ltb (x y : Q) : bool := negb (Qle_bool y x).
Definition leb (x y : Q) : bool := Qle_bool x y.
Definition gtb (x y : Q) : bool := ltb y x.
Definition geb (x y : Q) : bool := leb y x.

(** Truncation toward zero, then reduction to a signed 32-bit integer: the
    conversion behind [x | 0]. *)
Definition trunc (q : Q) : Z := Z.quot (Qnum q) (Z.pos (Qden q)).
Definition wrap32 (n : Z) : Z := ((n + 2 ^ 31) mod 2 ^ 32 - 2 ^ 31)%Z.
Definition ToInt32 (q : Q) : Z := wrap32 (trunc q).

(** Stores into integer typed arrays. *)
Definition ToUint8 (n : Z) : Z := (n mod 2 ^ 8)%Z.
Definition ToInt16 (n : Z) : Z := ((n + 2 ^ 15) mod 2 ^ 16 - 2 ^ 15)%Z.

(** [Math.round]: the nearest integer, ties toward +infinity. *)
Definition round (q : Q) : Z := Qfloor (q + 0.5).

(** [for (let i = 0; i < n; i++)]: the indices visited, in order. *)
Definition upto (n : Z) : list Z := map Z.of_nat (seq 0 (Z.to_nat n)).

(** Typed-array reads and writes. *)
Section TypedArray.
Context {A : Type} (d : A).

Definition get (l : list A) (i : Z) : A :=
  if (i <? 0)%Z then d else nth (Z.to_nat i) l d.

Fixpoint upd (l : list A) (n : nat) (v : A) : list A :=
  match l, n with
  | [], _ => []
  | _ :: t, O => v :: t
  | h :: t, S k => h :: upd t k v
  end.

Definition put (l : list A) (i : Z) (v : A) : list A :=
  if (i <? 0)%Z then l else upd l (Z.to_nat i) v.
End TypedArray.

Definition getQ := get 0%Q.
Definition getZ := get 0%Z.

(** A JavaScript [Set] of integers: a duplicate-free list in insertion order,
    which is the order [for (const i of set)] visits. *)
Definition Set_has (s : list Z) (x : Z) : bool := existsb (Z.eqb x) s.
Definition Set_add (s : list Z) (x : Z) : list Z := if Set_has s x then s else s ++ [x].
Definition Set_delete (s : list Z) (x : Z) : list Z := filter (fun y => negb (Z.eqb x y)) s.

(** What the repository takes from the host. [random n] is the value of the
    [n]-th call of [Math.random]. *)
Record Host := mkHost {
  random : nat -> Q;
  random_range : forall n, 0 <= random n /\ random n < 1;
  Math_sin : Q -> Q;
  Math_cos : Q -> Q;
  Math_acos : Q -> Q;
  Math_sqrt : Q -> Q;
  Math_PI : Q;
  (* new TextDecoder().decode(bytes): the code units of the decoded text *)
  TextDecoder_decode : list byte -> list Z;
  (* unary plus on a string of code units *)
  ToNumber : list Z -> Q
}.

(** How a call ends: it returns a value or throws an [Error] with a
    message. *)
Inductive completion (A : Type) : Type :=
| Normal (a : A)
| Throw (message : string).
Arguments Normal {A} a.
Arguments Throw {A} message.

End JS.

(** ** QuantumField.js *)

Module QuantumField.
Import JS.

Definition N : Z := 28.
Definition N2 : Z := N * N.
Definition N3 : Z := N * N * N.
Definition WORLD_RANGE : Q := 14.
Definition VEV : Q := 0.8.

Record t := mk {
  higgs : list Q;
  electron : list Q;
  photon : list Q;
  higgsVel : list Q;
  electronVel : list Q;
  photonVel : list Q;
  phi : list Q;
  orchCoherence : list Q;
  orchFlash : list Z;
  heartSurface : list Q;
  heartInterior : list Q;
  heartStrength : Q;
  _heartSurfaceCells : list Z;
  _heartInteriorCells : list Z;
  _higgsAcc : list Q;
  _electronAcc : list Q;
  _photonAcc : list Q
}.

(** Field assignment [this.f = v], one function per field that is written. *)
Definition set_higgs (v : list Q) (s : t) : t :=
  mk v (electron s) (photon s) (higgsVel s) (electronVel s) (photonVel s) (phi s) (orchCoherence s) (orchFlash s) (heartSurface s) (heartInterior s) (heartStrength s) (_heartSurfaceCells s) (_heartInteriorCells s) (_higgsAcc s) (_electronAcc s) (_photonAcc s).
Definition set_electron (v : list Q) (s : t) : t :=
  mk (higgs s) v (photon s) (higgsVel s) (electronVel s) (photonVel s) (phi s) (orchCoherence s) (orchFlash s) (heartSurface s) (heartInterior s) (heartStrength s) (_heartSurfaceCells s) (_heartInteriorCells s) (_higgsAcc s) (_electronAcc s) (_photonAcc s).
Definition set_photon (v : list Q) (s : t) : t :=
  mk (higgs s) (electron s) v (higgsVel s) (electronVel s) (photonVel s) (phi s) (orchCoherence s) (orchFlash s) (heartSurface s) (heartInterior s) (heartStrength s) (_heartSurfaceCells s) (_heartInteriorCells s) (_higgsAcc s) (_electronAcc s) (_photonAcc s).
Definition set_higgsVel (v : list Q) (s : t) : t :=
  mk (higgs s) (electron s) (photon s) v (electronVel s) (photonVel s) (phi s) (orchCoherence s) (orchFlash s) (heartSurface s) (heartInterior s) (heartStrength s) (_heartSurfaceCells s) (_heartInteriorCells s) (_higgsAcc s) (_electronAcc s) (_photonAcc s).
Definition set_electronVel (v : list Q) (s : t) : t :=
  mk (higgs s) (electron s) (photon s) (higgsVel s) v (photonVel s) (phi s) (orchCoherence s) (orchFlash s) (heartSurface s) (heartInterior s) (heartStrength s) (_heartSurfaceCells s) (_heartInteriorCells s) (_higgsAcc s) (_electronAcc s) (_photonAcc s).
Definition set_photonVel (v : list Q) (s : t) : t :=
  mk (higgs s) (electron s) (photon s) (higgsVel s) (electronVel s) v (phi s) (orchCoherence s) (orchFlash s) (heartSurface s) (heartInterior s) (heartStrength s) (_heartSurfaceCells s) (_heartInteriorCells s) (_higgsAcc s) (_electronAcc s) (_photonAcc s).
Definition set_phi (v : list Q) (s : t) : t :=
  mk (higgs s) (electron s) (photon s) (higgsVel s) (electronVel s) (photonVel s) v (orchCoherence s) (orchFlash s) (heartSurface s) (heartInterior s) (heartStrength s) (_heartSurfaceCells s) (_heartInteriorCells s) (_higgsAcc s) (_electronAcc s) (_photonAcc s).
Definition set_orchCoherence (v : list Q) (s : t) : t :=
  mk (higgs s) (electron s) (photon s) (higgsVel s) (electronVel s) (photonVel s) (phi s) v (orchFlash s) (heartSurface s) (heartInterior s) (heartStrength s) (_heartSurfaceCells s) (_heartInteriorCells s) (_higgsAcc s) (_electronAcc s) (_photonAcc s).
Definition set_orchFlash (v : list Z) (s : t) : t :=
  mk (higgs s) (electron s) (photon s) (higgsVel s) (electronVel s) (photonVel s) (phi s) (orchCoherence s) v (heartSurface s) (heartInterior s) (heartStrength s) (_heartSurfaceCells s) (_heartInteriorCells s) (_higgsAcc s) (_electronAcc s) (_photonAcc s).
Definition set_heartStrength (v : Q) (s : t) : t :=
  mk (higgs s) (electron s) (photon s) (higgsVel s) (electronVel s) (photonVel s) (phi s) (orchCoherence s) (orchFlash s) (heartSurface s) (heartInterior s) v (_heartSurfaceCells s) (_heartInteriorCells s) (_higgsAcc s) (_electronAcc s) (_photonAcc s).
Definition set_higgsAcc (v : list Q) (s : t) : t :=
  mk (higgs s) (electron s) (photon s) (higgsVel s) (electronVel s) (photonVel s) (phi s) (orchCoherence s) (orchFlash s) (heartSurface s) (heartInterior s) (heartStrength s) (_heartSurfaceCells s) (_heartInteriorCells s) v (_electronAcc s) (_photonAcc s).
Definition set_electronAcc (v : list Q) (s : t) : t :=
  mk (higgs s) (electron s) (photon s) (higgsVel s) (electronVel s) (photonVel s) (phi s) (orchCoherence s) (orchFlash s) (heartSurface s) (heartInterior s) (heartStrength s) (_heartSurfaceCells s) (_heartInteriorCells s) (_higgsAcc s) v (_photonAcc s).
Definition set_photonAcc (v : list Q) (s : t) : t :=
  mk (higgs s) (electron s) (photon s) (higgsVel s) (electronVel s) (photonVel s) (phi s) (orchCoherence s) (orchFlash s) (heartSurface s) (heartInterior s) (heartStrength s) (_heartSurfaceCells s) (_heartInteriorCells s) (_higgsAcc s) (_electronAcc s) v.

(** [idx(x, y, z)]: the flat index, each coordinate wrapped with
    [((c % N) + N) % N]; [%] is the truncating remainder. *)
Definition idx (x y z : Z) : Z :=
  let xi := Z.rem (Z.rem x N + N) N in
  let yi := Z.rem (Z.rem y N + N) N in
  let zi := Z.rem (Z.rem z N + N) N in
  (xi + yi * N + zi * N2)%Z.

(** [_laplacian(field, x, y, z)]: six-neighbour stencil. *)
Definition _laplacian (field : list Q) (x y z : Z) : Q :=
  let c  := getQ field (idx x y z) in
  let xp := getQ field (idx (x + 1) y z) in
  let xm := getQ field (idx (x - 1) y z) in
  let yp := getQ field (idx x (y + 1) z) in
  let ym := getQ field (idx x (y - 1) z) in
  let zp := getQ field (idx x y (z + 1)) in
  let zm := getQ field (idx x y (z - 1)) in
  xp + xm + yp + ym + zp + zm - 6 * c.

(** The three nested loops [for x, for y, for z] of [update]. *)
Definition for_xyz {S : Type} (body : Z -> Z -> Z -> S -> S) (s : S) : S :=
  fold_left (fun s x =>
    fold_left (fun s y =>
      fold_left (fun s z => body x y z s) (upto N) s) (upto N) s) (upto N) s.

(** The accelerations computed in loops 1 and 3 of [update], from the
    amplitudes and velocities of the state at that moment. *)
Definition acc_higgs (s : t) (x y z : Z) : Q :=
  let i := idx x y z in
  let h := getQ (higgs s) i in
  let e := getQ (electron s) i in
  let lap_h := _laplacian (higgs s) x y z in
  0.3 * lap_h - (h - VEV) * (h * h - VEV * VEV) * 0.4 - 0.1 * e * e.

Definition acc_electron (s : t) (x y z : Z) : Q :=
  let i := idx x y z in
  let h := getQ (higgs s) i in
  let e := getQ (electron s) i in
  let lap_e := _laplacian (electron s) x y z in
  0.5 * lap_e - 0.2 * e - 0.3 * h * e.

Definition acc_photon (s : t) (x y z : Z) : Q :=
  let i := idx x y z in
  let lap_p := _laplacian (photon s) x y z in
  1.0 * lap_p - 0.05 * getQ (photonVel s) i + 0.2 * getQ (electronVel s) i.

(** Loop 1: accelerations at the current amplitudes, stored in the three
    scratch buffers. *)
Definition update_acc_cell (x y z : Z) (s : t) : t :=
  let i := idx x y z in
  let ah := acc_higgs s x y z in
  let ae := acc_electron s x y z in
  let ap := acc_photon s x y z in
  let s := set_higgsAcc (put (_higgsAcc s) i ah) s in
  let s := set_electronAcc (put (_electronAcc s) i ae) s in
  set_photonAcc (put (_photonAcc s) i ap) s.

(** Loop 2: amplitudes advance by [v*dt + a*dt2half]. *)
Definition update_pos_cell (dt dt2half : Q) (s : t) (i : Z) : t :=
  let s := set_higgs (put (higgs s) i
             (getQ (higgs s) i + (getQ (higgsVel s) i * dt + getQ (_higgsAcc s) i * dt2half))) s in
  let s := set_electron (put (electron s) i
             (getQ (electron s) i + (getQ (electronVel s) i * dt + getQ (_electronAcc s) i * dt2half))) s in
  set_photon (put (photon s) i
             (getQ (photon s) i + (getQ (photonVel s) i * dt + getQ (_photonAcc s) i * dt2half))) s.

(** Loop 3: accelerations at the new amplitudes, then velocities advance by
    the mean of the old and the new acceleration. *)
Definition update_vel_cell (dthalf : Q) (x y z : Z) (s : t) : t :=
  let i := idx x y z in
  let new_ah := acc_higgs s x y z in
  let new_ae := acc_electron s x y z in
  let new_ap := acc_photon s x y z in
  let s := set_higgsVel (put (higgsVel s) i
             (getQ (higgsVel s) i + (getQ (_higgsAcc s) i + new_ah) * dthalf)) s in
  let s := set_electronVel (put (electronVel s) i
             (getQ (electronVel s) i + (getQ (_electronAcc s) i + new_ae) * dthalf)) s in
  set_photonVel (put (photonVel s) i
             (getQ (photonVel s) i + (getQ (_photonAcc s) i + new_ap) * dthalf)) s.

(** Heart attractor, surface cells: one draw decides whether the cell is
    pulled, two more give the kicks. The state carries the index of the next
    draw. *)
Definition heart_surface_cell (H : Host) (hs dt : Q) (st : t * nat) (i : Z) : t * nat :=
  let (s, r) := st in
  if gtb (random H r) hs then (s, S r)
  else
    let surf := getQ (heartSurface s) i in
    let s := set_electronVel (put (electronVel s) i
               (getQ (electronVel s) i + (surf * 0.7 - getQ (electron s) i) * hs * 0.5 * dt)) s in
    let s := set_electronVel (put (electronVel s) i
               (getQ (electronVel s) i + (random H (S r) - 0.5) * surf * hs * 0.6)) s in
    let s := set_photonVel (put (photonVel s) i
               (getQ (photonVel s) i + (random H (S (S r)) - 0.5) * surf * hs * 0.2)) s in
    (s, S (S (S r))).

Definition heart_interior_cell (H : Host) (innerProb dt : Q) (st : t * nat) (i : Z) : t * nat :=
  let (s, r) := st in
  if gtb (random H r) innerProb then (s, S r)
  else
    (set_electronVel (put (electronVel s) i
       (getQ (electronVel s) i + (0.15 - getQ (electron s) i) * 0.25 * dt)) s, S r).

Definition heart_attractor (H : Host) (dt : Q) (st : t * nat) : t * nat :=
  let (s, r) := st in
  if gtb (heartStrength s) 0 then
    let hs := heartStrength s in
    let st := fold_left (heart_surface_cell H hs dt) (_heartSurfaceCells s) (s, r) in
    let innerProb := hs * 0.35 in
    fold_left (heart_interior_cell H innerProb dt) (_heartInteriorCells s) st
  else (s, r).

(** The final loop: every amplitude is clamped to [-5, 5]. *)
Definition clamp_cell (s : t) (i : Z) : t :=
  let s := set_higgs (put (higgs s) i (Qmax (-5) (Qmin 5 (getQ (higgs s) i)))) s in
  let s := set_electron (put (electron s) i (Qmax (-5) (Qmin 5 (getQ (electron s) i)))) s in
  set_photon (put (photon s) i (Qmax (-5) (Qmin 5 (getQ (photon s) i)))) s.

Definition verlet (dt : Q) (s : t) : t :=
  let s := for_xyz update_acc_cell s in
  let dt2half := 0.5 * dt * dt in
  let dthalf := 0.5 * dt in
  let s := fold_left (update_pos_cell dt dt2half) (upto N3) s in
  for_xyz (update_vel_cell dthalf) s.

(** [update(dt)]. *)
Definition update (H : Host) (dt : Q) (st : t * nat) : t * nat :=
  let (s, r) := st in
  let s := verlet dt s in
  let (s, r) := heart_attractor H dt (s, r) in
  (fold_left clamp_cell (upto N3) s, r).


(** [coords(i)]: the inverse of [idx] on the lattice. *)
Definition coords (i : Z) : Z * Z * Z :=
  let z := ToInt32 (inject_Z i / inject_Z N2) in
  let y := ToInt32 (inject_Z (i - z * N2) / inject_Z N) in
  let x := (i - y * N - z * N2)%Z in
  (x, y, z).

(** [worldPos(i)]: the centre of cell [i] in world coordinates. *)
Definition worldPos (i : Z) : Q * Q * Q :=
  let '(x, y, z) := coords i in
  let scale := (2 * WORLD_RANGE) / inject_Z N in
  ((inject_Z x - inject_Z N / 2 + 0.5) * scale,
   (inject_Z y - inject_Z N / 2 + 0.5) * scale,
   (inject_Z z - inject_Z N / 2 + 0.5) * scale).

End QuantumField.

(** ** Consciousness.js *)

Module Consciousness.
Import JS.
Import QuantumField.

(** The object holds a reference to the shared field; the methods below take
    the field they read and write as an argument and return it. *)
Record t := mk {
  orchThreshold : Q;
  orchGrowthRate : Q;
  iitUpdateRate : Q;
  enabled : bool
}.

Definition constructor : t := mk 0.95 0.8 0.15 true.

(** One iteration of the loop of [updateOrchOR]. *)
Definition orch_cell (c : t) (rate : Q) (f : QuantumField.t) (i : Z) : QuantumField.t :=
  let h := getQ (higgs f) i in
  let e := getQ (electron f) i in
  let p := getQ (photon f) i in
  let ev := getQ (electronVel f) i in
  let pv := getQ (photonVel f) i in
  let electronActivity := e * e + ev * ev in
  let photonOscillation := p * p + pv * pv in
  let higgsDeviation := Qabs (h - VEV) in
  let delta := (electronActivity * 0.6 + photonOscillation * 0.4 - higgsDeviation * 0.5) * rate in
  let f := set_orchCoherence
             (put (orchCoherence f) i (Qmax 0 (Qmin 1 (getQ (orchCoherence f) i + delta)))) f in
  if geb (getQ (orchCoherence f) i) (orchThreshold c) then
    let f := set_orchFlash (put (orchFlash f) i 1%Z) f in
    set_orchCoherence (put (orchCoherence f) i 0) f
  else f.

(** [updateOrchOR(dt)]: [orchFlash.fill(0)], then the loop over all cells. *)
Definition updateOrchOR (c : t) (dt : Q) (f : QuantumField.t) : QuantumField.t :=
  let f := set_orchFlash (map (fun _ => 0%Z) (orchFlash f)) f in
  let rate := orchGrowthRate c * dt in
  fold_left (orch_cell c rate) (upto N3) f.

(** [updateIITPhi()]. [minMI] starts at [Infinity], which is [None] here. *)
Definition iit_neighbor (H : Host) (f : QuantumField.t) (hi ei pi mag_i : Q)
    (acc : Q * option Q) (n : Z * Z * Z) : Q * option Q :=
  let '(nx, ny, nz) := n in
  let (sumMI, minMI) := acc in
  let ni := (nx + ny * N + nz * N2)%Z in
  let hn := getQ (higgs f) ni in
  let en := getQ (electron f) ni in
  let pn := getQ (photon f) ni in
  let mag_n := Math_sqrt H (hn * hn + en * en + pn * pn) + 1e-8 in
  let dotProd := hi * hn + ei * en + pi * pn in
  let mi := Qabs dotProd / (mag_i * mag_n) in
  (sumMI + mi,
   match minMI with
   | None => Some mi
   | Some m => if ltb mi m then Some mi else Some m
   end).

Definition iit_cell (H : Host) (alpha : Q) (x y z : Z) (f : QuantumField.t) : QuantumField.t :=
  let ci := (x + y * N + z * N2)%Z in
  let hi := getQ (higgs f) ci in
  let ei := getQ (electron f) ci in
  let pi := getQ (photon f) ci in
  let mag_i := Math_sqrt H (hi * hi + ei * ei + pi * pi) + 1e-8 in
  let neighbors :=
    [ (Z.rem (x + 1) N, y, z); (Z.rem (x - 1 + N) N, y, z);
      (x, Z.rem (y + 1) N, z); (x, Z.rem (y - 1 + N) N, z);
      (x, y, Z.rem (z + 1) N); (x, y, Z.rem (z - 1 + N) N) ] in
  let (sumMI, minMI) := fold_left (iit_neighbor H f hi ei pi mag_i) neighbors (0, None) in
  let newPhi := (sumMI - match minMI with Some m => m | None => 0 end) / 6 in
  set_phi (put (phi f) ci (getQ (phi f) ci * (1 - alpha) + newPhi * alpha)) f.

Definition updateIITPhi (H : Host) (c : t) (f : QuantumField.t) : QuantumField.t :=
  for_xyz (iit_cell H (iitUpdateRate c)) f.

(** [update(dtCompensated)]. *)
Definition update (H : Host) (c : t) (dtCompensated : Q) (f : QuantumField.t) : QuantumField.t :=
  if negb (enabled c) then f
  else updateIITPhi H c (updateOrchOR c dtCompensated f).

End Consciousness.

(** ** ParticleSystem.js *)

Module Flash.
Record t := mk { x : Q; y : Q; z : Q; age : Q; intensity : Q }.
End Flash.

Module ParticleSystem.
Import JS.

Definition MAX : Z := 300.
Definition ANNIHILATION_RADIUS : Q := 1.5.
Definition DRAG : Q := 0.99.
Definition MAX_FLASHES : Z := 20.

Definition TYPE_INACTIVE : Z := 0.
Definition TYPE_ELECTRON : Z := 1.
Definition TYPE_POSITRON : Z := 2.
Definition TYPE_PHOTON : Z := 3.
Definition TYPE_HIGGS : Z := 4.
Definition TYPE_ANTI_HIGGS : Z := 5.

(** The pool. [_freeList] is kept with its last element first: the head of
    the list is the slot the next [pop] returns. [field] tells whether
    [this.field] has been assigned (main.js assigns the shared field); the
    field itself is passed to the methods that read or write it. *)
Record t := mk {
  px : list Q; py : list Q; pz : list Q;
  vx : list Q; vy : list Q; vz : list Q;
  colorR : list Q; colorG : list Q; colorB : list Q;
  size : list Q;
  alpha : list Q;
  type : list Z;
  age : list Q;
  lifetime : list Q;
  entangledWith : list Z;
  pairWith : list Z;
  _freeList : list Z;
  active : list Z;
  annihilationFlashes : list Flash.t;
  _flashHead : Z;
  _spawnAccum : Q;
  field : bool;
  injectionRate : Q
}.

Definition set_px (v : list Q) (s : t) : t :=
  mk v (py s) (pz s) (vx s) (vy s) (vz s) (colorR s) (colorG s) (colorB s) (size s) (alpha s) (type s) (age s) (lifetime s) (entangledWith s) (pairWith s) (_freeList s) (active s) (annihilationFlashes s) (_flashHead s) (_spawnAccum s) (field s) (injectionRate s).
Definition set_py (v : list Q) (s : t) : t :=
  mk (px s) v (pz s) (vx s) (vy s) (vz s) (colorR s) (colorG s) (colorB s) (size s) (alpha s) (type s) (age s) (lifetime s) (entangledWith s) (pairWith s) (_freeList s) (active s) (annihilationFlashes s) (_flashHead s) (_spawnAccum s) (field s) (injectionRate s).
Definition set_pz (v : list Q) (s : t) : t :=
  mk (px s) (py s) v (vx s) (vy s) (vz s) (colorR s) (colorG s) (colorB s) (size s) (alpha s) (type s) (age s) (lifetime s) (entangledWith s) (pairWith s) (_freeList s) (active s) (annihilationFlashes s) (_flashHead s) (_spawnAccum s) (field s) (injectionRate s).
Definition set_vx (v : list Q) (s : t) : t :=
  mk (px s) (py s) (pz s) v (vy s) (vz s) (colorR s) (colorG s) (colorB s) (size s) (alpha s) (type s) (age s) (lifetime s) (entangledWith s) (pairWith s) (_freeList s) (active s) (annihilationFlashes s) (_flashHead s) (_spawnAccum s) (field s) (injectionRate s).
Definition set_vy (v : list Q) (s : t) : t :=
  mk (px s) (py s) (pz s) (vx s) v (vz s) (colorR s) (colorG s) (colorB s) (size s) (alpha s) (type s) (age s) (lifetime s) (entangledWith s) (pairWith s) (_freeList s) (active s) (annihilationFlashes s) (_flashHead s) (_spawnAccum s) (field s) (injectionRate s).
Definition set_vz (v : list Q) (s : t) : t :=
  mk (px s) (py s) (pz s) (vx s) (vy s) v (colorR s) (colorG s) (colorB s) (size s) (alpha s) (type s) (age s) (lifetime s) (entangledWith s) (pairWith s) (_freeList s) (active s) (annihilationFlashes s) (_flashHead s) (_spawnAccum s) (field s) (injectionRate s).
Definition set_colorR (v : list Q) (s : t) : t :=
  mk (px s) (py s) (pz s) (vx s) (vy s) (vz s) v (colorG s) (colorB s) (size s) (alpha s) (type s) (age s) (lifetime s) (entangledWith s) (pairWith s) (_freeList s) (active s) (annihilationFlashes s) (_flashHead s) (_spawnAccum s) (field s) (injectionRate s).
Definition set_colorG (v : list Q) (s : t) : t :=
  mk (px s) (py s) (pz s) (vx s) (vy s) (vz s) (colorR s) v (colorB s) (size s) (alpha s) (type s) (age s) (lifetime s) (entangledWith s) (pairWith s) (_freeList s) (active s) (annihilationFlashes s) (_flashHead s) (_spawnAccum s) (field s) (injectionRate s).
Definition set_colorB (v : list Q) (s : t) : t :=
  mk (px s) (py s) (pz s) (vx s) (vy s) (vz s) (colorR s) (colorG s) v (size s) (alpha s) (type s) (age s) (lifetime s) (entangledWith s) (pairWith s) (_freeList s) (active s) (annihilationFlashes s) (_flashHead s) (_spawnAccum s) (field s) (injectionRate s).
Definition set_size (v : list Q) (s : t) : t :=
  mk (px s) (py s) (pz s) (vx s) (vy s) (vz s) (colorR s) (colorG s) (colorB s) v (alpha s) (type s) (age s) (lifetime s) (entangledWith s) (pairWith s) (_freeList s) (active s) (annihilationFlashes s) (_flashHead s) (_spawnAccum s) (field s) (injectionRate s).
Definition set_alpha (v : list Q) (s : t) : t :=
  mk (px s) (py s) (pz s) (vx s) (vy s) (vz s) (colorR s) (colorG s) (colorB s) (size s) v (type s) (age s) (lifetime s) (entangledWith s) (pairWith s) (_freeList s) (active s) (annihilationFlashes s) (_flashHead s) (_spawnAccum s) (field s) (injectionRate s).
Definition set_type (v : list Z) (s : t) : t :=
  mk (px s) (py s) (pz s) (vx s) (vy s) (vz s) (colorR s) (colorG s) (colorB s) (size s) (alpha s) v (age s) (lifetime s) (entangledWith s) (pairWith s) (_freeList s) (active s) (annihilationFlashes s) (_flashHead s) (_spawnAccum s) (field s) (injectionRate s).
Definition set_age (v : list Q) (s : t) : t :=
  mk (px s) (py s) (pz s) (vx s) (vy s) (vz s) (colorR s) (colorG s) (colorB s) (size s) (alpha s) (type s) v (lifetime s) (entangledWith s) (pairWith s) (_freeList s) (active s) (annihilationFlashes s) (_flashHead s) (_spawnAccum s) (field s) (injectionRate s).
Definition set_lifetime (v : list Q) (s : t) : t :=
  mk (px s) (py s) (pz s) (vx s) (vy s) (vz s) (colorR s) (colorG s) (colorB s) (size s) (alpha s) (type s) (age s) v (entangledWith s) (pairWith s) (_freeList s) (active s) (annihilationFlashes s) (_flashHead s) (_spawnAccum s) (field s) (injectionRate s).
Definition set_entangledWith (v : list Z) (s : t) : t :=
  mk (px s) (py s) (pz s) (vx s) (vy s) (vz s) (colorR s) (colorG s) (colorB s) (size s) (alpha s) (type s) (age s) (lifetime s) v (pairWith s) (_freeList s) (active s) (annihilationFlashes s) (_flashHead s) (_spawnAccum s) (field s) (injectionRate s).
Definition set_pairWith (v : list Z) (s : t) : t :=
  mk (px s) (py s) (pz s) (vx s) (vy s) (vz s) (colorR s) (colorG s) (colorB s) (size s) (alpha s) (type s) (age s) (lifetime s) (entangledWith s) v (_freeList s) (active s) (annihilationFlashes s) (_flashHead s) (_spawnAccum s) (field s) (injectionRate s).
Definition set_freeList (v : list Z) (s : t) : t :=
  mk (px s) (py s) (pz s) (vx s) (vy s) (vz s) (colorR s) (colorG s) (colorB s) (size s) (alpha s) (type s) (age s) (lifetime s) (entangledWith s) (pairWith s) v (active s) (annihilationFlashes s) (_flashHead s) (_spawnAccum s) (field s) (injectionRate s).
Definition set_active (v : list Z) (s : t) : t :=
  mk (px s) (py s) (pz s) (vx s) (vy s) (vz s) (colorR s) (colorG s) (colorB s) (size s) (alpha s) (type s) (age s) (lifetime s) (entangledWith s) (pairWith s) (_freeList s) v (annihilationFlashes s) (_flashHead s) (_spawnAccum s) (field s) (injectionRate s).
Definition set_annihilationFlashes (v : list Flash.t) (s : t) : t :=
  mk (px s) (py s) (pz s) (vx s) (vy s) (vz s) (colorR s) (colorG s) (colorB s) (size s) (alpha s) (type s) (age s) (lifetime s) (entangledWith s) (pairWith s) (_freeList s) (active s) v (_flashHead s) (_spawnAccum s) (field s) (injectionRate s).
Definition set_flashHead (v : Z) (s : t) : t :=
  mk (px s) (py s) (pz s) (vx s) (vy s) (vz s) (colorR s) (colorG s) (colorB s) (size s) (alpha s) (type s) (age s) (lifetime s) (entangledWith s) (pairWith s) (_freeList s) (active s) (annihilationFlashes s) v (_spawnAccum s) (field s) (injectionRate s).
Definition set_spawnAccum (v : Q) (s : t) : t :=
  mk (px s) (py s) (pz s) (vx s) (vy s) (vz s) (colorR s) (colorG s) (colorB s) (size s) (alpha s) (type s) (age s) (lifetime s) (entangledWith s) (pairWith s) (_freeList s) (active s) (annihilationFlashes s) (_flashHead s) v (field s) (injectionRate s).
Definition set_field (v : bool) (s : t) : t :=
  mk (px s) (py s) (pz s) (vx s) (vy s) (vz s) (colorR s) (colorG s) (colorB s) (size s) (alpha s) (type s) (age s) (lifetime s) (entangledWith s) (pairWith s) (_freeList s) (active s) (annihilationFlashes s) (_flashHead s) (_spawnAccum s) v (injectionRate s).
Definition set_injectionRate (v : Q) (s : t) : t :=
  mk (px s) (py s) (pz s) (vx s) (vy s) (vz s) (colorR s) (colorG s) (colorB s) (size s) (alpha s) (type s) (age s) (lifetime s) (entangledWith s) (pairWith s) (_freeList s) (active s) (annihilationFlashes s) (_flashHead s) (_spawnAccum s) (field s) v.

Definition constructor : t :=
  let fl := repeat 0 (Z.to_nat MAX) in
  mk fl fl fl fl fl fl fl fl fl fl fl
     (repeat 0%Z (Z.to_nat MAX)) fl fl
     (repeat (-1)%Z (Z.to_nat MAX)) (repeat (-1)%Z (Z.to_nat MAX))
     (upto MAX) []
     (repeat (Flash.mk 0 0 0 999 0) (Z.to_nat MAX_FLASHES))
     0%Z 0 false 4.0.

(** An exception thrown by the source is [None]. *)
Definition bind {A B : Type} (m : option A) (k : A -> option B) : option B :=
  match m with Some a => k a | None => None end.

(** [_alloc()]. *)
Definition _alloc (s : t) : t * Z :=
  match _freeList s with
  | [] => (s, (-1)%Z)
  | idx :: rest =>
      let s := set_freeList rest s in
      (set_active (Set_add (active s) idx) s, idx)
  end.

(** [_free(idx)]. *)
Definition _free (s : t) (idx : Z) : t :=
  let s := set_type (put (type s) idx TYPE_INACTIVE) s in
  let s := set_alpha (put (alpha s) idx 0) s in
  let s := set_entangledWith (put (entangledWith s) idx (-1)%Z) s in
  let s := set_pairWith (put (pairWith s) idx (-1)%Z) s in
  let s := set_active (Set_delete (active s) idx) s in
  set_freeList (idx :: _freeList s) s.

Definition set_rgb (s : t) (i : Z) (r g b : Q) : t :=
  let s := set_colorR (put (colorR s) i r) s in
  let s := set_colorG (put (colorG s) i g) s in
  set_colorB (put (colorB s) i b) s.

(** [_setColor(i, type)]: a [switch] with no default. *)
Definition _setColor (s : t) (i : Z) (ty : Z) : t :=
  if (ty =? TYPE_ELECTRON)%Z then set_rgb s i 0.2 0.4 1.0
  else if (ty =? TYPE_POSITRON)%Z then set_rgb s i 1.0 0.2 0.2
  else if (ty =? TYPE_PHOTON)%Z then set_rgb s i 1.0 0.85 0.2
  else if (ty =? TYPE_HIGGS)%Z then set_rgb s i 0.7 0.2 1.0
  else if (ty =? TYPE_ANTI_HIGGS)%Z then set_rgb s i 0.0 0.9 1.0
  else s.

Definition _typeSize (ty : Z) : Q :=
  if (ty =? TYPE_PHOTON)%Z then 6
  else if (ty =? TYPE_HIGGS)%Z || (ty =? TYPE_ANTI_HIGGS)%Z then 8
  else 5.

(** [_sampleHotspot()]: best of eight random cells by energy. Reading
    [field.higgs] when [this.field] is [null] throws. *)
Definition hotspot_try (H : Host) (fld : QuantumField.t)
    (st : Q * (Z * Z * Z) * nat) (k : Z) : Q * (Z * Z * Z) * nat :=
  let '(bestEnergy, best, r) := st in
  let x := ToInt32 (random H r * inject_Z QuantumField.N) in
  let y := ToInt32 (random H (S r) * inject_Z QuantumField.N) in
  let z := ToInt32 (random H (S (S r)) * inject_Z QuantumField.N) in
  let gi := (x + y * QuantumField.N + z * QuantumField.N2)%Z in
  let h := getQ (QuantumField.higgs fld) gi in
  let e := getQ (QuantumField.electron fld) gi in
  let p := getQ (QuantumField.photon fld) gi in
  let energy := h * h + e * e + p * p in
  if gtb energy bestEnergy then (energy, (x, y, z), S (S (S r)))
  else (bestEnergy, best, S (S (S r))).

Definition _sampleHotspot (H : Host) (s : t) (fld : QuantumField.t) (r : nat)
    : option (Q * Q * Q * nat) :=
  if field s then
    let '(_, (bx, by_, bz), r) :=
      fold_left (hotspot_try H fld) (upto 8) (-1, (0, 0, 0)%Z, r) in
    let scale := (2 * QuantumField.WORLD_RANGE) / inject_Z QuantumField.N in
    let half := inject_Z QuantumField.N / 2 in
    Some ((inject_Z bx - half + 0.5) * scale,
          (inject_Z by_ - half + 0.5) * scale,
          (inject_Z bz - half + 0.5) * scale, r)
  else None.

(** [_nearestCell(wx, wy, wz)]. *)
Definition _nearestCell (wx wy wz : Q) : Z :=
  let scale := inject_Z QuantumField.N / (2 * QuantumField.WORLD_RANGE) in
  let x := Z.max 0 (Z.min (QuantumField.N - 1) (ToInt32 ((wx + QuantumField.WORLD_RANGE) * scale))) in
  let y := Z.max 0 (Z.min (QuantumField.N - 1) (ToInt32 ((wy + QuantumField.WORLD_RANGE) * scale))) in
  let z := Z.max 0 (Z.min (QuantumField.N - 1) (ToInt32 ((wz + QuantumField.WORLD_RANGE) * scale))) in
  (x + y * QuantumField.N + z * QuantumField.N2)%Z.

(** The assignments of the body of the [for] loop of [spawnPair], for one
    of the two slots; three draws give the positional jitter. *)
Definition spawn_write (H : Host) (c v : Q * Q * Q) (lifetime_ jitter : Q)
    (s : t) (r : nat) (idx ty : Z) (sv : Q) : t :=
  let '(cx, cy, cz) := c in
  let '(vox, voy, voz) := v in
  let s := set_px (put (px s) idx (cx + (random H r - 0.5) * jitter)) s in
  let s := set_py (put (py s) idx (cy + (random H (S r) - 0.5) * jitter)) s in
  let s := set_pz (put (pz s) idx (cz + (random H (S (S r)) - 0.5) * jitter)) s in
  let s := set_vx (put (vx s) idx (sv * vox)) s in
  let s := set_vy (put (vy s) idx (sv * voy)) s in
  let s := set_vz (put (vz s) idx (sv * voz)) s in
  let s := set_type (put (type s) idx (ToUint8 ty)) s in
  let s := set_age (put (age s) idx 0) s in
  let s := set_lifetime (put (lifetime s) idx lifetime_) s in
  let s := set_alpha (put (alpha s) idx 1.0) s in
  set_size (put (size s) idx (_typeSize ty)) s.

(** The whole loop body: the assignments, then [this._setColor(idx, t)]. *)
Definition spawn_init (H : Host) (c v : Q * Q * Q) (lifetime_ jitter : Q)
    (s : t) (r : nat) (idx ty : Z) (sv : Q) : t :=
  _setColor (spawn_write H c v lifetime_ jitter s r idx ty sv) idx ty.

(** [spawnPair(typeA, typeB)]. *)
Definition spawnPair (H : Host) (fld : QuantumField.t) (typeA typeB : Z)
    (st : t * nat) : option (t * nat) :=
  let (s, r) := st in
  bind (_sampleHotspot H s fld r) (fun hot =>
    let '(cx, cy, cz, r) := hot in
    let (s, a) := _alloc s in
    let (s, b) := _alloc s in
    if (a =? -1)%Z || (b =? -1)%Z then
      let s := if negb (a =? -1)%Z then _free s a else s in
      let s := if negb (b =? -1)%Z then _free s b else s in
      Some (s, r)
    else
      let speed := 1.5 + random H r * 2.0 in
      let theta := random H (1 + r) * Math_PI H * 2 in
      let phi := Math_acos H (2 * random H (2 + r) - 1) in
      let vox := speed * Math_sin H phi * Math_cos H theta in
      let voy := speed * Math_sin H phi * Math_sin H theta in
      let voz := speed * Math_cos H phi in
      let lifetime_ := 1.0 + random H (3 + r) * 3.0 in
      let jitter := 0.3 in
      let s := spawn_init H (cx, cy, cz) (vox, voy, voz) lifetime_ jitter s (4 + r) a typeA 1 in
      let s := spawn_init H (cx, cy, cz) (vox, voy, voz) lifetime_ jitter s (7 + r) b typeB (-1) in
      let s := set_pairWith (put (pairWith s) a (ToInt16 b)) s in
      let s := set_pairWith (put (pairWith s) b (ToInt16 a)) s in
      let s := set_entangledWith (put (entangledWith s) a (ToInt16 b)) s in
      let s := set_entangledWith (put (entangledWith s) b (ToInt16 a)) s in
      Some (s, (10 + r)%nat)).

(** One photon of [_spawnAnnihilationPhotons], written into slot [idx]. *)
Definition photon_init (H : Host) (x y z : Q) (s : t) (r : nat) (idx : Z) : t :=
  let theta := random H r * Math_PI H * 2 in
  let phi := Math_acos H (2 * random H (1 + r) - 1) in
  let speed := 3.0 + random H (2 + r) * 2.0 in
  let s := set_px (put (px s) idx x) s in
  let s := set_py (put (py s) idx y) s in
  let s := set_pz (put (pz s) idx z) s in
  let s := set_vx (put (vx s) idx (speed * Math_sin H phi * Math_cos H theta)) s in
  let s := set_vy (put (vy s) idx (speed * Math_sin H phi * Math_sin H theta)) s in
  let s := set_vz (put (vz s) idx (speed * Math_cos H phi)) s in
  let s := set_type (put (type s) idx TYPE_PHOTON) s in
  let s := set_age (put (age s) idx 0) s in
  let s := set_lifetime (put (lifetime s) idx (0.4 + random H (3 + r) * 0.4)) s in
  let s := set_alpha (put (alpha s) idx 1.0) s in
  let s := set_size (put (size s) idx 6) s in
  let s := _setColor s idx TYPE_PHOTON in
  let s := set_entangledWith (put (entangledWith s) idx (-1)%Z) s in
  set_pairWith (put (pairWith s) idx (-1)%Z) s.

(** [_spawnAnnihilationPhotons(x, y, z)]: [k] photons still to spawn; the
    loop returns at the first failed allocation. *)
Fixpoint spawn_photons (H : Host) (k : nat) (x y z : Q) (st : t * nat) : t * nat :=
  match k with
  | O => st
  | S k' =>
      let (s, r) := st in
      let (s, idx) := _alloc s in
      if (idx =? -1)%Z then (s, r)
      else spawn_photons H k' x y z (photon_init H x y z s r idx, (4 + r)%nat)
  end.

Definition _spawnAnnihilationPhotons (H : Host) (x y z : Q) (st : t * nat) : t * nat :=
  spawn_photons H 3 x y z st.

(** [_emitFlash(x, y, z)]: the ring buffer entry at [_flashHead % MAX_FLASHES]
    is overwritten. *)
Definition _emitFlash (s : t) (x y z : Q) : t :=
  let k := Z.rem (_flashHead s) MAX_FLASHES in
  let s := set_annihilationFlashes
             (put (annihilationFlashes s) k (Flash.mk x y z 0 1.0)) s in
  set_flashHead (_flashHead s + 1)%Z s.

(** [_higgsGrad(wx, wy, wz)]. *)
Definition _higgsGrad (s : t) (fld : QuantumField.t) (wx wy wz : Q) : Q * Q * Q :=
  if negb (field s) then (0, 0, 0)
  else
    let N := QuantumField.N in
    let N2 := QuantumField.N2 in
    let scale := inject_Z N / (2 * QuantumField.WORLD_RANGE) in
    let gx := Z.max 1 (Z.min (N - 2) (ToInt32 ((wx + QuantumField.WORLD_RANGE) * scale))) in
    let gy := Z.max 1 (Z.min (N - 2) (ToInt32 ((wy + QuantumField.WORLD_RANGE) * scale))) in
    let gz := Z.max 1 (Z.min (N - 2) (ToInt32 ((wz + QuantumField.WORLD_RANGE) * scale))) in
    let f := QuantumField.higgs fld in
    ((getQ f ((gx + 1) + gy * N + gz * N2)%Z - getQ f ((gx - 1) + gy * N + gz * N2)%Z) * 0.5,
     (getQ f (gx + (gy + 1) * N + gz * N2)%Z - getQ f (gx + (gy - 1) * N + gz * N2)%Z) * 0.5,
     (getQ f (gx + gy * N + (gz + 1) * N2)%Z - getQ f (gx + gy * N + (gz - 1) * N2)%Z) * 0.5).

(** An entry of [toAnnihilate]: [[a, b, doFlash]]. *)
Definition Entry : Type := Z * Z * bool.

(** Periodic boundary wrap of one coordinate: the two conditional
    corrections [if (p > W) p -= 2*W; if (p < -W) p += 2*W]. *)
Definition wrap_axis (p : Q) : Q :=
  let W := QuantumField.WORLD_RANGE in
  let p := if gtb p W then p - 2 * W else p in
  if ltb p (- W) then p + 2 * W else p.

(** The blocks of the loop body of [update] that move the active slot [i],
    in the order of the source. [this.age[i] += dt]: *)
Definition grow_older (dt : Q) (s : t) (i : Z) : t :=
  set_age (put (age s) i (getQ (age s) i + dt)) s.

(** Higgs gradient force. *)
Definition higgs_force (dt : Q) (fld : QuantumField.t) (s : t) (i : Z) : t :=
  let '(gx, gy, gz) := _higgsGrad s fld (getQ (px s) i) (getQ (py s) i) (getQ (pz s) i) in
  let force := 0.3 in
  let s := set_vx (put (vx s) i (getQ (vx s) i - gx * force * dt)) s in
  let s := set_vy (put (vy s) i (getQ (vy s) i - gy * force * dt)) s in
  set_vz (put (vz s) i (getQ (vz s) i - gz * force * dt)) s.

(** Drag. *)
Definition apply_drag (s : t) (i : Z) : t :=
  let s := set_vx (put (vx s) i (getQ (vx s) i * DRAG)) s in
  let s := set_vy (put (vy s) i (getQ (vy s) i * DRAG)) s in
  set_vz (put (vz s) i (getQ (vz s) i * DRAG)) s.

(** Move. *)
Definition move (dt : Q) (s : t) (i : Z) : t :=
  let s := set_px (put (px s) i (getQ (px s) i + getQ (vx s) i * dt)) s in
  let s := set_py (put (py s) i (getQ (py s) i + getQ (vy s) i * dt)) s in
  set_pz (put (pz s) i (getQ (pz s) i + getQ (vz s) i * dt)) s.

(** Periodic boundary wrap. *)
Definition wrap_position (s : t) (i : Z) : t :=
  let s := set_px (put (px s) i (wrap_axis (getQ (px s) i))) s in
  let s := set_py (put (py s) i (wrap_axis (getQ (py s) i))) s in
  set_pz (put (pz s) i (wrap_axis (getQ (pz s) i))) s.

(** Fade near end of life. *)
Definition fade (s : t) (i : Z) : t :=
  let remaining := getQ (lifetime s) i - getQ (age s) i in
  if ltb remaining 0.5 then set_alpha (put (alpha s) i (Qmax 0 (remaining / 0.5))) s
  else s.

(** The motion part of the loop body: the six blocks in sequence. *)
Definition integrate (dt : Q) (fld : QuantumField.t) (s : t) (i : Z) : t :=
  let s := grow_older dt s i in
  let s := higgs_force dt fld s i in
  let s := apply_drag s i in
  let s := move dt s i in
  let s := wrap_position s i in
  fade s i.

(** The loop body of [update] for the active slot [i]: motion, then the
    natural-death test, then the annihilation test against the pair
    partner. *)
Definition scan_slot (dt : Q) (fld : QuantumField.t) (st : t * list Entry) (i : Z)
    : t * list Entry :=
  let (s, toAnnihilate) := st in
  if (getZ (type s) i =? TYPE_INACTIVE)%Z then st
  else
    let s := integrate dt fld s i in
    if geb (getQ (age s) i) (getQ (lifetime s) i) then
      let partner := getZ (entangledWith s) i in
      if negb (partner =? -1)%Z && Set_has (active s) partner
      then (s, toAnnihilate ++ [(i, partner, false)])
      else (s, toAnnihilate ++ [(i, (-1)%Z, false)])
    else
      let pair := getZ (pairWith s) i in
      if negb (pair =? -1)%Z && (i <? pair)%Z && Set_has (active s) pair then
        let dx := getQ (px s) i - getQ (px s) pair in
        let dy := getQ (py s) i - getQ (py s) pair in
        let dz := getQ (pz s) i - getQ (pz s) pair in
        let dist2 := dx * dx + dy * dy + dz * dz in
        if ltb dist2 (ANNIHILATION_RADIUS * ANNIHILATION_RADIUS)
        then (s, toAnnihilate ++ [(i, pair, true)])
        else (s, toAnnihilate)
      else (s, toAnnihilate).

(** The first loop of [update]: [for (const i of this.active)]. The set is
    not modified inside the loop. *)
Definition scan (dt : Q) (fld : QuantumField.t) (s : t) : t * list Entry :=
  fold_left (scan_slot dt fld) (active s) (s, []).

(** The body of the second loop of [update], for one entry. *)
Definition process_entry (H : Host) (st : t * QuantumField.t * nat) (e : Entry)
    : t * QuantumField.t * nat :=
  let '(s, fld, r) := st in
  let '(a, b, doFlash) := e in
  if negb (Set_has (active s) a) then st
  else
    let ax := (getQ (px s) a + (if negb (b =? -1)%Z then getQ (px s) b else getQ (px s) a)) * 0.5 in
    let ay := (getQ (py s) a + (if negb (b =? -1)%Z then getQ (py s) b else getQ (py s) a)) * 0.5 in
    let az := (getQ (pz s) a + (if negb (b =? -1)%Z then getQ (pz s) b else getQ (pz s) a)) * 0.5 in
    let '(s, fld, r) :=
      if doFlash then
        let (s, r) := _spawnAnnihilationPhotons H ax ay az (s, r) in
        let s := _emitFlash s ax ay az in
        let fld :=
          if field s then
            let ci := _nearestCell ax ay az in
            QuantumField.set_orchCoherence
              (put (QuantumField.orchCoherence fld) ci
                 (Qmin 1 (getQ (QuantumField.orchCoherence fld) ci + 0.4))) fld
          else fld in
        (s, fld, r)
      else (s, fld, r) in
    let s := _free s a in
    let s := if negb (b =? -1)%Z && Set_has (active s) b then _free s b else s in
    (s, fld, r).

Definition process (H : Host) (toAnnihilate : list Entry) (st : t * QuantumField.t * nat)
    : t * QuantumField.t * nat :=
  fold_left (process_entry H) toAnnihilate st.

(** The last loop of [update]: flashes younger than 2 s age by [dt]. *)
Definition age_flashes (dt : Q) (s : t) : t :=
  set_annihilationFlashes
    (map (fun f => if ltb (Flash.age f) 2
                   then Flash.mk (Flash.x f) (Flash.y f) (Flash.z f) (Flash.age f + dt) (Flash.intensity f)
                   else f) (annihilationFlashes s)) s.

(** The injection loop [while (this._spawnAccum >= 1.0)]. Each iteration
    takes 1 from the accumulator, so [fuel] iterations suffice when [fuel]
    is the integer part of the accumulator (lemma [inject_loop_exit]). *)
Fixpoint inject_loop (H : Host) (fld : QuantumField.t) (fuel : nat) (st : t * nat)
    : option (t * nat) :=
  match fuel with
  | O => Some st
  | S k =>
      let (s, r) := st in
      if geb (_spawnAccum s) 1.0 then
        let s := set_spawnAccum (_spawnAccum s - 1.0) s in
        let rnd := random H r in
        bind (if ltb rnd 0.5 then spawnPair H fld TYPE_ELECTRON TYPE_POSITRON (s, S r)
              else if ltb rnd 0.8 then spawnPair H fld TYPE_HIGGS TYPE_ANTI_HIGGS (s, S r)
              else spawnPair H fld TYPE_ELECTRON TYPE_POSITRON (s, S r))
             (inject_loop H fld k)
      else Some st
  end.

Definition inject (H : Host) (dt : Q) (fld : QuantumField.t) (st : t * nat) : option (t * nat) :=
  let (s, r) := st in
  let s := set_spawnAccum (_spawnAccum s + injectionRate s * dt) s in
  inject_loop H fld (Z.to_nat (Qfloor (_spawnAccum s))) (s, r).

(** [update(dt)]. *)
Definition update (H : Host) (dt : Q) (st : t * QuantumField.t * nat)
    : option (t * QuantumField.t * nat) :=
  let '(s, fld, r) := st in
  bind (inject H dt fld (s, r)) (fun st1 =>
    let (s, r) := st1 in
    let (s, toAnnihilate) := scan dt fld s in
    let '(s, fld, r) := process H toAnnihilate (s, fld, r) in
    Some (age_flashes dt s, fld, r)).


End ParticleSystem.

(** ** ShapeConstraint.js *)

Module ShapeConstraint.
Import JS.
Import QuantumField.

Definition CELL_SIZE : Q := (2 * WORLD_RANGE) / inject_Z N.

(** *** STL parsing *)

(** An [ArrayBuffer] is its list of bytes; a [DataView] read outside the
    buffer throws a [RangeError]. *)
Definition byteLength (buf : list byte) : Z := Z.of_nat (List.length buf).

Definition byte_at (buf : list byte) (i : Z) : Z :=
  match nth_error buf (Z.to_nat i) with
  | Some b => Z.of_N (Byte.to_N b)
  | None => 0%Z
  end.

Definition uint32_at (buf : list byte) (off : Z) : Z :=
  (byte_at buf off + 2 ^ 8 * byte_at buf (off + 1)
   + 2 ^ 16 * byte_at buf (off + 2) + 2 ^ 24 * byte_at buf (off + 3))%Z.

Definition getUint32 (buf : list byte) (off : Z) : completion Z :=
  if (0 <=? off)%Z && (off + 4 <=? byteLength buf)%Z then Normal (uint32_at buf off)
  else Throw "Offset is outside the bounds of the DataView".

(** The value of an IEEE-754 single, little-endian at [off]. Infinities and
    NaN are outside the number model and read as 0. *)
Definition float32_at (buf : list byte) (off : Z) : Q :=
  let bits := uint32_at buf off in
  let sign := if (bits / 2 ^ 31 =? 0)%Z then 1 else -1 in
  let e := ((bits / 2 ^ 23) mod 2 ^ 8)%Z in
  let m := (bits mod 2 ^ 23)%Z in
  if (e =? 0)%Z then sign * inject_Z m * Qpower 2 (-149)
  else if (e =? 255)%Z then 0
  else sign * inject_Z (2 ^ 23 + m) * Qpower 2 (e - 150).

Record Parsed := mkParsed { verts : list Q; count : Z }.

(** One triangle of [parseBinarySTL]: skip the normal, read three vertices,
    skip the attribute bytes. The state is the vertex array and [off]. *)
Definition read_vertex (buf : list byte) (t : Z) (st : list Q * Z) (v : Z) : list Q * Z :=
  let (vs, off) := st in
  let vs := put vs (t * 9 + v * 3) (float32_at buf off) in
  let vs := put vs (t * 9 + v * 3 + 1) (float32_at buf (off + 4)) in
  let vs := put vs (t * 9 + v * 3 + 2) (float32_at buf (off + 8)) in
  (vs, (off + 12)%Z).

Definition read_triangle (buf : list byte) (st : list Q * Z) (t : Z) : list Q * Z :=
  let (vs, off) := st in
  let off := (off + 12)%Z in
  let (vs, off) := fold_left (read_vertex buf t) (upto 3) (vs, off) in
  (vs, (off + 2)%Z).

(** [parseBinarySTL(buf)]. The length test makes every vertex read lie
    inside the buffer. *)
Definition parseBinarySTL (buf : list byte) : completion Parsed :=
  match getUint32 buf 80 with
  | Throw m => Throw m
  | Normal count =>
      if (byteLength buf <? 84 + count * 50)%Z then Throw "Truncated binary STL"
      else
        let verts := repeat 0 (Z.to_nat (count * 9)) in
        let (verts, _) := fold_left (read_triangle buf) (upto count) (verts, 84%Z) in
        Normal (mkParsed verts count)
  end.

(** The regular expression
    [/vertex\s+([\d.eE+\-]+)\s+([\d.eE+\-]+)\s+([\d.eE+\-]+)/gi] over the
    code units of the text. White space and the characters of the three
    groups are disjoint, so every greedy run is maximal and no backtracking
    changes a match. *)
Definition is_space (c : Z) : bool :=
  ((9 <=? c) && (c <=? 13) || (c =? 32) || (c =? 160) || (c =? 5760)
   || (8192 <=? c) && (c <=? 8202) || (c =? 8232) || (c =? 8233)
   || (c =? 8239) || (c =? 8287) || (c =? 12288) || (c =? 65279))%Z.

Definition is_num_char (c : Z) : bool :=
  ((48 <=? c) && (c <=? 57) || (c =? 46) || (c =? 101) || (c =? 69)
   || (c =? 43) || (c =? 45))%Z.

(** Case-insensitive comparison with a lower-case ASCII letter. *)
Definition eq_letter (lower c : Z) : bool := ((c =? lower) || (c =? lower - 32))%Z.

Fixpoint span (p : Z -> bool) (l : list Z) : list Z * list Z :=
  match l with
  | c :: tl => if p c then let (run, rest) := span p tl in (c :: run, rest) else ([], l)
  | [] => ([], [])
  end.

Fixpoint match_word (w l : list Z) : option (list Z) :=
  match w, l with
  | [], _ => Some l
  | a :: w', c :: l' => if eq_letter a c then match_word w' l' else None
  | _ :: _, [] => None
  end.

(** A non-empty run of white space followed by a non-empty group. *)
Definition space_group (l : list Z) : option (list Z * list Z) :=
  match span is_space l with
  | ([], _) => None
  | (_, rest) =>
      match span is_num_char rest with
      | ([], _) => None
      | (g, rest) => Some (g, rest)
      end
  end.

(** The match that starts at the head of [l], with the text after it. *)
Definition match_here (l : list Z) : option (list Z * list Z * list Z * list Z) :=
  match match_word [118; 101; 114; 116; 101; 120]%Z l with
  | None => None
  | Some l =>
      match space_group l with
      | None => None
      | Some (g1, l) =>
          match space_group l with
          | None => None
          | Some (g2, l) =>
              match space_group l with
              | None => None
              | Some (g3, l) => Some (g1, g2, g3, l)
              end
          end
      end
  end.

(** The loop [while ((m = re.exec(text)) !== null) arr.push(+m[1], +m[2], +m[3])]:
    the leftmost match from the current position, then on from its end.
    [fuel] bounds the positions tried; the length of the text is enough
    (lemma [exec_all_fuel]). *)
Fixpoint exec_all (H : Host) (fuel : nat) (l : list Z) : list Q :=
  match fuel with
  | O => []
  | S k =>
      match l with
      | [] => []
      | _ :: tl =>
          match match_here l with
          | Some (g1, g2, g3, rest) =>
              ToNumber H g1 :: ToNumber H g2 :: ToNumber H g3 :: exec_all H k rest
          | None => exec_all H k tl
          end
      end
  end.

(** [parseASCIISTL(buf)]. *)
Definition parseASCIISTL (H : Host) (buf : list byte) : completion Parsed :=
  let text := TextDecoder_decode H buf in
  let arr := exec_all H (List.length text) text in
  if (Z.of_nat (List.length arr) <? 9)%Z then Throw "No vertices in ASCII STL"
  else
    let count := (Z.of_nat (List.length arr) / 9)%Z in
    Normal (mkParsed (firstn (Z.to_nat (count * 9)) arr) count).

(** [parseSTL(buf)]: binary when the declared triangle count accounts for
    the byte length exactly; anything thrown while testing that is swallowed
    and the buffer is parsed as text. *)
Definition parseSTL (H : Host) (buf : list byte) : completion Parsed :=
  let attempt : completion (option Parsed) :=
    match getUint32 buf 80 with
    | Throw m => Throw m
    | Normal count =>
        if (0 <? count)%Z && (byteLength buf =? 84 + count * 50)%Z then
          match parseBinarySTL buf with
          | Normal p => Normal (Some p)
          | Throw m => Throw m
          end
        else Normal None
    end in
  match attempt with
  | Normal (Some p) => Normal p
  | Normal None | Throw _ => parseASCIISTL H buf
  end.

(** *** Geometry helpers *)

(** [triRayY(rx, rz, verts, base)]; [null] is [None]. *)
Definition triRayY (rx rz : Q) (verts : list Q) (base : Z) : option Q :=
  let ax := getQ verts base in
  let ay := getQ verts (base + 1) in
  let az := getQ verts (base + 2) in
  let bx := getQ verts (base + 3) in
  let by_ := getQ verts (base + 4) in
  let bz := getQ verts (base + 5) in
  let cx := getQ verts (base + 6) in
  let cy := getQ verts (base + 7) in
  let cz := getQ verts (base + 8) in
  let denom := (bz - cz) * (ax - cx) + (cx - bx) * (az - cz) in
  if ltb (Qabs denom) 1e-10 then None
  else
    let u := ((bz - cz) * (rx - cx) + (cx - bx) * (rz - cz)) / denom in
    let v := ((cz - az) * (rx - cx) + (ax - cx) * (rz - cz)) / denom in
    let w := 1 - u - v in
    if ltb u (-1e-6) || ltb v (-1e-6) || ltb w (-1e-6) then None
    else Some (u * ay + v * by_ + w * cy).

(** *** The object *)

Record Center := mkCenter { cx : Q; cy : Q; cz : Q; maxSpan : Q }.

(** [_onGeometryChange] is the renderer's callback and is left out. *)
Record t := mk {
  enabled : bool;
  fuzziness : Q;
  scale : Q;
  fuzzMask : list Q;
  _rawVerts : option (list Q);
  _rawCenter : option Center;
  _rawAutoS : Q;
  _worldVerts : option (list Q);
  _triCount : Z;
  _binMask : list Q;
  _blurTmp : list Q * list Q
}.

Definition constructor : t :=
  let n := Z.to_nat N3 in
  mk false 1.0 1.0 (repeat 1.0 n) None None 1.0 None 0%Z (repeat 0 n) (repeat 0 n, repeat 0 n).

(** What [loadSTL] writes to the console. *)
Inductive Console : Type :=
| console_error (prefix message : string)
| console_log_triangles (triCount : Z)
| console_time
| console_timeEnd.

(** [for (let i = 0; i < n; i += 3)]. *)
Definition by3 (n : Z) : list Z := map (fun k => (3 * k)%Z) (upto ((n + 2) / 3)).

(** [for (let g = lo; g <= hi; g++)]. *)
Definition from_to (lo hi : Z) : list Z := map (fun k => (lo + k)%Z) (upto (hi - lo + 1)).

Definition Qmin3 (a b c : Q) : Q := Qmin (Qmin a b) c.
Definition Qmax3 (a b c : Q) : Q := Qmax (Qmax a b) c.

(** [_bboxCenter(verts)]. *)
Definition bbox_step (verts : list Q) (acc : Q * Q * Q * Q * Q * Q) (i : Z)
    : Q * Q * Q * Q * Q * Q :=
  let '(minX, maxX, minY, maxY, minZ, maxZ) := acc in
  let x := getQ verts i in
  let y := getQ verts (i + 1) in
  let z := getQ verts (i + 2) in
  (if ltb x minX then x else minX, if gtb x maxX then x else maxX,
   if ltb y minY then y else minY, if gtb y maxY then y else maxY,
   if ltb z minZ then z else minZ, if gtb z maxZ then z else maxZ).

Definition _bboxCenter (verts : list Q) : Center :=
  let '(minX, maxX, minY, maxY, minZ, maxZ) :=
    fold_left (bbox_step verts) (by3 (Z.of_nat (List.length verts)))
      (1e9, -1e9, 1e9, -1e9, 1e9, -1e9) in
  mkCenter ((minX + maxX) / 2) ((minY + maxY) / 2) ((minZ + maxZ) / 2)
           (Qmax3 (maxX - minX) (maxY - minY) (maxZ - minZ)).

(** [_autoScaleFactor(center)]. *)
Definition _autoScaleFactor (center : Center) : Q :=
  let target := WORLD_RANGE * 2 * 0.70 in
  if gtb (maxSpan center) 0 then target / maxSpan center else 1.0.

(** [_applyTransform()], given the raw vertices and their centre. *)
Definition _applyTransform (raw : list Q) (c : Center) (autoS scale_ : Q)
    (world : option (list Q)) : list Q :=
  let s := autoS * scale_ in
  let n := Z.of_nat (List.length raw) in
  let world :=
    match world with
    | Some w => if (Z.of_nat (List.length w) =? n)%Z then w else repeat 0 (Z.to_nat n)
    | None => repeat 0 (Z.to_nat n)
    end in
  fold_left (fun w i =>
    let w := put w i ((getQ raw i - cx c) * s) in
    let w := put w (i + 1) ((getQ raw (i + 1) - cy c) * s) in
    put w (i + 2) ((getQ raw (i + 2) - cz c) * s)) (by3 n) world.

(** *** Column scan *)

(** The first loop of [_columnScan]: triangle [t] is listed in every column
    its XZ bounding box overlaps. *)
Definition cull_triangle (verts : list Q) (colTris : list (list Z)) (t : Z) : list (list Z) :=
  let b := (t * 9)%Z in
  let x0 := getQ verts b in
  let x1 := getQ verts (b + 3) in
  let x2 := getQ verts (b + 6) in
  let z0 := getQ verts (b + 2) in
  let z1 := getQ verts (b + 5) in
  let z2 := getQ verts (b + 8) in
  let xMin := Qmin3 x0 x1 x2 in
  let xMax := Qmax3 x0 x1 x2 in
  let zMin := Qmin3 z0 z1 z2 in
  let zMax := Qmax3 z0 z1 z2 in
  let gxLo := Z.max 0 (Qfloor ((xMin + WORLD_RANGE) / CELL_SIZE)) in
  let gxHi := Z.min (N - 1) (Qceiling ((xMax + WORLD_RANGE) / CELL_SIZE)) in
  let gzLo := Z.max 0 (Qfloor ((zMin + WORLD_RANGE) / CELL_SIZE)) in
  let gzHi := Z.min (N - 1) (Qceiling ((zMax + WORLD_RANGE) / CELL_SIZE)) in
  fold_left (fun colTris gx =>
    fold_left (fun colTris gz =>
      put colTris (gx + gz * N)%Z (get [] colTris (gx + gz * N)%Z ++ [t]))
      (from_to gzLo gzHi) colTris)
    (from_to gxLo gxHi) colTris.

(** [yHits.sort((a, b) => a - b)]: insertion sort, ascending. *)
Fixpoint insert_sorted (x : Q) (l : list Q) : list Q :=
  match l with
  | [] => [x]
  | y :: tl => if leb x y then x :: l else y :: insert_sorted x tl
  end.

Definition sort (l : list Q) : list Q := fold_right insert_sorted [] l.

(** Parity fill: the cells between the 1st and 2nd, 3rd and 4th, ...
    crossing of the column are inside. *)
Fixpoint parity_fill (gx gz : Z) (yHits : list Q) (mask : list Q) : list Q :=
  match yHits with
  | yLo :: yHi :: rest =>
      let half := inject_Z N / 2 - 0.5 in
      let gyLo := Z.max 0 (Qceiling (yLo / CELL_SIZE + half)) in
      let gyHi := Z.min (N - 1) (Qfloor (yHi / CELL_SIZE + half)) in
      let mask := fold_left (fun mask gy => put mask (gx + gy * N + gz * N2) 1.0)
                    (from_to gyLo gyHi) mask in
      parity_fill gx gz rest mask
  | _ => mask
  end.

Definition scan_column (verts : list Q) (colTris : list (list Z)) (gx gz : Z)
    (mask : list Q) : list Q :=
  let col := get [] colTris (gx + gz * N)%Z in
  match col with
  | [] => mask
  | _ =>
      let rx := (inject_Z gx - inject_Z N / 2 + 0.5) * CELL_SIZE in
      let rz := (inject_Z gz - inject_Z N / 2 + 0.5) * CELL_SIZE in
      let yHits := fold_left (fun yHits t =>
                      match triRayY rx rz verts (t * 9) with
                      | Some yh => yHits ++ [yh]
                      | None => yHits
                      end) col [] in
      if (Z.of_nat (List.length yHits) <? 2)%Z then mask
      else parity_fill gx gz (sort yHits) mask
  end.

(** [_columnScan()]: the new binary mask. *)
Definition _columnScan (verts : list Q) (nTri : Z) (binMask : list Q) : list Q :=
  let mask := map (fun _ => 0) binMask in
  let colTris := fold_left (cull_triangle verts) (upto nTri)
                   (repeat [] (Z.to_nat (N * N))) in
  fold_left (fun mask gx =>
    fold_left (fun mask gz => scan_column verts colTris gx gz mask) (upto N) mask)
    (upto N) mask.

(** *** Separable box blur *)

Inductive Axis : Type := axis_x | axis_y | axis_z.

(** [_fi(a, b, c, axis)]. *)
Definition _fi (a b c : Z) (axis : Axis) : Z :=
  match axis with
  | axis_x => (c + a * N + b * N2)%Z
  | axis_y => (a + c * N + b * N2)%Z
  | axis_z => (a + b * N + c * N2)%Z
  end.

(** [_boxPass(src, dst, axis)]: returns the new contents of [dst]. *)
Definition box_line (src : list Q) (axis : Axis) (a b : Z) (dst : list Q) : list Q :=
  let sum := getQ src (_fi a b 0 axis) * 2 + getQ src (_fi a b 1 axis) in
  let dst := put dst (_fi a b 0 axis) (sum / 3) in
  snd (fold_left (fun (st : Q * list Q) c =>
         let (sum, dst) := st in
         let sum := sum + getQ src (_fi a b (Z.min (c + 1) (N - 1)) axis) in
         let sum := sum - getQ src (_fi a b (Z.max (c - 2) 0) axis) in
         (sum, put dst (_fi a b c axis) (sum / 3)))
       (from_to 1 (N - 1)) (sum, dst)).

Definition _boxPass (src dst : list Q) (axis : Axis) : list Q :=
  fold_left (fun dst a =>
    fold_left (fun dst b => box_line src axis a b dst) (upto N) dst) (upto N) dst.

(** One round of [_blurBinary]: the passes x, y, z and the copy back. *)
Definition blur_round (tmp : list Q * list Q) (p : Z) : list Q * list Q :=
  let (t0, t1) := tmp in
  let t1 := _boxPass t0 t1 axis_x in
  let t0 := _boxPass t1 t0 axis_y in
  let t1 := _boxPass t0 t1 axis_z in
  (t1, t1).

(** [_blurBinary()]. *)
Definition _blurBinary (s : t) : t :=
  let numPasses := Z.max 0 (round (fuzziness s / CELL_SIZE)) in
  if (numPasses =? 0)%Z then
    mk (enabled s) (fuzziness s) (scale s) (_binMask s) (_rawVerts s) (_rawCenter s)
       (_rawAutoS s) (_worldVerts s) (_triCount s) (_binMask s) (_blurTmp s)
  else
    let (t0, t1) := fold_left blur_round (upto numPasses) (_binMask s, snd (_blurTmp s)) in
    mk (enabled s) (fuzziness s) (scale s) t0 (_rawVerts s) (_rawCenter s)
       (_rawAutoS s) (_worldVerts s) (_triCount s) (_binMask s) (t0, t1).

(** [_applyTransform(); _rebuildFull()], once [_rawVerts] is set. *)
Definition rebuild (s : t) (raw : list Q) (c : Center) : t :=
  let world := _applyTransform raw c (_rawAutoS s) (scale s) (_worldVerts s) in
  let bin := _columnScan world (_triCount s) (_binMask s) in
  _blurBinary
    (mk (enabled s) (fuzziness s) (scale s) (fuzzMask s) (_rawVerts s) (_rawCenter s)
        (_rawAutoS s) (Some world) (_triCount s) bin (_blurTmp s)).

(** [loadSTL(arrayBuffer)]: how the call ends, the object after it, and what
    it wrote to the console. A parse error is caught, logged with
    [console.error], and the call returns. *)
Definition loadSTL (H : Host) (s : t) (arrayBuffer : list byte)
    : completion (t * list Console) :=
  match parseSTL H arrayBuffer with
  | Throw message =>
      Normal (s, [console_error "[ShapeConstraint] Parse error:" message])
  | Normal parsed =>
      let raw := verts parsed in
      let c := _bboxCenter raw in
      let s := mk (enabled s) (fuzziness s) (scale s) (fuzzMask s) (Some raw) (Some c)
                  (_autoScaleFactor c) (_worldVerts s) (count parsed) (_binMask s)
                  (_blurTmp s) in
      let s := rebuild s raw c in
      let s := mk true (fuzziness s) (scale s) (fuzzMask s) (_rawVerts s) (_rawCenter s)
                  (_rawAutoS s) (_worldVerts s) (_triCount s) (_binMask s) (_blurTmp s) in
      Normal (s, [console_log_triangles (count parsed); console_time; console_timeEnd])
  end.

(** [setScale(v)]. *)
Definition setScale (s : t) (v : Q) : t :=
  let s := mk (enabled s) (fuzziness s) v (fuzzMask s) (_rawVerts s) (_rawCenter s)
              (_rawAutoS s) (_worldVerts s) (_triCount s) (_binMask s) (_blurTmp s) in
  match _rawVerts s, _rawCenter s with
  | Some raw, Some c => rebuild s raw c
  | _, _ => s
  end.

(** [setFuzziness(v)]. *)
Definition setFuzziness (s : t) (v : Q) : t :=
  let s := mk (enabled s) v (scale s) (fuzzMask s) (_rawVerts s) (_rawCenter s)
              (_rawAutoS s) (_worldVerts s) (_triCount s) (_binMask s) (_blurTmp s) in
  match _rawVerts s with
  | Some _ => _blurBinary s
  | None => s
  end.

End ShapeConstraint.

(** ** main.js: the fixed-timestep driver *)

Module Main.
Import JS.


(** The simulation objects and the loop variables of [main.js]. [rng] is
    the index of the next [Math.random] draw; [mode] and [fieldSpeed] are
    the two fields of [guiState] the loop reads. Camera, renderer and GUI
    are left out. *)
Record t := mk {
  field : QuantumField.t;
  particles : ParticleSystem.t;
  consciousness : Consciousness.t;
  rng : nat;
  mode : string;
  fieldSpeed : Q;
  lastTime : Q;
  accumDt : Q;
  frameCount : Z;
  simRunning : bool;
  consFrameAcc : Z
}.




End Main.

(** ** Specification-level definitions *)

(** The velocity-Verlet step in the words of the specification, on a
    periodic lattice of cells: accelerations from the current state,
    [x += v dt + 1/2 a dt^2], accelerations at the new state, then
    [v += 1/2 (a_old + a_new) dt]. It is compared with
    [QuantumField.update] below. *)
Module VerletSpec.

Record Cell := mkCell { h : Q; e : Q; p : Q; hv : Q; ev : Q; pv : Q }.

(** The state of the lattice: one cell per coordinate triple in [0, n). *)
Definition Lattice : Type := Z -> Z -> Z -> Cell.

(** The coefficients [c1 .. c8], [damping] and [vev] of the acceleration
    laws. *)
Record Coefficients := mkCoefficients {
  c1 : Q; c2 : Q; c3 : Q; c4 : Q; c5 : Q; c6 : Q; c7 : Q; c8 : Q;
  damping : Q; vev : Q
}.

Section Step.
Variable n : Z.
Variable k : Coefficients.

(** Periodic access: coordinates wrap modulo [n]. *)
Definition cell (S : Lattice) (x y z : Z) : Cell := S (x mod n)%Z (y mod n)%Z (z mod n)%Z.

(** [L[f] = (sum of the six neighbours of f) - 6 f]. *)
Definition L (f : Cell -> Q) (S : Lattice) (x y z : Z) : Q :=
  f (cell S (x + 1) y z) + f (cell S (x - 1) y z)
  + f (cell S x (y + 1) z) + f (cell S x (y - 1) z)
  + f (cell S x y (z + 1)) + f (cell S x y (z - 1))
  - 6 * f (cell S x y z).

Definition a_higgs (S : Lattice) (x y z : Z) : Q :=
  let c := cell S x y z in
  c1 k * L h S x y z - (h c - vev k) * (h c * h c - vev k * vev k) * c2 k - c3 k * (e c * e c).

Definition a_electron (S : Lattice) (x y z : Z) : Q :=
  let c := cell S x y z in
  c4 k * L e S x y z - c5 k * e c - c6 k * h c * e c.

Definition a_photon (S : Lattice) (x y z : Z) : Q :=
  let c := cell S x y z in
  c7 k * L p S x y z - damping k * pv c + c8 k * ev c.

(** Positions advanced, velocities not yet. *)
Definition advance (dt : Q) (S : Lattice) : Lattice := fun x y z =>
  let c := S x y z in
  mkCell (h c + hv c * dt + (1 # 2) * a_higgs S x y z * (dt * dt))
         (e c + ev c * dt + (1 # 2) * a_electron S x y z * (dt * dt))
         (p c + pv c * dt + (1 # 2) * a_photon S x y z * (dt * dt))
         (hv c) (ev c) (pv c).

Definition step (dt : Q) (S : Lattice) : Lattice := fun x y z =>
  let c := S x y z in
  let S1 := advance dt S in
  let c1 := S1 x y z in
  mkCell (h c1) (e c1) (p c1)
         (hv c + (1 # 2) * (a_higgs S x y z + a_higgs S1 x y z) * dt)
         (ev c + (1 # 2) * (a_electron S x y z + a_electron S1 x y z) * dt)
         (pv c + (1 # 2) * (a_photon S x y z + a_photon S1 x y z) * dt).
End Step.

(** The coefficients [QuantumField.js] uses. *)
Definition coefficients : Coefficients :=
  mkCoefficients 0.3 0.4 0.1 0.5 0.2 0.3 1 0.2 0.05 QuantumField.VEV.

(** The lattice a field state stores in its six flat arrays. *)
Definition lattice_of (s : QuantumField.t) : Lattice := fun x y z =>
  let i := (x + y * QuantumField.N + z * QuantumField.N2)%Z in
  mkCell (JS.getQ (QuantumField.higgs s) i) (JS.getQ (QuantumField.electron s) i)
         (JS.getQ (QuantumField.photon s) i) (JS.getQ (QuantumField.higgsVel s) i)
         (JS.getQ (QuantumField.electronVel s) i) (JS.getQ (QuantumField.photonVel s) i).

End VerletSpec.

(** ** Invariants of the field arrays *)

Module FieldInv.
Import JS QuantumField.

(** Every array of the field has [N3] cells. *)
Definition cells {A : Type} (l : list A) : Prop := Z.of_nat (List.length l) = N3.

Definition sized (s : t) : Prop :=
  cells (higgs s) /\ cells (electron s) /\ cells (photon s) /\
  cells (higgsVel s) /\ cells (electronVel s) /\ cells (photonVel s) /\
  cells (_higgsAcc s) /\ cells (_electronAcc s) /\ cells (_photonAcc s) /\
  cells (orchCoherence s) /\ cells (orchFlash s) /\ cells (phi s).


End FieldInv.

(** ** The invariant of the particle pool *)

Module PoolInv.
Import JS ParticleSystem.

(** The part of the pool the allocation and pairing logic rests on. *)
Record Core := mkCore {
  c_type : list Z;
  c_alpha : list Q;
  c_ent : list Z;
  c_pair : list Z;
  c_free : list Z;
  c_active : list Z
}.

Definition core (s : ParticleSystem.t) : Core :=
  mkCore (type s) (alpha s) (entangledWith s) (pairWith s) (_freeList s) (active s).

Definition slot (i : Z) : Prop := (0 <= i < MAX)%Z.
Definition slots {A : Type} (l : list A) : Prop := Z.of_nat (List.length l) = MAX.

(** A live slot's [pairWith], when not -1, names a live slot that names it
    back. *)
Definition pairing_symmetric (k : Core) : Prop :=
  forall i, In i (c_active k) -> getZ (c_pair k) i <> (-1)%Z ->
    In (getZ (c_pair k) i) (c_active k) /\ getZ (c_pair k) (getZ (c_pair k) i) = i.

(** A slot on the free list holds what [_free] leaves in it. *)
Definition released (k : Core) (i : Z) : Prop :=
  getZ (c_type k) i = TYPE_INACTIVE /\ getQ (c_alpha k) i = 0 /\
  getZ (c_ent k) i = (-1)%Z /\ getZ (c_pair k) i = (-1)%Z.

Record wf_core (k : Core) : Prop := mk_wf {
  wf_type_len : slots (c_type k);
  wf_alpha_len : slots (c_alpha k);
  wf_ent_len : slots (c_ent k);
  wf_pair_len : slots (c_pair k);
  wf_active_slot : forall i, In i (c_active k) -> slot i;
  wf_free_slot : forall i, In i (c_free k) -> slot i;
  wf_active_nodup : NoDup (c_active k);
  wf_free_nodup : NoDup (c_free k);
  wf_disjoint : forall i, In i (c_active k) -> ~ In i (c_free k);
  wf_released : forall i, In i (c_free k) -> released k i;
  wf_ent : forall i, In i (c_active k) -> getZ (c_ent k) i = getZ (c_pair k) i;
  wf_sym : pairing_symmetric k
}.

Definition wf (s : ParticleSystem.t) : Prop := wf_core (core s).

(** The pool states a program can reach through the constructor, the two
    assignments of main.js ([particles.field], [particles.injectionRate]),
    [spawnPair] and [update]. *)
Inductive reachable (H : Host) : ParticleSystem.t -> Prop :=
| reach_constructor : reachable H constructor
| reach_field (s : ParticleSystem.t) :
    reachable H s -> reachable H (set_field true s)
| reach_injectionRate (s : ParticleSystem.t) (v : Q) :
    reachable H s -> reachable H (set_injectionRate v s)
| reach_spawnPair (s s' : ParticleSystem.t) (fld : QuantumField.t) (typeA typeB : Z)
    (r r' : nat) :
    reachable H s -> spawnPair H fld typeA typeB (s, r) = Some (s', r') -> reachable H s'
| reach_update (s s' : ParticleSystem.t) (fld fld' : QuantumField.t) (dt : Q) (r r' : nat) :
    reachable H s -> update H dt (s, fld, r) = Some (s', fld', r') -> reachable H s'.

(** A slot that has left the set of live particles during an [update]: it
    is not active, or it was handed out again to an annihilation photon,
    which is unpaired. *)
Definition gone (k : Core) (x : Z) : Prop :=
  ~ In x (c_active k) \/ (getZ (c_type k) x = TYPE_PHOTON /\ getZ (c_pair k) x = (-1)%Z).

(** The point at which the second loop of [update] places the flash and
    the photons of an entry [[a, b, doFlash]]: [ax], [ay], [az]. *)
Definition midpoint (s : ParticleSystem.t) (a b : Z) : Q * Q * Q :=
  ((getQ (px s) a + (if negb (b =? -1)%Z then getQ (px s) b else getQ (px s) a)) * 0.5,
   (getQ (py s) a + (if negb (b =? -1)%Z then getQ (py s) b else getQ (py s) a)) * 0.5,
   (getQ (pz s) a + (if negb (b =? -1)%Z then getQ (pz s) b else getQ (pz s) a)) * 0.5).


End PoolInv.

(** ** Concrete inputs used to instantiate the theorems *)

Module Sample.
Import JS.

(** A host whose every draw is [1/2]. *)
Definition half_in_range (n : nat) :
    0 <= (fun _ : nat => 1 # 2) n /\ (fun _ : nat => 1 # 2) n < 1 :=
  conj (fun E : (0 * 2 ?= 1 * 1)%Z = Gt =>
          eq_ind Lt (fun c => match c with Lt => True | _ => False end) I Gt E)
       eq_refl.

Definition host : Host :=
  mkHost (fun _ => 1 # 2) half_in_range (fun _ => 0) (fun _ => 1) (fun _ => 0) (fun q => q)
         (355 # 113) (map (fun b => Z.of_N (Byte.to_N b))) (fun _ => 0).

(** The field at rest: the Higgs amplitude at its vacuum value, everything
    else 0, no heart attractor. *)
Definition vacuum : QuantumField.t :=
  let n := Z.to_nat QuantumField.N3 in
  QuantumField.mk (repeat QuantumField.VEV n) (repeat 0 n) (repeat 0 n)
    (repeat 0 n) (repeat 0 n) (repeat 0 n) (repeat 0 n) (repeat 0 n) (repeat 0%Z n)
    (repeat 0 n) (repeat 0 n) 0 [] [] (repeat 0 n) (repeat 0 n) (repeat 0 n).



(** A pool wired to the field, as [main.js] sets it up. *)
Definition wired : ParticleSystem.t := ParticleSystem.set_field true ParticleSystem.constructor.

(** [n] calls of [spawnPair(TYPE_ELECTRON, TYPE_POSITRON)] in a row. *)
Fixpoint spawn_many (n : nat) (st : ParticleSystem.t * nat) : ParticleSystem.t * nat :=
  match n with
  | O => st
  | S k =>
      match ParticleSystem.spawnPair host vacuum ParticleSystem.TYPE_ELECTRON
              ParticleSystem.TYPE_POSITRON st with
      | Some st' => spawn_many k st'
      | None => st
      end
  end.

(** The pool after one [spawnPair]: an electron in slot 0 and a positron in
    slot 1, paired and entangled with each other. *)
Definition paired : ParticleSystem.t := Eval vm_compute in fst (spawn_many 1 (wired, 0%nat)).





(** A binary STL cut off after its header: 80 header bytes and a triangle
    count of 1, with none of the 50 bytes of the triangle. *)
Definition truncated : list byte := repeat x00 80 ++ [x01; x00; x00; x00].

(** The driver's world when the page has just loaded: the field at rest, an
    empty pool wired to it, loop mode, nothing accumulated. *)
Definition world : Main.t :=
  Main.mk vacuum wired Consciousness.constructor 0%nat "loop"%string 1 0 0 0%Z true 0%Z.

End Sample.

(** * Part II: properties *)

(** ** Facts about the JavaScript primitives *)

Module JSFacts.
Import JS.

Lemma ltb_lt (x y : Q) : ltb x y = true <-> x < y.
Proof.
  unfold ltb. rewrite negb_true_iff. split; intro Hxy.
  - apply Qnot_le_lt. intro Hle. apply Qle_bool_iff in Hle. congruence.
  - destruct (Qle_bool y x) eqn:E; [|reflexivity].
    apply Qle_bool_iff in E. exfalso. apply (Qlt_not_le _ _ Hxy E).
Qed.

Lemma ltb_ge (x y : Q) : ltb x y = false <-> y <= x.
Proof.
  unfold ltb. rewrite negb_false_iff. apply Qle_bool_iff.
Qed.

Lemma leb_le (x y : Q) : leb x y = true <-> x <= y.
Proof. apply Qle_bool_iff. Qed.


Lemma geb_lt (x y : Q) : geb x y = false <-> x < y.
Proof.
  unfold geb, leb. split; intro Hxy.
  - apply Qnot_le_lt. intro Hle. apply Qle_bool_iff in Hle. congruence.
  - destruct (Qle_bool y x) eqn:E; [|reflexivity].
    apply Qle_bool_iff in E. exfalso. apply (Qlt_not_le _ _ Hxy E).
Qed.

Lemma gtb_gt (x y : Q) : gtb x y = true <-> y < x.
Proof. apply ltb_lt. Qed.

(** The indices of a counting loop. *)
Lemma in_upto (n i : Z) : In i (upto n) <-> (0 <= i < n)%Z.
Proof.
  unfold upto. rewrite in_map_iff. split.
  - intros [k [<- Hk]]. apply in_seq in Hk. lia.
  - intros Hi. exists (Z.to_nat i). split; [lia|]. apply in_seq. lia.
Qed.

Lemma NoDup_upto (n : Z) : NoDup (upto n).
Proof.
  unfold upto. apply Injective_map_NoDup.
  - intros a b Hab. lia.
  - apply seq_NoDup.
Qed.

Lemma length_upto (n : Z) : List.length (upto n) = Z.to_nat n.
Proof. unfold upto. now rewrite length_map, length_seq. Qed.

(** Reads and writes of typed arrays. *)
Section Arrays.
Context {A : Type} (d : A).

Lemma length_upd (l : list A) (n : nat) (v : A) : List.length (upd l n v) = List.length l.
Proof.
  revert n. induction l as [|h t IH]; intros [|n]; simpl; auto.
Qed.

Lemma length_put (l : list A) (i : Z) (v : A) : List.length (put l i v) = List.length l.
Proof. unfold put. destruct (i <? 0)%Z; auto using length_upd. Qed.

Lemma nth_upd_same (l : list A) (n : nat) (v : A) :
  (n < List.length l)%nat -> nth n (upd l n v) d = v.
Proof.
  revert n. induction l as [|h t IH]; intros [|n] Hn; simpl in *; try lia; auto.
  apply IH. lia.
Qed.

Lemma nth_upd_other (l : list A) (n m : nat) (v : A) :
  n <> m -> nth m (upd l n v) d = nth m l d.
Proof.
  revert n m. induction l as [|h t IH]; intros [|n] [|m] Hnm; simpl; auto; try congruence.
Qed.


Lemma upd_nth (l : list A) (n : nat) : upd l n (nth n l d) = l.
Proof.
  revert n. induction l as [|h t IH]; intros [|n]; simpl; auto. now rewrite IH.
Qed.

Lemma get_put_same (l : list A) (i : Z) (v : A) :
  (0 <= i < Z.of_nat (List.length l))%Z -> get d (put l i v) i = v.
Proof.
  intros Hi. unfold get, put.
  destruct (i <? 0)%Z eqn:E; [lia|]. apply nth_upd_same. lia.
Qed.

Lemma get_put_other (l : list A) (i j : Z) (v : A) :
  i <> j -> get d (put l i v) j = get d l j.
Proof.
  intros Hij. unfold get, put.
  destruct (j <? 0)%Z eqn:Ej; [reflexivity|].
  destruct (i <? 0)%Z eqn:Ei; [reflexivity|].
  apply nth_upd_other. lia.
Qed.

(** Writing back what is there changes nothing, inside the array or out. *)
Lemma put_get (l : list A) (i : Z) (v : A) : get d l i = v -> put l i v = l.
Proof.
  unfold get, put. destruct (i <? 0)%Z; [reflexivity|].
  intros <-. apply upd_nth.
Qed.

Lemma get_outside (l : list A) (i : Z) :
  (Z.of_nat (List.length l) <= i)%Z -> get d l i = d.
Proof.
  intros Hi. unfold get. destruct (i <? 0)%Z; [reflexivity|].
  apply nth_overflow. lia.
Qed.


Lemma get_repeat (v : A) (n : nat) (i : Z) :
  (0 <= i < Z.of_nat n)%Z -> get d (repeat v n) i = v.
Proof.
  intros Hi. unfold get. destruct (i <? 0)%Z eqn:E; [lia|].
  apply nth_repeat_lt. lia.
Qed.
End Arrays.

(** The [Set] operations. *)
Lemma Set_has_In (s : list Z) (x : Z) : Set_has s x = true <-> In x s.
Proof.
  unfold Set_has. rewrite existsb_exists. split.
  - intros [y [Hy E]]. apply Z.eqb_eq in E. now subst.
  - intros Hx. exists x. split; [assumption|apply Z.eqb_refl].
Qed.

Lemma Set_has_not_In (s : list Z) (x : Z) : Set_has s x = false <-> ~ In x s.
Proof.
  rewrite <- Set_has_In. destruct (Set_has s x); split; congruence.
Qed.

Lemma In_Set_add (s : list Z) (x y : Z) : In y (Set_add s x) <-> y = x \/ In y s.
Proof.
  unfold Set_add. destruct (Set_has s x) eqn:E.
  - apply Set_has_In in E. split; [auto|]. intros [->|]; assumption.
  - rewrite in_app_iff. simpl. intuition.
Qed.

Lemma In_Set_delete (s : list Z) (x y : Z) : In y (Set_delete s x) <-> In y s /\ y <> x.
Proof.
  unfold Set_delete. rewrite filter_In, negb_true_iff, Z.eqb_neq. intuition.
Qed.

Lemma NoDup_Set_add (s : list Z) (x : Z) : NoDup s -> NoDup (Set_add s x).
Proof.
  intros Hs. unfold Set_add. destruct (Set_has s x) eqn:E; [assumption|].
  apply Set_has_not_In in E.
  apply NoDup_app; [assumption|repeat constructor; auto|].
  intros y Hy [<-|[]]. contradiction.
Qed.

Lemma NoDup_Set_delete (s : list Z) (x : Z) : NoDup s -> NoDup (Set_delete s x).
Proof. apply NoDup_filter. Qed.

(** Adding a fresh element and deleting it again restores the set. *)
Lemma Set_delete_add (s : list Z) (x : Z) :
  ~ In x s -> Set_delete (Set_add s x) x = s.
Proof.
  intros Hx. unfold Set_add.
  destruct (Set_has s x) eqn:E; [apply Set_has_In in E; contradiction|].
  unfold Set_delete. rewrite filter_app. simpl. rewrite Z.eqb_refl. simpl.
  rewrite app_nil_r.
  clear E. induction s as [|y s IH]; simpl; [reflexivity|].
  destruct (Z.eqb x y) eqn:Exy.
  - apply Z.eqb_eq in Exy. subst. exfalso. apply Hx. now left.
  - simpl. f_equal. apply IH. intro Hin. apply Hx. now right.
Qed.

(** Stores of small indices into integer arrays are exact. *)
Lemma ToInt16_small (n : Z) : (- 2 ^ 15 <= n < 2 ^ 15)%Z -> ToInt16 n = n.
Proof.
  intros Hn. unfold ToInt16. rewrite Z.mod_small; lia.
Qed.


Lemma some_eq {A : Type} (a b : A) : Some a = Some b -> a = b.
Proof. intros E. congruence. Qed.

Lemma pair_eq {A B : Type} (a a' : A) (b b' : B) : (a, b) = (a', b') -> a = a' /\ b = b'.
Proof. intros E. inversion E. auto. Qed.

Lemma triple_eq {A B C : Type} (a a' : A) (b b' : B) (c c' : C) :
  (a, b, c) = (a', b', c') -> a = a' /\ b = b' /\ c = c'.
Proof. intros E. inversion E. auto. Qed.

Lemma fold_left_app_one {S B : Type} (f : S -> B -> S) (l : list B) (x : B) (s : S) :
  fold_left f (l ++ [x]) s = f (fold_left f l s) x.
Proof. now rewrite fold_left_app. Qed.

(** A loop whose body, at the cell [c], rewrites what the state holds under
    the key of [c] from the value there and from a part of the state that no
    iteration changes, and leaves every other key alone: when no key is
    visited twice, the loop applies the rewrite once at every visited key. *)
Section CellLoop.
Context {S C E V : Type}.
Variables (key : C -> Z) (env : S -> E) (view : S -> Z -> V).
Variables (ok : S -> Prop) (valid : C -> Prop).
Variables (F : E -> V -> C -> V) (body : S -> C -> S).

Hypothesis body_local : forall s c, ok s -> valid c ->
  ok (body s c) /\ env (body s c) = env s /\
  view (body s c) (key c) = F (env s) (view s (key c)) c /\
  (forall j, j <> key c -> view (body s c) j = view s j).

Lemma cell_loop (l : list C) (s : S) :
  ok s -> Forall valid l -> NoDup (map key l) ->
  ok (fold_left body l s) /\ env (fold_left body l s) = env s /\
  (forall c, In c l -> view (fold_left body l s) (key c) = F (env s) (view s (key c)) c) /\
  (forall j, ~ In j (map key l) -> view (fold_left body l s) j = view s j).
Proof.
  revert s. induction l as [|c0 l IH]; intros s Hok Hval Hnd; simpl.
  - repeat split; auto. intros c [].
  - inversion Hval as [|? ? Hc0 Hl]; subst. inversion Hnd as [|? ? Hnotin Hnd']; subst.
    destruct (body_local s c0 Hok Hc0) as (Hok1 & Henv1 & Hview1 & Hother1).
    destruct (IH (body s c0) Hok1 Hl Hnd') as (Hok' & Henv' & Hin' & Hout').
    split; [assumption|]. split; [congruence|]. split.
    + intros c [<-|Hc].
      * rewrite Hout' by assumption. assumption.
      * rewrite Hin' by assumption. rewrite Henv1. f_equal.
        apply Hother1. intro Ek. apply Hnotin. rewrite <- Ek. now apply in_map.
    + intros j Hj. rewrite Hout' by tauto. apply Hother1. intro Ek. apply Hj. now left.
Qed.
End CellLoop.

End JSFacts.

(** ** QuantumField: lattice indexing and the loops of [update] *)

Module FieldFacts.
Import JS JSFacts QuantumField FieldInv.

(** The cells visited by the nested [x], [y], [z] loops, in order. *)
Definition cube : list (Z * Z * Z) :=
  flat_map (fun x => flat_map (fun y => map (fun z => (x, y, z)) (upto N)) (upto N)) (upto N).

Definition idx3 (c : Z * Z * Z) : Z := let '(x, y, z) := c in idx x y z.

Definition in_lattice (c : Z * Z * Z) : Prop :=
  let '(x, y, z) := c in (0 <= x < N /\ 0 <= y < N /\ 0 <= z < N)%Z.

Lemma idx_mod (x y z : Z) : idx x y z = (x mod N + (y mod N) * N + (z mod N) * N2)%Z.
Proof.
  unfold idx, N2, N. cbv zeta.
  assert (W : forall a, Z.rem (Z.rem a 28 + 28) 28 = (a mod 28)%Z).
  { intros a. Z.to_euclidean_division_equations. lia. }
  now rewrite !W.
Qed.

Lemma idx_in_lattice (x y z : Z) :
  in_lattice (x, y, z) -> idx x y z = (x + y * N + z * N2)%Z.
Proof.
  intros (Hx & Hy & Hz). rewrite idx_mod. now rewrite !Z.mod_small.
Qed.

Lemma idx_range (x y z : Z) : (0 <= idx x y z < N3)%Z.
Proof.
  rewrite idx_mod. unfold N3, N2, N.
  pose proof (Z.mod_pos_bound x 28). pose proof (Z.mod_pos_bound y 28).
  pose proof (Z.mod_pos_bound z 28). lia.
Qed.

Lemma in_cube (c : Z * Z * Z) : In c cube <-> in_lattice c.
Proof.
  destruct c as [[x y] z]. unfold cube, in_lattice. rewrite in_flat_map. split.
  - intros (x' & Hx & Hin). apply in_flat_map in Hin. destruct Hin as (y' & Hy & Hin).
    apply in_map_iff in Hin. destruct Hin as (z' & E & Hz). inversion E; subst.
    apply in_upto in Hx, Hy, Hz. auto.
  - intros (Hx & Hy & Hz). exists x. split; [now apply in_upto|].
    apply in_flat_map. exists y. split; [now apply in_upto|].
    apply in_map_iff. exists z. split; [reflexivity|now apply in_upto].
Qed.

Lemma length_cube : Z.of_nat (List.length cube) = N3.
Proof. vm_compute. reflexivity. Qed.

(** The nested loops visit every cell index exactly once. *)
Lemma NoDup_cube_idx : NoDup (map idx3 cube).
Proof.
  apply (NoDup_incl_NoDup (l := upto N3)).
  - apply NoDup_upto.
  - apply Nat2Z.inj_le. rewrite length_map, length_cube, length_upto.
    rewrite Z2Nat.id; [apply Z.le_refl|discriminate].
  - intros i Hi. apply in_upto in Hi. apply in_map_iff.
    exists (i mod N, (i / N) mod N, i / N2)%Z. split.
    + unfold idx3. rewrite idx_mod. unfold N3, N2, N in *.
      Z.to_euclidean_division_equations. lia.
    + apply in_cube. unfold in_lattice, N3, N2, N in *.
      Z.to_euclidean_division_equations. lia.
Qed.

Lemma fold_left_ext {S B : Type} (f g : S -> B -> S) (l : list B) (s : S) :
  (forall s b, f s b = g s b) -> fold_left f l s = fold_left g l s.
Proof.
  intros E. revert s. induction l as [|b l IH]; intros s; simpl; [reflexivity|].
  now rewrite E, IH.
Qed.

Lemma fold_left_flat_map {S B C : Type} (f : S -> C -> S) (g : B -> list C)
    (l : list B) (s : S) :
  fold_left f (flat_map g l) s = fold_left (fun s b => fold_left f (g b) s) l s.
Proof.
  revert s. induction l as [|b l IH]; intros s; simpl; [reflexivity|].
  now rewrite fold_left_app, IH.
Qed.

Lemma fold_left_map' {S B C : Type} (f : S -> C -> S) (g : B -> C) (l : list B) (s : S) :
  fold_left f (map g l) s = fold_left (fun s b => f s (g b)) l s.
Proof.
  revert s. induction l as [|b l IH]; intros s; simpl; [reflexivity|]. now rewrite IH.
Qed.

(** The nested loops as one loop over [cube]. *)
Lemma for_xyz_cube {S : Type} (body : Z -> Z -> Z -> S -> S) (s : S) :
  for_xyz body s = fold_left (fun s c => let '(x, y, z) := c in body x y z s) cube s.
Proof.
  unfold for_xyz, cube. rewrite fold_left_flat_map.
  apply fold_left_ext. intros s' x.
  rewrite fold_left_flat_map. apply fold_left_ext. intros s'' y.
  now rewrite fold_left_map'.
Qed.

(** *** The loops of [update], cell by cell *)

Definition lattice_index (i : Z) : Prop := (0 <= i < N3)%Z.

Lemma idx3_index (c : Z * Z * Z) : lattice_index (idx3 c).
Proof. destruct c as [[x y] z]. apply idx_range. Qed.

Lemma cells_put {A : Type} (l : list A) (i : Z) (v : A) : cells l -> cells (put l i v).
Proof. unfold cells. now rewrite length_put. Qed.

Lemma get_put_cell (l : list Q) (i : Z) (v : Q) :
  cells l -> lattice_index i -> getQ (put l i v) i = v.
Proof.
  intros Hl Hi. apply get_put_same. unfold cells in Hl. unfold lattice_index in Hi. lia.
Qed.

Ltac sized_tac :=
  match goal with
  | H : sized _ |- sized _ =>
      unfold sized in *; cbn [higgs electron photon higgsVel electronVel photonVel
        _higgsAcc _electronAcc _photonAcc orchCoherence orchFlash phi
        set_higgs set_electron set_photon set_higgsVel set_electronVel set_photonVel
        set_higgsAcc set_electronAcc set_photonAcc set_orchCoherence set_orchFlash set_phi];
      intuition (auto using cells_put)
  end.

(** Loop 1 writes the three acceleration buffers. *)
Definition acc_env (s : t) : t := set_higgsAcc [] (set_electronAcc [] (set_photonAcc [] s)).
Definition acc_view (s : t) (j : Z) : Q * Q * Q :=
  (getQ (_higgsAcc s) j, getQ (_electronAcc s) j, getQ (_photonAcc s) j).
Definition acc_at (s : t) (c : Z * Z * Z) : Q * Q * Q :=
  let '(x, y, z) := c in (acc_higgs s x y z, acc_electron s x y z, acc_photon s x y z).
Definition acc_body (s : t) (c : Z * Z * Z) : t :=
  let '(x, y, z) := c in update_acc_cell x y z s.

Lemma acc_body_local (s : t) (c : Z * Z * Z) :
  sized s -> in_lattice c ->
  sized (acc_body s c) /\ acc_env (acc_body s c) = acc_env s /\
  acc_view (acc_body s c) (idx3 c) = (fun e (_ : Q * Q * Q) c => acc_at e c) (acc_env s) (acc_view s (idx3 c)) c /\
  (forall j, j <> idx3 c -> acc_view (acc_body s c) j = acc_view s j).
Proof.
  intros Hs Hc. pose proof (idx3_index c) as Hi. destruct c as [[x y] z].
  unfold acc_body, update_acc_cell, acc_view, acc_at. cbv zeta.
  split; [sized_tac|]. split; [reflexivity|]. split.
  - cbn [_higgsAcc _electronAcc _photonAcc set_higgsAcc set_electronAcc set_photonAcc].
    unfold sized in Hs. simpl in Hi.
    rewrite !get_put_cell by tauto. reflexivity.
  - intros j Hj.
    cbn [_higgsAcc _electronAcc _photonAcc set_higgsAcc set_electronAcc set_photonAcc].
    simpl in Hj. unfold getQ. now rewrite !get_put_other by congruence.
Qed.

Lemma acc_loop (s : t) :
  sized s ->
  let s1 := for_xyz update_acc_cell s in
  sized s1 /\ acc_env s1 = acc_env s /\
  forall c, in_lattice c -> acc_view s1 (idx3 c) = acc_at s c.
Proof.
  intros Hs s1. subst s1. rewrite for_xyz_cube.
  change (fun (s0 : t) (c : Z * Z * Z) => let '(x, y, z) := c in update_acc_cell x y z s0)
    with acc_body.
  destruct (cell_loop idx3 acc_env acc_view sized in_lattice _ acc_body acc_body_local
              cube s Hs) as (H1 & H2 & H3 & _).
  - apply Forall_forall. intros c. apply in_cube.
  - apply NoDup_cube_idx.
  - split; [assumption|]. split; [assumption|].
    intros c Hc. rewrite H3 by now apply in_cube. now destruct c as [[x y] z].
Qed.

(** Loop 2 advances the three amplitudes. *)
Definition amp_env (s : t) : t := set_higgs [] (set_electron [] (set_photon [] s)).
Definition amp_view (s : t) (j : Z) : Q * Q * Q :=
  (getQ (higgs s) j, getQ (electron s) j, getQ (photon s) j).
Definition pos_F (dt dt2half : Q) (e : t) (v : Q * Q * Q) (i : Z) : Q * Q * Q :=
  let '(h, el, p) := v in
  (h + (getQ (higgsVel e) i * dt + getQ (_higgsAcc e) i * dt2half),
   el + (getQ (electronVel e) i * dt + getQ (_electronAcc e) i * dt2half),
   p + (getQ (photonVel e) i * dt + getQ (_photonAcc e) i * dt2half)).

Ltac amp_cbn :=
  cbn [higgs electron photon set_higgs set_electron set_photon
       higgsVel electronVel photonVel _higgsAcc _electronAcc _photonAcc].

Lemma pos_body_local (dt dt2half : Q) (s : t) (i : Z) :
  sized s -> lattice_index i ->
  sized (update_pos_cell dt dt2half s i) /\
  amp_env (update_pos_cell dt dt2half s i) = amp_env s /\
  amp_view (update_pos_cell dt dt2half s i) (id i) = pos_F dt dt2half (amp_env s) (amp_view s (id i)) i /\
  (forall j, j <> id i -> amp_view (update_pos_cell dt dt2half s i) j = amp_view s j).
Proof.
  intros Hs Hi. unfold update_pos_cell, amp_view, pos_F, id. cbv zeta.
  split; [sized_tac|]. split; [reflexivity|]. split.
  - amp_cbn. unfold sized in Hs. rewrite !get_put_cell by tauto. reflexivity.
  - intros j Hj. amp_cbn. unfold getQ. now rewrite !get_put_other by congruence.
Qed.

Lemma pos_loop (dt dt2half : Q) (s : t) :
  sized s ->
  let s2 := fold_left (update_pos_cell dt dt2half) (upto N3) s in
  sized s2 /\ amp_env s2 = amp_env s /\
  forall i, lattice_index i -> amp_view s2 i = pos_F dt dt2half s (amp_view s i) i.
Proof.
  intros Hs s2. subst s2.
  destruct (cell_loop id amp_env amp_view sized lattice_index _ _
              (pos_body_local dt dt2half) (upto N3) s Hs) as (H1 & H2 & H3 & _).
  - apply Forall_forall. intros i. apply in_upto.
  - rewrite map_id. apply NoDup_upto.
  - split; [assumption|]. split; [assumption|].
    intros i Hi. apply (H3 i). now apply in_upto.
Qed.

(** Loop 3 advances the three velocities; the photon's new acceleration
    reads the two velocities of the cell before they are written. *)
Definition vel_env (s : t) : t := set_higgsVel [] (set_electronVel [] (set_photonVel [] s)).
Definition vel_view (s : t) (j : Z) : Q * Q * Q :=
  (getQ (higgsVel s) j, getQ (electronVel s) j, getQ (photonVel s) j).
Definition vel_F (dthalf : Q) (e : t) (v : Q * Q * Q) (c : Z * Z * Z) : Q * Q * Q :=
  let '(x, y, z) := c in
  let '(hv, ev, pv) := v in
  let i := idx x y z in
  (hv + (getQ (_higgsAcc e) i + acc_higgs e x y z) * dthalf,
   ev + (getQ (_electronAcc e) i + acc_electron e x y z) * dthalf,
   pv + (getQ (_photonAcc e) i
         + (1.0 * _laplacian (photon e) x y z - 0.05 * pv + 0.2 * ev)) * dthalf).
Definition vel_body (dthalf : Q) (s : t) (c : Z * Z * Z) : t :=
  let '(x, y, z) := c in update_vel_cell dthalf x y z s.

Ltac vel_cbn :=
  cbn [higgsVel electronVel photonVel set_higgsVel set_electronVel set_photonVel
       higgs electron photon _higgsAcc _electronAcc _photonAcc].

Lemma vel_body_local (dthalf : Q) (s : t) (c : Z * Z * Z) :
  sized s -> in_lattice c ->
  sized (vel_body dthalf s c) /\ vel_env (vel_body dthalf s c) = vel_env s /\
  vel_view (vel_body dthalf s c) (idx3 c) = vel_F dthalf (vel_env s) (vel_view s (idx3 c)) c /\
  (forall j, j <> idx3 c -> vel_view (vel_body dthalf s c) j = vel_view s j).
Proof.
  intros Hs Hc. pose proof (idx3_index c) as Hi. destruct c as [[x y] z].
  unfold vel_body, update_vel_cell, vel_view, vel_F. cbv zeta.
  split; [sized_tac|]. split; [reflexivity|]. split.
  - vel_cbn. unfold sized in Hs. simpl in Hi.
    rewrite !get_put_cell by tauto. reflexivity.
  - intros j Hj. vel_cbn. simpl in Hj. unfold getQ. now rewrite !get_put_other by congruence.
Qed.

Lemma vel_loop (dthalf : Q) (s : t) :
  sized s ->
  let s3 := for_xyz (update_vel_cell dthalf) s in
  sized s3 /\ vel_env s3 = vel_env s /\
  forall c, in_lattice c -> vel_view s3 (idx3 c) = vel_F dthalf s (vel_view s (idx3 c)) c.
Proof.
  intros Hs s3. subst s3. rewrite for_xyz_cube.
  change (fun (s0 : t) (c : Z * Z * Z) => let '(x, y, z) := c in update_vel_cell dthalf x y z s0)
    with (vel_body dthalf).
  destruct (cell_loop idx3 vel_env vel_view sized in_lattice _ _ (vel_body_local dthalf)
              cube s Hs) as (H1 & H2 & H3 & _).
  - apply Forall_forall. intros c. apply in_cube.
  - apply NoDup_cube_idx.
  - split; [assumption|]. split; [assumption|].
    intros c Hc. rewrite H3 by now apply in_cube. now destruct c as [[x y] z].
Qed.

(** The last loop clamps the three amplitudes. *)
Definition clamp5 (v : Q) : Q := Qmax (-5) (Qmin 5 v).

Definition clamp_F (e : t) (v : Q * Q * Q) (i : Z) : Q * Q * Q :=
  let '(h, el, p) := v in (clamp5 h, clamp5 el, clamp5 p).

Lemma get_put_clamp (l : list Q) (i : Z) :
  getQ (put l i (clamp5 (getQ l i))) i = clamp5 (getQ l i).
Proof.
  destruct (Z.ltb_spec i 0) as [Hneg|Hpos].
  - unfold getQ, get. apply Z.ltb_lt in Hneg. rewrite Hneg. reflexivity.
  - destruct (Z.ltb_spec i (Z.of_nat (List.length l))) as [Hin|Hout].
    + apply get_put_same. lia.
    + unfold getQ. rewrite (get_outside _ (put l i _)) by (rewrite length_put; lia).
      rewrite get_outside by lia. reflexivity.
Qed.

Lemma clamp_body_local (s : t) (i : Z) :
  True -> lattice_index i ->
  True /\ amp_env (clamp_cell s i) = amp_env s /\
  amp_view (clamp_cell s i) (id i) = clamp_F (amp_env s) (amp_view s (id i)) i /\
  (forall j, j <> id i -> amp_view (clamp_cell s i) j = amp_view s j).
Proof.
  intros _ Hi. unfold clamp_cell, amp_view, clamp_F, id. cbv zeta.
  split; [exact I|]. split; [reflexivity|]. split.
  - amp_cbn. fold (clamp5 (getQ (higgs s) i)). fold (clamp5 (getQ (electron s) i)).
    fold (clamp5 (getQ (photon s) i)). now rewrite !get_put_clamp.
  - intros j Hj. amp_cbn. unfold getQ. now rewrite !get_put_other by congruence.
Qed.

(** The clamp loop needs no assumption on the state. *)
Lemma clamp_loop (s : t) :
  let s5 := fold_left clamp_cell (upto N3) s in
  amp_env s5 = amp_env s /\
  forall i, lattice_index i -> amp_view s5 i = clamp_F s (amp_view s i) i.
Proof.
  intros s5. subst s5.
  destruct (cell_loop id amp_env amp_view (fun _ => True) lattice_index _ _
              clamp_body_local (upto N3) s I) as (_ & H2 & H3 & _).
  - apply Forall_forall. intros i. apply in_upto.
  - rewrite map_id. apply NoDup_upto.
  - split; [assumption|].
    intros i Hi. apply (H3 i). now apply in_upto.
Qed.


(** What does not change when only the amplitudes do. *)
Lemma amp_env_frame (a b : t) :
  amp_env a = amp_env b ->
  higgsVel a = higgsVel b /\ electronVel a = electronVel b /\ photonVel a = photonVel b /\
  heartStrength a = heartStrength b /\ orchCoherence a = orchCoherence b /\
  orchFlash a = orchFlash b /\ phi a = phi b.
Proof.
  intros E. repeat split;
    [apply (f_equal higgsVel) in E|apply (f_equal electronVel) in E
    |apply (f_equal photonVel) in E|apply (f_equal heartStrength) in E
    |apply (f_equal orchCoherence) in E|apply (f_equal orchFlash) in E
    |apply (f_equal phi) in E]; exact E.
Qed.

(** The heart attractor writes velocities only, and nothing at all when
    [heartStrength] is not positive. *)
Lemma fold_left_inv {S B : Type} (Inv : S -> Prop) (f : S -> B -> S) (l : list B) (s : S) :
  Inv s -> (forall s b, Inv s -> Inv (f s b)) -> Inv (fold_left f l s).
Proof.
  intros Hs Hstep. revert s Hs. induction l as [|b l IH]; intros s Hs; simpl; auto.
Qed.

Definition heart_frame (s0 : t) (st : t * nat) : Prop :=
  amp_view (fst st) = amp_view s0 /\ higgsVel (fst st) = higgsVel s0 /\
  heartStrength (fst st) = heartStrength s0.

Lemma heart_attractor_frame (H : Host) (dt : Q) (s : t) (r : nat) :
  heart_frame s (heart_attractor H dt (s, r)).
Proof.
  unfold heart_attractor.
  destruct (gtb (heartStrength s) 0); [|repeat split].
  apply fold_left_inv; [apply fold_left_inv; [repeat split|]|].
  - intros [s1 r1] i Hinv. unfold heart_surface_cell.
    destruct (gtb (random H r1) (heartStrength s)); exact Hinv.
  - intros [s1 r1] i Hinv. unfold heart_interior_cell.
    destruct (gtb (random H r1) (heartStrength s * 0.35)); exact Hinv.
Qed.

Lemma heart_attractor_off (H : Host) (dt : Q) (s : t) (r : nat) :
  heartStrength s <= 0 -> heart_attractor H dt (s, r) = (s, r).
Proof.
  intros Hs. unfold heart_attractor.
  destruct (gtb (heartStrength s) 0) eqn:E; [|reflexivity].
  apply gtb_gt in E. exfalso. apply (Qlt_not_le _ _ E Hs).
Qed.

(** The three loops of [verlet] chained, for states related as the loop
    lemmas say. *)
Lemma verlet_chain (dt : Q) (s s1 s2 s3 : t) (x y z : Z) :
  let i := idx x y z in
  sized s -> lattice_index i ->
  acc_env s1 = acc_env s -> acc_view s1 i = acc_at s (x, y, z) ->
  amp_env s2 = amp_env s1 ->
  amp_view s2 i = pos_F dt (0.5 * dt * dt) s1 (amp_view s1 i) i ->
  vel_env s3 = vel_env s2 ->
  vel_view s3 i = vel_F (0.5 * dt) s2 (vel_view s2 i) (x, y, z) ->
  amp_view s3 i =
    (getQ (higgs s) i + (getQ (higgsVel s) i * dt + acc_higgs s x y z * (0.5 * dt * dt)),
     getQ (electron s) i + (getQ (electronVel s) i * dt + acc_electron s x y z * (0.5 * dt * dt)),
     getQ (photon s) i + (getQ (photonVel s) i * dt + acc_photon s x y z * (0.5 * dt * dt))) /\
  vel_view s3 i =
    (getQ (higgsVel s) i + (acc_higgs s x y z + acc_higgs s3 x y z) * (0.5 * dt),
     getQ (electronVel s) i + (acc_electron s x y z + acc_electron s3 x y z) * (0.5 * dt),
     getQ (photonVel s) i
       + (acc_photon s x y z
          + (1.0 * _laplacian (photon s3) x y z - 0.05 * getQ (photonVel s) i
             + 0.2 * getQ (electronVel s) i)) * (0.5 * dt)).
Proof.
  intros i Hs Hi He1 Ha1 He2 Ha2 He3 Ha3.
  unfold acc_view, acc_at in Ha1. inversion Ha1 as [[Hah Hae Hap]]. clear Ha1.
  assert (F1 : higgs s1 = higgs s /\ electron s1 = electron s /\ photon s1 = photon s /\
               higgsVel s1 = higgsVel s /\ electronVel s1 = electronVel s /\
               photonVel s1 = photonVel s).
  { repeat split;
      [apply (f_equal higgs) in He1|apply (f_equal electron) in He1
      |apply (f_equal photon) in He1|apply (f_equal higgsVel) in He1
      |apply (f_equal electronVel) in He1|apply (f_equal photonVel) in He1]; exact He1. }
  destruct F1 as (Fh & Fe & Fp & Fhv & Fev & Fpv).
  assert (F2 : higgsVel s2 = higgsVel s1 /\ electronVel s2 = electronVel s1 /\
               photonVel s2 = photonVel s1 /\ _higgsAcc s2 = _higgsAcc s1 /\
               _electronAcc s2 = _electronAcc s1 /\ _photonAcc s2 = _photonAcc s1).
  { repeat split;
      [apply (f_equal higgsVel) in He2|apply (f_equal electronVel) in He2
      |apply (f_equal photonVel) in He2|apply (f_equal _higgsAcc) in He2
      |apply (f_equal _electronAcc) in He2|apply (f_equal _photonAcc) in He2]; exact He2. }
  destruct F2 as (Ghv & Gev & Gpv & Gah & Gae & Gap).
  assert (F3 : higgs s3 = higgs s2 /\ electron s3 = electron s2 /\ photon s3 = photon s2).
  { repeat split;
      [apply (f_equal higgs) in He3|apply (f_equal electron) in He3
      |apply (f_equal photon) in He3]; exact He3. }
  destruct F3 as (Kh & Ke & Kp).
  split.
  - unfold amp_view. rewrite Kh, Ke, Kp. unfold amp_view in Ha2. rewrite Ha2.
    unfold pos_F. rewrite Fh, Fe, Fp, Fhv, Fev, Fpv.
    now rewrite Hah, Hae, Hap.
  - rewrite Ha3. unfold vel_F, vel_view.
    rewrite Ghv, Gev, Gpv, Gah, Gae, Gap, Fhv, Fev, Fpv.
    fold i. rewrite Hah, Hae, Hap.
    unfold acc_higgs, acc_electron. rewrite Kh, Ke, Kp. reflexivity.
Qed.

(** [verlet], cell by cell, in terms of the state before the call. The new
    accelerations are those of the new amplitudes; the photon's reads the
    two velocities before they advance. *)
Lemma verlet_cell (dt : Q) (s : t) (x y z : Z) :
  sized s -> in_lattice (x, y, z) ->
  sized (verlet dt s) /\
  amp_view (verlet dt s) (idx x y z) =
    (getQ (higgs s) (idx x y z)
       + (getQ (higgsVel s) (idx x y z) * dt + acc_higgs s x y z * (0.5 * dt * dt)),
     getQ (electron s) (idx x y z)
       + (getQ (electronVel s) (idx x y z) * dt + acc_electron s x y z * (0.5 * dt * dt)),
     getQ (photon s) (idx x y z)
       + (getQ (photonVel s) (idx x y z) * dt + acc_photon s x y z * (0.5 * dt * dt))) /\
  vel_view (verlet dt s) (idx x y z) =
    (getQ (higgsVel s) (idx x y z)
       + (acc_higgs s x y z + acc_higgs (verlet dt s) x y z) * (0.5 * dt),
     getQ (electronVel s) (idx x y z)
       + (acc_electron s x y z + acc_electron (verlet dt s) x y z) * (0.5 * dt),
     getQ (photonVel s) (idx x y z)
       + (acc_photon s x y z
          + (1.0 * _laplacian (photon (verlet dt s)) x y z
             - 0.05 * getQ (photonVel s) (idx x y z)
             + 0.2 * getQ (electronVel s) (idx x y z))) * (0.5 * dt)).
Proof.
  intros Hs Hc.
  destruct (acc_loop s Hs) as (Hs1 & He1 & Ha1).
  destruct (pos_loop dt (0.5 * dt * dt) _ Hs1) as (Hs2 & He2 & Ha2).
  destruct (vel_loop (0.5 * dt) _ Hs2) as (Hs3 & He3 & Ha3).
  split; [exact Hs3|].
  exact (verlet_chain dt s _ _ _ x y z Hs (idx_range x y z) He1 (Ha1 _ Hc) He2
           (Ha2 _ (idx_range x y z)) He3 (Ha3 _ Hc)).
Qed.

End FieldFacts.

(** ** QuantumField.update against the specification's Verlet step *)

Module VerletFacts.
Import JS JSFacts QuantumField FieldInv FieldFacts.
Import VerletSpec.

Local Definition spec_cell := VerletSpec.cell N.
Local Definition k := VerletSpec.coefficients.

(** Periodic access to the lattice of a state reads the arrays at [idx]. *)
Lemma cell_lattice_of (s : t) (x y z : Z) :
  spec_cell (lattice_of s) x y z =
  mkCell (getQ (higgs s) (idx x y z)) (getQ (electron s) (idx x y z))
         (getQ (photon s) (idx x y z)) (getQ (higgsVel s) (idx x y z))
         (getQ (electronVel s) (idx x y z)) (getQ (photonVel s) (idx x y z)).
Proof. unfold spec_cell, VerletSpec.cell, lattice_of. now rewrite idx_mod. Qed.

Lemma L_lattice_of (f : Cell -> Q) (g : t -> list Q) (s : t) (x y z : Z) :
  (forall x y z, f (spec_cell (lattice_of s) x y z) = getQ (g s) (idx x y z)) ->
  L N f (lattice_of s) x y z = _laplacian (g s) x y z.
Proof. intros E. unfold L, _laplacian. fold spec_cell. now rewrite !E. Qed.

Lemma acc_higgs_spec (s : t) (x y z : Z) :
  acc_higgs s x y z == a_higgs N k (lattice_of s) x y z.
Proof.
  unfold a_higgs. rewrite (L_lattice_of h higgs) by (intros; now rewrite cell_lattice_of).
  fold spec_cell. rewrite cell_lattice_of. unfold acc_higgs, k. cbn [h e c1 c2 c3 vev coefficients]. ring.
Qed.

Lemma acc_electron_spec (s : t) (x y z : Z) :
  acc_electron s x y z == a_electron N k (lattice_of s) x y z.
Proof.
  unfold a_electron. rewrite (L_lattice_of e electron) by (intros; now rewrite cell_lattice_of).
  fold spec_cell. rewrite cell_lattice_of. unfold acc_electron, k. cbn [h e c4 c5 c6 coefficients]. ring.
Qed.

Lemma acc_photon_spec (s : t) (x y z : Z) :
  acc_photon s x y z == a_photon N k (lattice_of s) x y z.
Proof.
  unfold a_photon. rewrite (L_lattice_of p photon) by (intros; now rewrite cell_lattice_of).
  fold spec_cell. rewrite cell_lattice_of. unfold acc_photon, k. cbn [p pv ev c7 c8 damping coefficients]. ring.
Qed.

(** Two lattices whose cells agree up to [==] have the same accelerations
    up to [==]. *)
Definition cell_eq (a b : Cell) : Prop :=
  h a == h b /\ e a == e b /\ p a == p b /\ hv a == hv b /\ ev a == ev b /\ pv a == pv b.

Definition lattice_eq (S T : Lattice) : Prop :=
  forall x y z, cell_eq (spec_cell S x y z) (spec_cell T x y z).

Lemma L_eq (f : Cell -> Q) (S T : Lattice) (x y z : Z) :
  (forall x y z, f (spec_cell S x y z) == f (spec_cell T x y z)) ->
  L N f S x y z == L N f T x y z.
Proof. intros E. unfold L. fold spec_cell. now rewrite !E. Qed.

Lemma a_higgs_eq (S T : Lattice) (x y z : Z) :
  lattice_eq S T -> a_higgs N k S x y z == a_higgs N k T x y z.
Proof.
  intros E. unfold a_higgs. cbv zeta. fold spec_cell.
  rewrite (L_eq h S T) by (intros; apply E).
  destruct (E x y z) as (Eh & Ee & _). now rewrite Eh, Ee.
Qed.

Lemma a_electron_eq (S T : Lattice) (x y z : Z) :
  lattice_eq S T -> a_electron N k S x y z == a_electron N k T x y z.
Proof.
  intros E. unfold a_electron. cbv zeta. fold spec_cell.
  rewrite (L_eq e S T) by (intros; apply E).
  destruct (E x y z) as (Eh & Ee & _). now rewrite Eh, Ee.
Qed.

Lemma a_photon_eq (S T : Lattice) (x y z : Z) :
  lattice_eq S T -> a_photon N k S x y z == a_photon N k T x y z.
Proof.
  intros E. unfold a_photon. cbv zeta. fold spec_cell.
  rewrite (L_eq p S T) by (intros; apply E).
  destruct (E x y z) as (_ & _ & _ & _ & Eev & Epv). now rewrite Eev, Epv.
Qed.

(** The amplitudes of [v] with the velocities of [s]. With [v] the result
    of [verlet] on [s], this is the state after loop 2, which the
    specification calls the new state. *)
Definition with_velocities_of (s v : t) : t :=
  set_higgsVel (higgsVel s) (set_electronVel (electronVel s) (set_photonVel (photonVel s) v)).

Lemma acc_wrap (s : t) (x y z : Z) :
  acc_higgs s (x mod N) (y mod N) (z mod N) = acc_higgs s x y z /\
  acc_electron s (x mod N) (y mod N) (z mod N) = acc_electron s x y z /\
  acc_photon s (x mod N) (y mod N) (z mod N) = acc_photon s x y z.
Proof.
  unfold acc_higgs, acc_electron, acc_photon, _laplacian. rewrite !idx_mod.
  rewrite ?Zplus_mod_idemp_l, ?Zminus_mod_idemp_l, ?Z.mod_mod by discriminate.
  auto.
Qed.

Lemma advance_cell (dt : Q) (s v : t) (x y z : Z) :
  amp_view v (idx x y z) =
    (getQ (higgs s) (idx x y z)
       + (getQ (higgsVel s) (idx x y z) * dt + acc_higgs s x y z * (0.5 * dt * dt)),
     getQ (electron s) (idx x y z)
       + (getQ (electronVel s) (idx x y z) * dt + acc_electron s x y z * (0.5 * dt * dt)),
     getQ (photon s) (idx x y z)
       + (getQ (photonVel s) (idx x y z) * dt + acc_photon s x y z * (0.5 * dt * dt))) ->
  cell_eq (spec_cell (lattice_of (with_velocities_of s v)) x y z)
          (spec_cell (advance N k dt (lattice_of s)) x y z).
Proof.
  intros Hav. rewrite cell_lattice_of.
  unfold amp_view in Hav. apply triple_eq in Hav. destruct Hav as (Eh & Ee & Ep).
  unfold with_velocities_of.
  cbn [higgs electron photon higgsVel electronVel photonVel
       set_higgsVel set_electronVel set_photonVel].
  rewrite Eh, Ee, Ep.
  unfold spec_cell at 1. unfold VerletSpec.cell, advance.
  fold (VerletSpec.cell N (lattice_of s) x y z). fold spec_cell. rewrite cell_lattice_of.
  unfold cell_eq. cbn [h e p hv ev pv].
  rewrite <- (acc_higgs_spec s), <- (acc_electron_spec s), <- (acc_photon_spec s).
  destruct (acc_wrap s x y z) as (Ah & Ae & Ap). rewrite Ah, Ae, Ap.
  repeat split; try reflexivity; ring.
Qed.

Lemma in_lattice_mod (x y z : Z) : in_lattice ((x mod N)%Z, (y mod N)%Z, (z mod N)%Z).
Proof. unfold in_lattice, N. repeat split; apply Z.mod_pos_bound; reflexivity. Qed.

Lemma idx_mod_mod (x y z : Z) : idx (x mod N) (y mod N) (z mod N) = idx x y z.
Proof. rewrite !idx_mod. now rewrite !Z.mod_mod by discriminate. Qed.

Lemma verlet_amp (dt : Q) (s : t) (x y z : Z) :
  sized s ->
  amp_view (verlet dt s) (idx x y z) =
    (getQ (higgs s) (idx x y z)
       + (getQ (higgsVel s) (idx x y z) * dt + acc_higgs s x y z * (0.5 * dt * dt)),
     getQ (electron s) (idx x y z)
       + (getQ (electronVel s) (idx x y z) * dt + acc_electron s x y z * (0.5 * dt * dt)),
     getQ (photon s) (idx x y z)
       + (getQ (photonVel s) (idx x y z) * dt + acc_photon s x y z * (0.5 * dt * dt))).
Proof.
  intros Hs.
  destruct (verlet_cell dt s _ _ _ Hs (in_lattice_mod x y z)) as (_ & Hav & _).
  destruct (acc_wrap s x y z) as (Ah & Ae & Ap).
  rewrite idx_mod_mod, Ah, Ae, Ap in Hav. exact Hav.
Qed.

Lemma midpoint_is_advance (dt : Q) (s : t) :
  sized s ->
  lattice_eq (lattice_of (with_velocities_of s (verlet dt s))) (advance N k dt (lattice_of s)).
Proof.
  intros Hs x y z. apply advance_cell. now apply verlet_amp.
Qed.

(** What the other fields of the state are after [verlet]. *)
Lemma frame_chain (s s1 s2 s3 : t) :
  acc_env s1 = acc_env s -> amp_env s2 = amp_env s1 -> vel_env s3 = vel_env s2 ->
  heartStrength s3 = heartStrength s /\ orchCoherence s3 = orchCoherence s /\
  orchFlash s3 = orchFlash s /\ phi s3 = phi s.
Proof.
  intros E1 E2 E3. repeat split.
  - apply (f_equal heartStrength) in E1, E2, E3. cbn in E1, E2, E3. congruence.
  - apply (f_equal orchCoherence) in E1, E2, E3. cbn in E1, E2, E3. congruence.
  - apply (f_equal orchFlash) in E1, E2, E3. cbn in E1, E2, E3. congruence.
  - apply (f_equal phi) in E1, E2, E3. cbn in E1, E2, E3. congruence.
Qed.

Lemma verlet_frame (dt : Q) (s : t) :
  sized s ->
  heartStrength (verlet dt s) = heartStrength s /\
  orchCoherence (verlet dt s) = orchCoherence s /\
  orchFlash (verlet dt s) = orchFlash s /\ phi (verlet dt s) = phi s.
Proof.
  intros Hs.
  destruct (acc_loop s Hs) as (Hs1 & He1 & _).
  destruct (pos_loop dt (0.5 * dt * dt) _ Hs1) as (Hs2 & He2 & _).
  destruct (vel_loop (0.5 * dt) _ Hs2) as (_ & He3 & _).
  exact (frame_chain s _ _ _ He1 He2 He3).
Qed.

(** One cell of the specification's step against a state [v] that holds
    what [verlet_cell] says. *)
Lemma step_cell (dt : Q) (s v : t) (x y z : Z) :
  in_lattice (x, y, z) ->
  lattice_eq (lattice_of (with_velocities_of s v)) (advance N k dt (lattice_of s)) ->
  vel_view v (idx x y z) =
    (getQ (higgsVel s) (idx x y z)
       + (acc_higgs s x y z + acc_higgs v x y z) * (0.5 * dt),
     getQ (electronVel s) (idx x y z)
       + (acc_electron s x y z + acc_electron v x y z) * (0.5 * dt),
     getQ (photonVel s) (idx x y z)
       + (acc_photon s x y z
          + (1.0 * _laplacian (photon v) x y z
             - 0.05 * getQ (photonVel s) (idx x y z)
             + 0.2 * getQ (electronVel s) (idx x y z))) * (0.5 * dt)) ->
  let i := (x + y * N + z * N2)%Z in
  let T := step N k dt (lattice_of s) x y z in
  getQ (higgs v) i == h T /\ getQ (electron v) i == e T /\ getQ (photon v) i == p T /\
  getQ (higgsVel v) i == hv T /\ getQ (electronVel v) i == ev T /\
  getQ (photonVel v) i == pv T.
Proof.
  intros Hc Hmid Hvel i T. subst i T.
  rewrite <- (idx_in_lattice x y z Hc).
  pose proof (Hmid x y z) as Hm. rewrite cell_lattice_of in Hm.
  unfold spec_cell, VerletSpec.cell in Hm.
  destruct Hc as (Hx & Hy & Hz). rewrite !Z.mod_small in Hm by assumption.
  unfold cell_eq in Hm. cbn [h e p hv ev pv] in Hm.
  unfold with_velocities_of in Hm.
  cbn [higgs electron photon higgsVel electronVel photonVel
       set_higgsVel set_electronVel set_photonVel] in Hm.
  destruct Hm as (Mh & Me & Mp & _).
  unfold vel_view in Hvel. apply triple_eq in Hvel. destruct Hvel as (Vh & Ve & Vp).
  unfold step. cbn [h e p hv ev pv].
  split; [exact Mh|]. split; [exact Me|]. split; [exact Mp|].
  rewrite Vh, Ve, Vp.
  rewrite <- (a_higgs_eq _ _ x y z Hmid), <- (a_electron_eq _ _ x y z Hmid),
          <- (a_photon_eq _ _ x y z Hmid).
  rewrite <- !acc_higgs_spec, <- !acc_electron_spec, <- !acc_photon_spec.
  unfold lattice_of at 1 2 3. cbn [hv ev pv].
  rewrite <- (idx_in_lattice x y z (conj Hx (conj Hy Hz))).
  change (acc_higgs (with_velocities_of s v) x y z) with (acc_higgs v x y z).
  change (acc_electron (with_velocities_of s v) x y z) with (acc_electron v x y z).
  change (acc_photon (with_velocities_of s v) x y z)
    with (1.0 * _laplacian (photon v) x y z - 0.05 * getQ (photonVel s) (idx x y z)
          + 0.2 * getQ (electronVel s) (idx x y z)).
  repeat split; ring.
Qed.

End VerletFacts.

(** ** QuantumField.update: the clamp and the integration scheme *)

Module FieldClaims.
Import JS JSFacts QuantumField FieldInv FieldFacts VerletFacts.

Lemma sized_vacuum : sized Sample.vacuum.
Proof.
  unfold sized, cells, Sample.vacuum. cbv zeta.
  cbn [higgs electron photon higgsVel electronVel photonVel _higgsAcc _electronAcc
       _photonAcc orchCoherence orchFlash phi].
  rewrite !repeat_length, Z2Nat.id by discriminate. repeat split.
Qed.



(** What [update] does after the three loops of [verlet]: the heart
    attractor leaves amplitudes alone, and velocities too when it is off; the
    clamp rewrites amplitudes only. *)
Lemma update_after_verlet (H : Host) (dt : Q) (v : t) (r : nat) (i : Z) :
  lattice_index i ->
  let s' := fold_left clamp_cell (upto N3) (fst (heart_attractor H dt (v, r))) in
  amp_view s' i =
    (Qmax (-5) (Qmin 5 (getQ (higgs v) i)), Qmax (-5) (Qmin 5 (getQ (electron v) i)),
     Qmax (-5) (Qmin 5 (getQ (photon v) i))) /\
  (heartStrength v <= 0 -> vel_view s' i = vel_view v i).
Proof.
  intros Hi s'. subst s'.
  pose proof (heart_attractor_frame H dt v r) as (Ha & _).
  pose proof (heart_attractor_off H dt v r) as Hoff.
  destruct (heart_attractor H dt (v, r)) as [s4 r4]. cbn [fst] in *.
  destruct (clamp_loop s4) as (He & Hc). specialize (Hc i Hi).
  split.
  - rewrite Hc. unfold clamp_F. rewrite Ha. reflexivity.
  - intros Hs. specialize (Hoff Hs). inversion Hoff; subst.
    unfold vel_view.
    destruct (amp_env_frame _ _ He) as (E1 & E2 & E3 & _). now rewrite E1, E2, E3.
Qed.

(** C4. [update(dt)] is a velocity-Verlet step in the required order. At
    every cell of the lattice the three loops of [update] produce exactly
    the specification's step: accelerations from the current state with the
    stated laws (periodic six-neighbour Laplacian; Mexican-hat Higgs force
    with electron back-reaction; Yukawa electron mass term; damped photon
    driven by the electron velocity), amplitudes advanced by
    [v dt + 1/2 a dt^2], accelerations recomputed at the new amplitudes,
    velocities advanced by [1/2 (a_old + a_new) dt]. After them [update]
    only clamps the amplitudes and, when the heart attractor is off, leaves
    the velocities as the step set them. *)
Theorem update_is_velocity_verlet (H : Host) (dt : Q) (s : t) (r : nat) (x y z : Z) :
  sized s -> (0 <= x < N)%Z -> (0 <= y < N)%Z -> (0 <= z < N)%Z ->
  let i := (x + y * N + z * N2)%Z in
  let T := VerletSpec.step N VerletSpec.coefficients dt (VerletSpec.lattice_of s) x y z in
  let v := verlet dt s in
  let s' := fst (update H dt (s, r)) in
  (getQ (higgs v) i == VerletSpec.h T /\ getQ (electron v) i == VerletSpec.e T /\
   getQ (photon v) i == VerletSpec.p T /\ getQ (higgsVel v) i == VerletSpec.hv T /\
   getQ (electronVel v) i == VerletSpec.ev T /\ getQ (photonVel v) i == VerletSpec.pv T) /\
  (getQ (higgs s') i = Qmax (-5) (Qmin 5 (getQ (higgs v) i)) /\
   getQ (electron s') i = Qmax (-5) (Qmin 5 (getQ (electron v) i)) /\
   getQ (photon s') i = Qmax (-5) (Qmin 5 (getQ (photon v) i))) /\
  (heartStrength s <= 0 ->
   getQ (higgsVel s') i = getQ (higgsVel v) i /\
   getQ (electronVel s') i = getQ (electronVel v) i /\
   getQ (photonVel s') i = getQ (photonVel v) i).
Proof.
  intros Hs Hx Hy Hz i T v s'.
  assert (Hc : in_lattice (x, y, z)) by (unfold in_lattice; auto).
  assert (Hi : lattice_index i).
  { subst i. rewrite <- (idx_in_lattice x y z Hc). apply idx_range. }
  split.
  - exact (step_cell dt s (verlet dt s) x y z Hc (midpoint_is_advance dt s Hs)
             (proj2 (proj2 (verlet_cell dt s x y z Hs Hc)))).
  - destruct (update_after_verlet H dt (verlet dt s) r i Hi) as (Ha & Hv).
    assert (Es : s' = fold_left clamp_cell (upto N3)
                        (fst (heart_attractor H dt (verlet dt s, r)))).
    { subst s'. unfold update.
      destruct (heart_attractor H dt (verlet dt s, r)) as [s4 r4]. reflexivity. }
    rewrite Es. fold v in Ha, Hv |- *.
    unfold amp_view in Ha. apply triple_eq in Ha. split; [exact Ha|].
    intros Hoff. destruct (verlet_frame dt s Hs) as (Eh & _). fold v in Eh.
    rewrite <- Eh in Hoff. specialize (Hv Hoff).
    unfold vel_view in Hv. apply triple_eq in Hv. exact Hv.
Qed.

Lemma update_is_velocity_verlet_witness :
  let i := (1 + 2 * N + 3 * N2)%Z in
  let T := VerletSpec.step N VerletSpec.coefficients 0.004
             (VerletSpec.lattice_of Sample.vacuum) 1%Z 2%Z 3%Z in
  let v := verlet 0.004 Sample.vacuum in
  let s' := fst (update Sample.host 0.004 (Sample.vacuum, 0%nat)) in
  (getQ (higgs v) i == VerletSpec.h T /\ getQ (electron v) i == VerletSpec.e T /\
   getQ (photon v) i == VerletSpec.p T /\ getQ (higgsVel v) i == VerletSpec.hv T /\
   getQ (electronVel v) i == VerletSpec.ev T /\ getQ (photonVel v) i == VerletSpec.pv T) /\
  (getQ (higgs s') i = Qmax (-5) (Qmin 5 (getQ (higgs v) i)) /\
   getQ (electron s') i = Qmax (-5) (Qmin 5 (getQ (electron v) i)) /\
   getQ (photon s') i = Qmax (-5) (Qmin 5 (getQ (photon v) i))) /\
  (heartStrength Sample.vacuum <= 0 ->
   getQ (higgsVel s') i = getQ (higgsVel v) i /\
   getQ (electronVel s') i = getQ (electronVel v) i /\
   getQ (photonVel s') i = getQ (photonVel v) i).
Proof.
  apply (update_is_velocity_verlet Sample.host 0.004 Sample.vacuum 0%nat 1%Z 2%Z 3%Z
           sized_vacuum); unfold N; lia.
Defined.

End FieldClaims.

(** ** Consciousness.updateOrchOR, cell by cell *)

Module OrchFacts.
Import JS JSFacts QuantumField FieldInv FieldFacts Consciousness.












End OrchFacts.

Module OrchClaims.
Import JS JSFacts QuantumField FieldInv FieldFacts Consciousness OrchFacts.




End OrchClaims.

(** ** The particle pool: how allocation and release act on the invariant *)

Module PoolFacts.
Import JS JSFacts ParticleSystem PoolInv.

Lemma Zeq_or (a x : Z) : a = x \/ ~ a = x.
Proof. destruct (Z.eq_dec a x); auto. Qed.

Lemma slot_not_minus1 (i : Z) : slot i -> i <> (-1)%Z.
Proof. unfold slot. lia. Qed.

Lemma slots_put {A : Type} (l : list A) (i : Z) (v : A) : slots l -> slots (put l i v).
Proof. unfold slots. now rewrite length_put. Qed.

Lemma getZ_put_slot (l : list Z) (i j v : Z) :
  slots l -> slot i -> getZ (put l i v) j = if (i =? j)%Z then v else getZ l j.
Proof.
  intros Hl Hi. destruct (Z.eqb_spec i j) as [<-|Hij].
  - apply get_put_same. unfold slots, slot in *. lia.
  - now apply get_put_other.
Qed.

Lemma getQ_put_slot (l : list Q) (i j : Z) (v : Q) :
  slots l -> slot i -> getQ (put l i v) j = if (i =? j)%Z then v else getQ l j.
Proof.
  intros Hl Hi. destruct (Z.eqb_spec i j) as [<-|Hij].
  - apply get_put_same. unfold slots, slot in *. lia.
  - now apply get_put_other.
Qed.

(** Two cores agree at a slot. *)
Definition same_at (k k' : Core) (x : Z) : Prop :=
  getZ (c_type k') x = getZ (c_type k) x /\ getQ (c_alpha k') x = getQ (c_alpha k) x /\
  getZ (c_ent k') x = getZ (c_ent k) x /\ getZ (c_pair k') x = getZ (c_pair k) x.

Definition same_lengths (k k' : Core) : Prop :=
  slots (c_type k') /\ slots (c_alpha k') /\ slots (c_ent k') /\ slots (c_pair k').

(** [k'] is [k] after the slots in [F], all live, were released. *)
Record freed (F : Z -> Prop) (k k' : Core) : Prop := mk_freed {
  fr_len : same_lengths k k';
  fr_active : forall x, In x (c_active k') <-> In x (c_active k) /\ ~ F x;
  fr_free : forall x, In x (c_free k') <-> In x (c_free k) \/ F x;
  fr_nodup_active : NoDup (c_active k');
  fr_nodup_free : NoDup (c_free k');
  fr_released : forall x, F x -> released k' x;
  fr_same : forall x, ~ F x -> same_at k k' x
}.

(** [k'] is [k] after the slots in [A], all free, were handed out, each
    with equal relation fields that pair it, if at all, with another slot
    of [A] that pairs it back. *)
Record allocated (A : Z -> Prop) (k k' : Core) : Prop := mk_allocated {
  al_len : same_lengths k k';
  al_active : forall x, In x (c_active k') <-> In x (c_active k) \/ A x;
  al_free : forall x, In x (c_free k') <-> In x (c_free k) /\ ~ A x;
  al_nodup_active : NoDup (c_active k');
  al_nodup_free : NoDup (c_free k');
  al_from_free : forall x, A x -> In x (c_free k);
  al_ent : forall x, A x -> getZ (c_ent k') x = getZ (c_pair k') x;
  al_sym : forall x, A x -> getZ (c_pair k') x <> (-1)%Z ->
             A (getZ (c_pair k') x) /\ getZ (c_pair k') (getZ (c_pair k') x) = x;
  al_same : forall x, ~ A x -> same_at k k' x
}.

Lemma wf_freed (F : Z -> Prop) (k k' : Core) :
  (forall x, F x \/ ~ F x) ->
  wf_core k -> freed F k k' ->
  (forall x, F x -> In x (c_active k)) ->
  (forall x, F x -> getZ (c_pair k) x <> (-1)%Z -> F (getZ (c_pair k) x)) ->
  wf_core k'.
Proof.
  intros Hdec W Fr Hlive Hclosed. destruct Fr as [(L1 & L2 & L3 & L4) Ha Hf Hna Hnf Hrel Hsame].
  constructor; try assumption.
  - intros i Hi. apply Ha in Hi. apply (wf_active_slot k W). tauto.
  - intros i Hi. apply Hf in Hi. destruct Hi as [Hi|Hi].
    + now apply (wf_free_slot k W).
    + apply (wf_active_slot k W). auto.
  - intros i Hi Hi'. apply Ha in Hi. apply Hf in Hi'. destruct Hi as (Hi & HnF).
    destruct Hi' as [Hi'|Hi']; [|contradiction]. now apply (wf_disjoint k W i).
  - intros i Hi. apply Hf in Hi.
    destruct (Hdec i) as [HF|HnF]; [now apply Hrel|].
    destruct Hi as [Hi|Hi]; [|contradiction].
    destruct (Hsame i HnF) as (S1 & S2 & S3 & S4).
    destruct (wf_released k W i Hi) as (R1 & R2 & R3 & R4).
    unfold released. now rewrite S1, S2, S3, S4.
  - intros i Hi. apply Ha in Hi. destruct Hi as (Hi & HnF).
    destruct (Hsame i HnF) as (_ & _ & S3 & S4). rewrite S3, S4. now apply (wf_ent k W).
  - intros i Hi Hp. apply Ha in Hi. destruct Hi as (Hi & HnF).
    destruct (Hsame i HnF) as (_ & _ & _ & S4). rewrite S4 in *.
    destruct (wf_sym k W i Hi Hp) as (Hq & Hback).
    assert (HnFp : ~ F (getZ (c_pair k) i)).
    { intro HFp. apply HnF. rewrite <- Hback. apply Hclosed; [assumption|].
      rewrite Hback. apply slot_not_minus1. now apply (wf_active_slot k W). }
    destruct (Hsame _ HnFp) as (_ & _ & _ & S4'). rewrite S4'.
    split; [|assumption]. apply Ha. tauto.
Qed.

Lemma wf_allocated (A : Z -> Prop) (k k' : Core) :
  (forall x, A x \/ ~ A x) ->
  wf_core k -> allocated A k k' -> wf_core k'.
Proof.
  intros Hdec W Al.
  destruct Al as [(L1 & L2 & L3 & L4) Ha Hf Hna Hnf Hfrom Hent Hsym Hsame].
  constructor; try assumption.
  - intros i Hi. apply Ha in Hi. destruct Hi as [Hi|Hi].
    + now apply (wf_active_slot k W).
    + apply (wf_free_slot k W). auto.
  - intros i Hi. apply Hf in Hi. apply (wf_free_slot k W). tauto.
  - intros i Hi Hi'. apply Ha in Hi. apply Hf in Hi'. destruct Hi' as (Hi' & HnA).
    destruct Hi as [Hi|Hi]; [|contradiction]. now apply (wf_disjoint k W i).
  - intros i Hi. apply Hf in Hi. destruct Hi as (Hi & HnA).
    destruct (Hsame i HnA) as (S1 & S2 & S3 & S4).
    destruct (wf_released k W i Hi) as (R1 & R2 & R3 & R4).
    unfold released. now rewrite S1, S2, S3, S4.
  - intros i Hi. destruct (Hdec i) as [HA|HnA]; [now apply Hent|].
    apply Ha in Hi. destruct Hi as [Hi|Hi]; [|contradiction].
    destruct (Hsame i HnA) as (_ & _ & S3 & S4). rewrite S3, S4. now apply (wf_ent k W).
  - intros i Hi Hp. destruct (Hdec i) as [HA|HnA].
    + destruct (Hsym i HA Hp) as (HAp & Hback). split; [|assumption]. apply Ha. now right.
    + apply Ha in Hi. destruct Hi as [Hi|Hi]; [|contradiction].
      destruct (Hsame i HnA) as (_ & _ & _ & S4). rewrite S4 in *.
      destruct (wf_sym k W i Hi Hp) as (Hq & Hback).
      assert (HnAp : ~ A (getZ (c_pair k) i)).
      { intro HAp. apply (wf_disjoint k W _ Hq). now apply Hfrom. }
      destruct (Hsame _ HnAp) as (_ & _ & _ & S4'). rewrite S4'.
      split; [|assumption]. apply Ha. now left.
Qed.

(** *** Entries of [toAnnihilate] while they wait to be processed *)

(** The pair [(a, b)] is as the scan saw it. *)
Definition intact (k : Core) (a b : Z) : Prop :=
  In a (c_active k) /\ In b (c_active k) /\ getZ (c_pair k) a = b /\ getZ (c_pair k) b = a.

(** What holds of an entry from the moment the scan pushes it until it is
    processed: a lone slot is unpaired if still live; a pair is either as
    the scan saw it or has gone as a whole. *)
Definition entry_ok (k : Core) (e : Entry) : Prop :=
  let '(a, b, _) := e in
  if (b =? -1)%Z then In a (c_active k) -> getZ (c_pair k) a = (-1)%Z
  else intact k a b \/ (gone k a /\ gone k b).

Lemma gone_allocated (A : Z -> Prop) (k k' : Core) (x : Z) :
  (forall x, A x \/ ~ A x) ->
  allocated A k k' ->
  (forall x, A x -> getZ (c_type k') x = TYPE_PHOTON /\ getZ (c_pair k') x = (-1)%Z) ->
  gone k x -> gone k' x.
Proof.
  intros Hdec Al Hnew Hx. destruct (Hdec x) as [HA|HnA]; [right; now apply Hnew|].
  destruct (al_same A k k' Al x HnA) as (S1 & _ & _ & S4).
  destruct Hx as [Hx|(Ht & Hp)].
  - left. intro Hin. apply (al_active A k k' Al) in Hin. tauto.
  - right. now rewrite S1, S4.
Qed.

Lemma entry_ok_allocated (A : Z -> Prop) (k k' : Core) (e : Entry) :
  (forall x, A x \/ ~ A x) ->
  wf_core k -> allocated A k k' ->
  (forall x, A x -> getZ (c_type k') x = TYPE_PHOTON /\ getZ (c_pair k') x = (-1)%Z) ->
  entry_ok k e -> entry_ok k' e.
Proof.
  intros Hdec W Al Hnew He. destruct e as [[a b] fl]. unfold entry_ok in *.
  assert (Hlive : forall x, In x (c_active k) -> ~ A x).
  { intros x Hx HA. apply (wf_disjoint k W x Hx). now apply (al_from_free A k k' Al). }
  destruct (b =? -1)%Z.
  - intros Ha. destruct (Hdec a) as [HA|HnA]; [now apply Hnew|].
    apply (al_active A k k' Al) in Ha. destruct Ha as [Ha|Ha]; [|contradiction].
    destruct (al_same A k k' Al a HnA) as (_ & _ & _ & S4). rewrite S4. auto.
  - destruct He as [(Ha & Hb & Hab & Hba)|(Ga & Gb)].
    + left.
      destruct (al_same A k k' Al a (Hlive a Ha)) as (_ & _ & _ & Sa).
      destruct (al_same A k k' Al b (Hlive b Hb)) as (_ & _ & _ & Sb).
      unfold intact. rewrite Sa, Sb.
      repeat split; try assumption; apply (al_active A k k' Al); now left.
    + right. split; eapply gone_allocated; eauto.
Qed.

Lemma gone_freed (F : Z -> Prop) (k k' : Core) (x : Z) :
  (forall x, F x \/ ~ F x) ->
  freed F k k' -> gone k x -> gone k' x.
Proof.
  intros Hdec Fr Hx.
  destruct (Hdec x) as [HF|HnF].
  - left. intro Hin. apply (fr_active F k k' Fr) in Hin. tauto.
  - destruct (fr_same F k k' Fr x HnF) as (S1 & _ & _ & S4).
    destruct Hx as [Hx|(Ht & Hp)].
    + left. intro Hin. apply (fr_active F k k' Fr) in Hin. tauto.
    + right. now rewrite S1, S4.
Qed.

Lemma entry_ok_freed (F : Z -> Prop) (k k' : Core) (e : Entry) :
  (forall x, F x \/ ~ F x) ->
  wf_core k -> freed F k k' ->
  (forall x, F x -> getZ (c_pair k) x <> (-1)%Z -> F (getZ (c_pair k) x)) ->
  entry_ok k e -> entry_ok k' e.
Proof.
  intros Hdec W Fr Hclosed He. destruct e as [[a b] fl]. unfold entry_ok in *.
  destruct (b =? -1)%Z.
  - intros Ha. apply (fr_active F k k' Fr) in Ha. destruct Ha as (Ha & HnF).
    destruct (fr_same F k k' Fr a HnF) as (_ & _ & _ & S4). rewrite S4. auto.
  - destruct He as [(Ha & Hb & Hab & Hba)|(Ga & Gb)].
    + assert (Na : a <> (-1)%Z) by (apply slot_not_minus1; now apply (wf_active_slot k W)).
      assert (Nb : b <> (-1)%Z) by (apply slot_not_minus1; now apply (wf_active_slot k W)).
      assert (Hboth : F a <-> F b).
      { split; intro HF.
        - rewrite <- Hab. apply Hclosed; [assumption|]. now rewrite Hab.
        - rewrite <- Hba. apply Hclosed; [assumption|]. now rewrite Hba. }
      destruct (Hdec a) as [HFa|HnFa].
      * right. split; left; intro Hin; apply (fr_active F k k' Fr) in Hin; tauto.
      * left. assert (HnFb : ~ F b) by tauto.
        destruct (fr_same F k k' Fr a HnFa) as (_ & _ & _ & Sa).
        destruct (fr_same F k k' Fr b HnFb) as (_ & _ & _ & Sb).
        unfold intact. rewrite Sa, Sb.
        repeat split; try assumption; apply (fr_active F k k' Fr); tauto.
    + right. split; eapply gone_freed; eauto.
Qed.

(** *** [_free] and the release of a pair *)

Definition k_free (k : Core) (x : Z) : Core :=
  mkCore (put (c_type k) x TYPE_INACTIVE) (put (c_alpha k) x 0)
         (put (c_ent k) x (-1)%Z) (put (c_pair k) x (-1)%Z)
         (x :: c_free k) (Set_delete (c_active k) x).

Lemma core_free (s : ParticleSystem.t) (x : Z) : core (_free s x) = k_free (core s) x.
Proof. reflexivity. Qed.

Lemma freed_one (k : Core) (x : Z) :
  same_lengths k k -> slot x -> ~ In x (c_free k) ->
  NoDup (c_active k) -> NoDup (c_free k) ->
  freed (eq x) k (k_free k x).
Proof.
  intros (L1 & L2 & L3 & L4) Hx Hnf Hna Hnfr. constructor; cbn [k_free c_type c_alpha c_ent c_pair c_free c_active].
  - repeat split; now apply slots_put.
  - intros y. rewrite In_Set_delete. intuition congruence.
  - intros y. simpl. intuition congruence.
  - now apply NoDup_Set_delete.
  - now constructor.
  - intros y <-. unfold released. cbn [k_free c_type c_alpha c_ent c_pair].
    rewrite !getZ_put_slot, getQ_put_slot by assumption. now rewrite Z.eqb_refl.
  - intros y Hy. unfold same_at. cbn [k_free c_type c_alpha c_ent c_pair].
    unfold getZ, getQ. now rewrite !get_put_other by congruence.
Qed.

Lemma freed_trans (F G : Z -> Prop) (k k1 k2 : Core) :
  (forall x, G x \/ ~ G x) ->
  freed F k k1 -> freed G k1 k2 -> freed (fun x => F x \/ G x) k k2.
Proof.
  intros Hdec [L Ha Hf Hna Hnf Hrel Hsame] [L' Ha' Hf' Hna' Hnf' Hrel' Hsame'].
  constructor; try assumption.
  - intros x. rewrite Ha', Ha. tauto.
  - intros x. rewrite Hf', Hf. tauto.
  - intros x [HF|HG]; [|now apply Hrel'].
    destruct (Hdec x) as [HG|HnG]; [now apply Hrel'|].
    destruct (Hsame' x HnG) as (S1 & S2 & S3 & S4).
    destruct (Hrel x HF) as (R1 & R2 & R3 & R4).
    unfold released. now rewrite S1, S2, S3, S4.
  - intros x Hx.
    destruct (Hsame x) as (S1 & S2 & S3 & S4); [tauto|].
    destruct (Hsame' x) as (S1' & S2' & S3' & S4'); [tauto|].
    unfold same_at. now rewrite S1', S2', S3', S4'.
Qed.

(** The last two statements of the loop body of [update]'s second loop. *)
Definition release_pair (s : ParticleSystem.t) (a b : Z) : ParticleSystem.t :=
  let s := _free s a in
  if negb (b =? -1)%Z && Set_has (active s) b then _free s b else s.

(** One step of the second loop of [update] keeps the invariant, keeps
    every waiting entry in order, and never brings a gone slot back. *)
Definition advances (k k' : Core) : Prop :=
  wf_core k' /\ (forall e, entry_ok k e -> entry_ok k' e) /\ (forall x, gone k x -> gone k' x).

Lemma advances_refl (k : Core) : wf_core k -> advances k k.
Proof. intros W. split; [assumption|]. split; auto. Qed.

Lemma advances_trans (k k1 k2 : Core) : advances k k1 -> advances k1 k2 -> advances k k2.
Proof.
  intros (W1 & E1 & G1) (W2 & E2 & G2). split; [assumption|]. split; auto.
Qed.

Lemma release_pair_advances (s : ParticleSystem.t) (a b : Z) (fl : bool) :
  wf s -> In a (active s) -> entry_ok (core s) (a, b, fl) ->
  advances (core s) (core (release_pair s a b)) /\
  ~ In a (active (release_pair s a b)) /\
  (b <> (-1)%Z -> ~ In b (active (release_pair s a b))).
Proof.
  intros W Ha He. unfold wf in W.
  assert (Sa : slot a) by now apply (wf_active_slot _ W).
  assert (Len : same_lengths (core s) (core s)).
  { repeat split; [apply (wf_type_len _ W)|apply (wf_alpha_len _ W)
                  |apply (wf_ent_len _ W)|apply (wf_pair_len _ W)]. }
  assert (F1 : freed (eq a) (core s) (core (_free s a))).
  { rewrite core_free. apply freed_one; auto.
    - now apply (wf_disjoint _ W).
    - apply (wf_active_nodup _ W).
    - apply (wf_free_nodup _ W). }
  assert (Hpa : getZ (c_pair (core s)) a <> (-1)%Z ->
                b <> (-1)%Z /\ intact (core s) a b).
  { intros Hp. unfold entry_ok in He. destruct (Z.eqb_spec b (-1)) as [->|Nb].
    - elim Hp. auto.
    - split; [assumption|]. destruct He as [Hi|([Ga|(_ & Ga)] & _)]; auto; contradiction. }
  unfold release_pair. cbv zeta.
  destruct (negb (b =? -1)%Z && Set_has (active (_free s a)) b) eqn:Eb.
  - apply andb_true_iff in Eb. destruct Eb as (Nb & Hb).
    apply negb_true_iff, Z.eqb_neq in Nb. apply Set_has_In in Hb.
    assert (Hb' : In b (active s) /\ b <> a).
    { change (active (_free s a)) with (c_active (core (_free s a))) in Hb.
      apply (fr_active _ _ _ F1) in Hb. destruct Hb as (Hb & Hne). split; auto. }
    destruct Hb' as (Hbact & Hba).
    assert (Sb : slot b) by now apply (wf_active_slot _ W).
    assert (F2 : freed (eq b) (core (_free s a)) (core (_free (_free s a) b))).
    { rewrite (core_free (_free s a)). apply freed_one; auto.
      - apply (fr_len _ _ _ F1).
      - intro Hin. apply (fr_free _ _ _ F1) in Hin. destruct Hin as [Hin|Hin].
        + now apply (wf_disjoint _ W b).
        + congruence.
      - apply (fr_nodup_active _ _ _ F1).
      - apply (fr_nodup_free _ _ _ F1). }
    pose proof (freed_trans _ _ _ _ _ (Zeq_or b) F1 F2) as F12.
    assert (Hdec : forall x, (a = x \/ b = x) \/ ~ (a = x \/ b = x)).
    { intros x. destruct (Z.eq_dec a x); destruct (Z.eq_dec b x); tauto. }
    assert (Hclosed : forall x, a = x \/ b = x ->
              getZ (c_pair (core s)) x <> (-1)%Z -> a = getZ (c_pair (core s)) x \/
                                                  b = getZ (c_pair (core s)) x).
    { intros x [<-|<-] Hp.
      - destruct (Hpa Hp) as (_ & (_ & _ & Hab & _)). now right.
      - unfold entry_ok in He. rewrite (proj2 (Z.eqb_neq b (-1)) Nb) in He.
        destruct He as [(_ & _ & _ & Hba')|(_ & [Gb|(_ & Gb)])]; auto; contradiction. }
    split; [|split].
    + split; [|split].
      * apply (wf_freed _ _ _ Hdec W F12); [|exact Hclosed].
        intros x [<-|<-]; assumption.
      * intros e. now apply (entry_ok_freed _ _ _ e Hdec W F12).
      * intros x. now apply (gone_freed _ _ _ x Hdec F12).
    + intro Hin. apply (fr_active _ _ _ F12) in Hin. tauto.
    + intros _ Hin. apply (fr_active _ _ _ F12) in Hin. tauto.
  - assert (Hnb : b = (-1)%Z \/ ~ In b (active (_free s a))).
    { apply andb_false_iff in Eb. destruct Eb as [Eb|Eb].
      - left. apply negb_false_iff in Eb. now apply Z.eqb_eq.
      - right. now apply Set_has_not_In. }
    assert (Hclosed : forall x, a = x ->
              getZ (c_pair (core s)) x <> (-1)%Z -> a = getZ (c_pair (core s)) x).
    { intros x <- Hp. destruct (Hpa Hp) as (Nb & (_ & Hbact & Hab & _)).
      destruct Hnb as [->|Hnb]; [congruence|].
      destruct (Z.eq_dec a b) as [E|E]; [congruence|].
      elim Hnb. change (active (_free s a)) with (c_active (core (_free s a))).
      apply (fr_active _ _ _ F1). auto. }
    split; [|split].
    + split; [|split].
      * apply (wf_freed _ _ _ (Zeq_or a) W F1); [|exact Hclosed].
        now intros x <-.
      * intros e. now apply (entry_ok_freed _ _ _ e (Zeq_or a) W F1).
      * intros x. now apply (gone_freed _ _ _ x (Zeq_or a) F1).
    + intro Hin. change (active (_free s a)) with (c_active (core (_free s a))) in Hin.
      apply (fr_active _ _ _ F1) in Hin. tauto.
    + intros Nb. destruct Hnb as [->|Hnb]; [congruence|exact Hnb].
Qed.

(** *** Annihilation photons *)

Definition k_photon (k : Core) (idx : Z) (rest : list Z) : Core :=
  mkCore (put (c_type k) idx TYPE_PHOTON) (put (c_alpha k) idx 1.0)
         (put (c_ent k) idx (-1)%Z) (put (c_pair k) idx (-1)%Z)
         rest (Set_add (c_active k) idx).

Lemma alloc_cons (s : ParticleSystem.t) (idx : Z) (rest : list Z) :
  _freeList s = idx :: rest ->
  _alloc s = (set_active (Set_add (active s) idx) (set_freeList rest s), idx).
Proof. intros E. unfold _alloc. now rewrite E. Qed.

Lemma alloc_nil (s : ParticleSystem.t) : _freeList s = [] -> _alloc s = (s, (-1)%Z).
Proof. intros E. unfold _alloc. now rewrite E. Qed.

Lemma core_photon (H : Host) (x y z : Q) (s : ParticleSystem.t) (r : nat) (idx : Z)
    (rest : list Z) :
  core (photon_init H x y z (set_active (Set_add (active s) idx) (set_freeList rest s)) r idx)
  = k_photon (core s) idx rest.
Proof. reflexivity. Qed.

Lemma photon_allocated (k : Core) (idx : Z) (rest : list Z) :
  wf_core k -> c_free k = idx :: rest ->
  allocated (eq idx) k (k_photon k idx rest) /\
  (forall x, idx = x -> getZ (c_type (k_photon k idx rest)) x = TYPE_PHOTON /\
                        getZ (c_pair (k_photon k idx rest)) x = (-1)%Z).
Proof.
  intros W E.
  assert (Hin : In idx (c_free k)) by (rewrite E; now left).
  assert (Si : slot idx) by now apply (wf_free_slot k W).
  pose proof (wf_free_nodup k W) as Hnd. rewrite E in Hnd. inversion Hnd as [|? ? Hni Hnd']; subst.
  assert (Hnew : forall x, idx = x ->
            getZ (c_type (k_photon k idx rest)) x = TYPE_PHOTON /\
            getZ (c_ent (k_photon k idx rest)) x = (-1)%Z /\
            getZ (c_pair (k_photon k idx rest)) x = (-1)%Z).
  { intros x <-. cbn [k_photon c_type c_ent c_pair].
    pose proof (wf_type_len k W). pose proof (wf_ent_len k W). pose proof (wf_pair_len k W).
    rewrite !getZ_put_slot, Z.eqb_refl; auto. }
  split.
  - constructor; cbn [k_photon c_type c_alpha c_ent c_pair c_free c_active].
    + repeat split; apply slots_put;
        [apply (wf_type_len k W)|apply (wf_alpha_len k W)
        |apply (wf_ent_len k W)|apply (wf_pair_len k W)].
    + intros x. rewrite In_Set_add. intuition congruence.
    + intros x. rewrite E. simpl. split.
      * intros Hx. split; [now right|]. intros <-. contradiction.
      * intros ([Hx|Hx] & Hne); [contradiction|assumption].
    + apply NoDup_Set_add. apply (wf_active_nodup k W).
    + assumption.
    + now intros x <-.
    + intros x Hx. destruct (Hnew x Hx) as (_ & He & Hp).
      cbn [k_photon c_ent c_pair] in He, Hp. now rewrite He, Hp.
    + intros x Hx Hp. destruct (Hnew x Hx) as (_ & _ & Hp').
      cbn [k_photon c_pair] in Hp'. contradiction.
    + intros x Hx. unfold same_at. cbn [k_photon c_type c_alpha c_ent c_pair].
      unfold getZ, getQ. now rewrite !get_put_other by congruence.
  - intros x Hx. destruct (Hnew x Hx) as (Ht & _ & Hp). auto.
Qed.

Lemma photon_advances (k : Core) (idx : Z) (rest : list Z) :
  wf_core k -> c_free k = idx :: rest -> advances k (k_photon k idx rest).
Proof.
  intros W E. destruct (photon_allocated k idx rest W E) as (Al & Hnew).
  split; [|split].
  - exact (wf_allocated _ _ _ (Zeq_or idx) W Al).
  - intros e. exact (entry_ok_allocated _ _ _ e (Zeq_or idx) W Al Hnew).
  - intros x. exact (gone_allocated _ _ _ x (Zeq_or idx) Al Hnew).
Qed.

Lemma spawn_photons_advances (H : Host) (n : nat) (x y z : Q) (s : ParticleSystem.t)
    (r : nat) :
  wf s ->
  advances (core s) (core (fst (spawn_photons H n x y z (s, r)))) /\
  (forall i, In i (active s) -> In i (active (fst (spawn_photons H n x y z (s, r))))).
Proof.
  revert s r. induction n as [|n IH]; intros s r W.
  - split; [now apply advances_refl|auto].
  - cbn [spawn_photons]. destruct (_freeList s) as [|idx rest] eqn:E.
    + rewrite (alloc_nil s E). cbn [Z.eqb fst]. split; [now apply advances_refl|auto].
    + rewrite (alloc_cons s idx rest E).
      assert (Si : slot idx).
      { apply (wf_free_slot _ W). cbn [core c_free]. rewrite E. now left. }
      destruct (Z.eqb_spec idx (-1)) as [Em|_]; [unfold slot in Si; lia|].
      pose proof (photon_advances (core s) idx rest W E) as Adv.
      rewrite <- (core_photon H x y z s r idx rest) in Adv.
      destruct (IH _ (4 + r)%nat (proj1 Adv)) as (Adv' & Hmono).
      split; [exact (advances_trans _ _ _ Adv Adv')|].
      intros i Hi. apply Hmono.
      change (In i (c_active (core (photon_init H x y z
                (set_active (Set_add (active s) idx) (set_freeList rest s)) r idx)))).
      rewrite core_photon. cbn [k_photon c_active]. apply In_Set_add. now right.
Qed.

(** *** The second loop of [update] *)

(** The pool after the flash branch of an entry. *)
Definition flashed (H : Host) (s : ParticleSystem.t) (r : nat) (a b : Z) (fl : bool)
    : ParticleSystem.t :=
  let '(ax, ay, az) := midpoint s a b in
  if fl then _emitFlash (fst (_spawnAnnihilationPhotons H ax ay az (s, r))) ax ay az else s.

Lemma process_entry_skip (H : Host) (s : ParticleSystem.t) (fld : QuantumField.t) (r : nat)
    (a b : Z) (fl : bool) :
  Set_has (active s) a = false ->
  process_entry H (s, fld, r) (a, b, fl) = (s, fld, r).
Proof. intros E. unfold process_entry. now rewrite E. Qed.

Lemma process_entry_live (H : Host) (s : ParticleSystem.t) (fld : QuantumField.t) (r : nat)
    (a b : Z) (fl : bool) :
  Set_has (active s) a = true ->
  fst (fst (process_entry H (s, fld, r) (a, b, fl))) = release_pair (flashed H s r a b fl) a b.
Proof.
  intros E. unfold process_entry, flashed, midpoint. rewrite E. cbn [negb].
  destruct fl; [|reflexivity].
  destruct (_spawnAnnihilationPhotons H _ _ _ (s, r)) as [s1 r1]. reflexivity.
Qed.

Lemma flashed_advances (H : Host) (s : ParticleSystem.t) (r : nat) (a b : Z) (fl : bool) :
  wf s ->
  advances (core s) (core (flashed H s r a b fl)) /\
  (forall i, In i (active s) -> In i (active (flashed H s r a b fl))).
Proof.
  intros W. unfold flashed. destruct (midpoint s a b) as [[ax ay] az].
  destruct fl; [|split; [now apply advances_refl|auto]].
  exact (spawn_photons_advances H 3 ax ay az s r W).
Qed.

Lemma process_entry_spec (H : Host) (s : ParticleSystem.t) (fld : QuantumField.t) (r : nat)
    (a b : Z) (fl : bool) :
  wf s -> entry_ok (core s) (a, b, fl) ->
  let s' := fst (fst (process_entry H (s, fld, r) (a, b, fl))) in
  advances (core s) (core s') /\ gone (core s') a /\ (b <> (-1)%Z -> gone (core s') b).
Proof.
  intros W He. cbv zeta. destruct (Set_has (active s) a) eqn:Ea.
  - rewrite process_entry_live by assumption.
    apply Set_has_In in Ea.
    destruct (flashed_advances H s r a b fl W) as (Adv & Hmono).
    destruct (release_pair_advances (flashed H s r a b fl) a b fl (proj1 Adv) (Hmono a Ea)
                (proj1 (proj2 Adv) _ He)) as (Adv' & Ga & Gb).
    split; [exact (advances_trans _ _ _ Adv Adv')|].
    split; [now left|]. intros Hb. left. now apply Gb.
  - rewrite process_entry_skip by assumption. cbn [fst].
    apply Set_has_not_In in Ea.
    split; [now apply advances_refl|]. split; [now left|].
    intros Hb. unfold entry_ok in He. destruct (Z.eqb_spec b (-1)) as [|_]; [contradiction|].
    destruct He as [(Hin & _)|(_ & Gb)]; [contradiction|assumption].
Qed.

Definition entry_done (k : Core) (e : Entry) : Prop :=
  let '(a, b, _) := e in gone k a /\ (b <> (-1)%Z -> gone k b).

Lemma entry_done_advances (k k' : Core) (e : Entry) :
  advances k k' -> entry_done k e -> entry_done k' e.
Proof.
  intros (_ & _ & G) D. destruct e as [[a b] fl]. unfold entry_done in *.
  destruct D as (Da & Db). split; auto.
Qed.

Lemma process_spec (H : Host) (es : list Entry) :
  forall (s : ParticleSystem.t) (fld : QuantumField.t) (r : nat),
  wf s -> Forall (entry_ok (core s)) es ->
  let s' := fst (fst (process H es (s, fld, r))) in
  advances (core s) (core s') /\ Forall (entry_done (core s')) es.
Proof.
  unfold process. induction es as [|e es IH]; intros s fld r W Hes; cbv zeta.
  - cbn [fold_left fst]. split; [now apply advances_refl|constructor].
  - cbn [fold_left]. destruct e as [[a b] fl].
    pose proof (process_entry_spec H s fld r a b fl W (Forall_inv Hes)) as P.
    cbv zeta in P.
    destruct (process_entry H (s, fld, r) (a, b, fl)) as [[s1 fld1] r1].
    cbn [fst] in P. destruct P as (Adv & Ga & Gb).
    assert (Hes1 : Forall (entry_ok (core s1)) es).
    { apply Forall_inv_tail in Hes. revert Hes. apply Forall_impl.
      intros e. apply (proj1 (proj2 Adv)). }
    specialize (IH s1 fld1 r1 (proj1 Adv) Hes1). cbv zeta in IH.
    destruct IH as (Adv' & Hdone).
    split; [exact (advances_trans _ _ _ Adv Adv')|].
    constructor; [|assumption].
    apply (entry_done_advances (core s1)); [assumption|]. split; assumption.
Qed.

(** *** The first loop of [update] *)

(** Within the core the first loop writes only [alpha], and only at live
    slots. *)
Definition retouched (k k' : Core) : Prop :=
  c_type k' = c_type k /\ c_ent k' = c_ent k /\ c_pair k' = c_pair k /\
  c_free k' = c_free k /\ c_active k' = c_active k /\ slots (c_alpha k') /\
  forall x, In x (c_free k) -> getQ (c_alpha k') x = getQ (c_alpha k) x.

Lemma retouched_refl (k : Core) : wf_core k -> retouched k k.
Proof. intros W. repeat split; auto. apply (wf_alpha_len k W). Qed.

Lemma retouched_trans (k k1 k2 : Core) : retouched k k1 -> retouched k1 k2 -> retouched k k2.
Proof.
  intros (T1 & E1 & P1 & F1 & A1 & L1 & H1) (T2 & E2 & P2 & F2 & A2 & L2 & H2).
  repeat split; try congruence.
  intros x Hx. rewrite H2 by (now rewrite F1). now apply H1.
Qed.

Lemma wf_retouched (k k' : Core) : wf_core k -> retouched k k' -> wf_core k'.
Proof.
  destruct k as [ty al en pw fr ac], k' as [ty' al' en' pw' fr' ac'].
  unfold retouched. cbn [c_type c_alpha c_ent c_pair c_free c_active].
  intros W (-> & -> & -> & -> & -> & L & Hal).
  destruct W as [W1 W2 W3 W4 W5 W6 W7 W8 W9 W10 W11 W12].
  constructor; try assumption.
  intros i Hi. destruct (W10 i Hi) as (R1 & R2 & R3 & R4).
  unfold released in *. cbn [c_type c_alpha c_ent c_pair] in *.
  rewrite (Hal i Hi). auto.
Qed.

Lemma entry_ok_retouched (k k' : Core) (e : Entry) :
  retouched k k' -> entry_ok k e -> entry_ok k' e.
Proof.
  destruct k as [ty al en pw fr ac], k' as [ty' al' en' pw' fr' ac'].
  unfold retouched. cbn [c_type c_alpha c_ent c_pair c_free c_active].
  intros (-> & -> & -> & -> & -> & _) He. destruct e as [[a b] fl]. exact He.
Qed.

(** The fields the motion blocks leave alone. *)
Definition same_links (s s' : ParticleSystem.t) : Prop :=
  type s' = type s /\ alpha s' = alpha s /\ entangledWith s' = entangledWith s /\
  pairWith s' = pairWith s /\ _freeList s' = _freeList s /\ active s' = active s /\
  lifetime s' = lifetime s /\ age s' = age s /\ field s' = field s.

Lemma same_links_trans (s s1 s2 : ParticleSystem.t) :
  same_links s s1 -> same_links s1 s2 -> same_links s s2.
Proof.
  unfold same_links. intros (A1 & A2 & A3 & A4 & A5 & A6 & A7 & A8 & A9)
    (B1 & B2 & B3 & B4 & B5 & B6 & B7 & B8 & B9).
  repeat split; congruence.
Qed.

Lemma higgs_force_links (dt : Q) (fld : QuantumField.t) (s : ParticleSystem.t) (i : Z) :
  same_links s (higgs_force dt fld s i).
Proof.
  unfold higgs_force. destruct (_higgsGrad _ _ _ _ _) as [[gx gy] gz].
  repeat split; reflexivity.
Qed.

Lemma apply_drag_links (s : ParticleSystem.t) (i : Z) : same_links s (apply_drag s i).
Proof. repeat split; reflexivity. Qed.

Lemma move_links (dt : Q) (s : ParticleSystem.t) (i : Z) : same_links s (move dt s i).
Proof. repeat split; reflexivity. Qed.

Lemma wrap_position_links (s : ParticleSystem.t) (i : Z) : same_links s (wrap_position s i).
Proof. repeat split; reflexivity. Qed.

Lemma motion_links (dt : Q) (fld : QuantumField.t) (s : ParticleSystem.t) (i : Z) :
  same_links s (wrap_position (move dt (apply_drag (higgs_force dt fld s i) i) i) i).
Proof.
  eapply same_links_trans; [apply higgs_force_links|].
  eapply same_links_trans; [apply apply_drag_links|].
  eapply same_links_trans; [apply move_links|apply wrap_position_links].
Qed.

Lemma fade_frame (s : ParticleSystem.t) (i : Z) :
  type (fade s i) = type s /\ entangledWith (fade s i) = entangledWith s /\
  pairWith (fade s i) = pairWith s /\ _freeList (fade s i) = _freeList s /\
  active (fade s i) = active s /\ lifetime (fade s i) = lifetime s /\
  age (fade s i) = age s /\ field (fade s i) = field s /\
  (alpha (fade s i) = alpha s \/ exists v, alpha (fade s i) = put (alpha s) i v).
Proof.
  unfold fade. cbv zeta. destruct (ltb _ _); repeat split; try reflexivity.
  - right. eexists. reflexivity.
  - now left.
Qed.

Lemma integrate_frame (dt : Q) (fld : QuantumField.t) (s : ParticleSystem.t) (i : Z) :
  let s' := integrate dt fld s i in
  type s' = type s /\ entangledWith s' = entangledWith s /\ pairWith s' = pairWith s /\
  _freeList s' = _freeList s /\ active s' = active s /\ lifetime s' = lifetime s /\
  age s' = put (age s) i (getQ (age s) i + dt) /\ field s' = field s /\
  (alpha s' = alpha s \/ exists v, alpha s' = put (alpha s) i v).
Proof.
  unfold integrate. cbv zeta.
  destruct (motion_links dt fld (grow_older dt s i) i)
    as (A1 & A2 & A3 & A4 & A5 & A6 & A7 & A8 & A9).
  destruct (fade_frame (wrap_position (move dt (apply_drag
              (higgs_force dt fld (grow_older dt s i) i) i) i) i) i)
    as (B1 & B2 & B3 & B4 & B5 & B6 & B7 & B9 & B8).
  rewrite B1, B2, B3, B4, B5, B6, B7, B9, A1, A3, A4, A5, A6, A7, A8, A9.
  repeat split; try reflexivity.
  destruct B8 as [->|(v & ->)]; rewrite A2; [now left|right; now exists v].
Qed.

Lemma integrate_retouched (dt : Q) (fld : QuantumField.t) (s : ParticleSystem.t) (i : Z) :
  wf s -> In i (active s) -> retouched (core s) (core (integrate dt fld s i)).
Proof.
  intros W Hi.
  destruct (integrate_frame dt fld s i) as (Et & Ee & Ep & Ef & Ea & _ & _ & _ & Eal).
  unfold retouched, core. cbn [c_type c_alpha c_ent c_pair c_free c_active].
  repeat split; try assumption.
  - destruct Eal as [->|(v & ->)]; [|apply slots_put]; apply (wf_alpha_len _ W).
  - intros x Hx. destruct Eal as [->|(v & ->)]; [reflexivity|].
    apply get_put_other. intros <-. now apply (wf_disjoint _ W i).
Qed.

(** What one iteration of the first loop guarantees. *)
Definition scanned (dt : Q) (l : list Z) (s : ParticleSystem.t) (es : list Entry)
    (st' : ParticleSystem.t * list Entry) : Prop :=
  retouched (core s) (core (fst st')) /\
  Forall (entry_ok (core (fst st'))) (snd st') /\
  (exists new, snd st' = es ++ new) /\
  lifetime (fst st') = lifetime s /\
  (forall x, ~ In x l -> getQ (age (fst st')) x = getQ (age s) x) /\
  List.length (age (fst st')) = List.length (age s) /\
  field (fst st') = field s.

Lemma live_pair (k : Core) (i : Z) :
  wf_core k -> In i (c_active k) -> getZ (c_pair k) i <> (-1)%Z ->
  intact k i (getZ (c_pair k) i).
Proof.
  intros W Hi Hp. destruct (wf_sym k W i Hi Hp) as (Hq & Hback).
  repeat split; auto.
Qed.

Lemma scan_slot_spec (dt : Q) (fld : QuantumField.t) (s : ParticleSystem.t)
    (es : list Entry) (i : Z) :
  wf s -> In i (active s) -> Forall (entry_ok (core s)) es ->
  scanned dt [i] s es (scan_slot dt fld (s, es) i).
Proof.
  intros W Hi Hes. unfold scan_slot.
  destruct (getZ (type s) i =? TYPE_INACTIVE)%Z.
  { unfold scanned. cbn [fst snd]. split; [now apply retouched_refl|].
    split; [assumption|]. split; [exists []; now rewrite app_nil_r|]. auto. }
  cbv zeta.
  pose proof (integrate_retouched dt fld s i W Hi) as R.
  pose proof (wf_retouched _ _ W R) as W1.
  destruct (integrate_frame dt fld s i) as (Et & Ee & Ep & Ef & Ea & El & Eg & Efd & _).
  assert (Hi1 : In i (c_active (core (integrate dt fld s i)))).
  { cbn [core c_active]. now rewrite Ea. }
  assert (Hes1 : Forall (entry_ok (core (integrate dt fld s i))) es).
  { revert Hes. apply Forall_impl. intros e. now apply entry_ok_retouched. }
  assert (Hage : forall x, ~ In x [i] ->
            getQ (age (integrate dt fld s i)) x = getQ (age s) x).
  { intros x Hx. rewrite Eg. apply get_put_other. intros <-. apply Hx. now left. }
  assert (Hlen : List.length (age (integrate dt fld s i)) = List.length (age s)).
  { rewrite Eg. apply length_put. }
  assert (Done : forall new, Forall (entry_ok (core (integrate dt fld s i))) new ->
            scanned dt [i] s es (integrate dt fld s i, es ++ new)).
  { intros new Hnew. unfold scanned. cbn [fst snd]. split; [assumption|].
    split; [apply Forall_app; now split|]. split; [now exists new|]. auto. }
  assert (Same : scanned dt [i] s es (integrate dt fld s i, es)).
  { rewrite <- (app_nil_r es) at 2. apply Done. constructor. }
  remember (integrate dt fld s i) as s1 eqn:Es1. clear Es1.
  destruct (geb (getQ (age s1) i) (getQ (lifetime s1) i)).
  - destruct (negb (getZ (entangledWith s1) i =? -1)%Z &&
              Set_has (active s1) (getZ (entangledWith s1) i)) eqn:Eb.
    + apply Done. constructor; [|constructor].
      apply andb_true_iff in Eb. destruct Eb as (Np & Hp).
      apply negb_true_iff in Np. unfold entry_ok. rewrite Np. left.
      apply Z.eqb_neq in Np.
      change (getZ (entangledWith s1) i) with (getZ (c_ent (core s1)) i) in *.
      rewrite (wf_ent _ W1 i Hi1) in *. now apply live_pair.
    + apply Done. constructor; [|constructor].
      unfold entry_ok. cbn [Z.eqb Pos.eqb]. intros _.
      apply andb_false_iff in Eb.
      change (getZ (entangledWith s1) i) with (getZ (c_ent (core s1)) i) in Eb.
      rewrite (wf_ent _ W1 i Hi1) in Eb.
      destruct Eb as [Eb|Eb].
      * apply negb_false_iff in Eb. now apply Z.eqb_eq.
      * apply Set_has_not_In in Eb.
        destruct (Z.eq_dec (getZ (c_pair (core s1)) i) (-1)) as [E|E]; [assumption|].
        elim Eb. apply (wf_sym _ W1 i Hi1 E).
  - destruct (negb (getZ (pairWith s1) i =? -1)%Z && (i <? getZ (pairWith s1) i)%Z &&
              Set_has (active s1) (getZ (pairWith s1) i)) eqn:Eb; [|exact Same].
    cbv zeta. destruct (ltb _ _); [|exact Same].
    apply Done. constructor; [|constructor].
    apply andb_true_iff in Eb. destruct Eb as (Eb & _).
    apply andb_true_iff in Eb. destruct Eb as (Np & _).
    apply negb_true_iff in Np. unfold entry_ok. rewrite Np. left.
    apply Z.eqb_neq in Np. now apply (live_pair (core s1)).
Qed.

Lemma scan_fold (dt : Q) (fld : QuantumField.t) (l : list Z) :
  forall (s : ParticleSystem.t) (es : list Entry),
  wf s -> (forall x, In x l -> In x (active s)) -> Forall (entry_ok (core s)) es ->
  scanned dt l s es (fold_left (scan_slot dt fld) l (s, es)).
Proof.
  induction l as [|i l IH]; intros s es W Hl Hes.
  - cbn [fold_left]. unfold scanned. cbn [fst snd]. split; [now apply retouched_refl|].
    split; [assumption|]. split; [exists []; now rewrite app_nil_r|]. auto.
  - cbn [fold_left].
    pose proof (scan_slot_spec dt fld s es i W (Hl i (or_introl eq_refl)) Hes) as S1.
    destruct (scan_slot dt fld (s, es) i) as [s1 es1].
    destruct S1 as (R1 & Hes1 & (new1 & En1) & El1 & Ha1 & Hn1 & Hf1). cbn [fst snd] in *.
    pose proof (wf_retouched _ _ W R1) as W1.
    assert (Hl1 : forall x, In x l -> In x (active s1)).
    { intros x Hx. destruct R1 as (_ & _ & _ & _ & Ea & _).
      cbn [core c_active] in Ea. rewrite Ea. apply Hl. now right. }
    specialize (IH s1 es1 W1 Hl1 Hes1).
    destruct IH as (R2 & Hes2 & (new2 & En2) & El2 & Ha2 & Hn2 & Hf2).
    unfold scanned. split; [exact (retouched_trans _ _ _ R1 R2)|].
    split; [assumption|].
    split; [exists (new1 ++ new2); now rewrite En2, En1, app_assoc|].
    split; [congruence|]. split; [|split; congruence].
    intros x Hx. rewrite Ha2 by (intro; apply Hx; now right).
    apply Ha1. intros [<-|[]]. apply Hx. now left.
Qed.

Lemma scan_spec (dt : Q) (fld : QuantumField.t) (s : ParticleSystem.t) :
  wf s -> scanned dt (active s) s [] (scan dt fld s).
Proof. intros W. unfold scan. apply scan_fold; auto. Qed.

(** *** Natural death in the first loop *)




(** *** Annihilation entries of the first loop *)






(** *** Exactly which slots the photons take *)





(** *** [spawnPair] *)

Definition k_pair (k : Core) (a b tA tB : Z) (rest : list Z) : Core :=
  mkCore (put (put (c_type k) a (ToUint8 tA)) b (ToUint8 tB))
         (put (put (c_alpha k) a 1.0) b 1.0)
         (put (put (c_ent k) a (ToInt16 b)) b (ToInt16 a))
         (put (put (c_pair k) a (ToInt16 b)) b (ToInt16 a))
         rest (Set_add (Set_add (c_active k) a) b).

Lemma setColor_links (s : ParticleSystem.t) (i ty : Z) : same_links s (_setColor s i ty).
Proof. unfold _setColor. repeat destruct (_ =? _)%Z; repeat split; reflexivity. Qed.

Lemma spawn_init_frame (H : Host) (cx cy cz vox voy voz l j : Q) (s : ParticleSystem.t)
    (r : nat) (idx ty : Z) (sv : Q) :
  let s' := spawn_init H (cx, cy, cz) (vox, voy, voz) l j s r idx ty sv in
  type s' = put (type s) idx (ToUint8 ty) /\ alpha s' = put (alpha s) idx 1.0 /\
  entangledWith s' = entangledWith s /\ pairWith s' = pairWith s /\
  _freeList s' = _freeList s /\ active s' = active s /\
  lifetime s' = put (lifetime s) idx l /\ age s' = put (age s) idx 0 /\
  field s' = field s.
Proof.
  unfold spawn_init. cbv zeta.
  destruct (setColor_links (spawn_write H (cx, cy, cz) (vox, voy, voz) l j s r idx ty sv) idx ty)
    as (A1 & A2 & A3 & A4 & A5 & A6 & A7 & A8 & A9).
  rewrite A1, A2, A3, A4, A5, A6, A7, A8, A9. repeat split; reflexivity.
Qed.

(** The four assignments that close [spawnPair]. *)
Lemma link_frame (s : ParticleSystem.t) (a b x y : Z) :
  let s1 := set_pairWith (put (pairWith s) a x) s in
  let s2 := set_pairWith (put (pairWith s1) b y) s1 in
  let s3 := set_entangledWith (put (entangledWith s2) a x) s2 in
  let s' := set_entangledWith (put (entangledWith s3) b y) s3 in
  core s' = mkCore (type s) (alpha s) (put (put (entangledWith s) a x) b y)
                   (put (put (pairWith s) a x) b y) (_freeList s) (active s) /\
  age s' = age s /\ lifetime s' = lifetime s /\ field s' = field s.
Proof. repeat split; reflexivity. Qed.

Lemma spawnPair_unwired (H : Host) (fld : QuantumField.t) (tA tB : Z)
    (s : ParticleSystem.t) (r : nat) :
  field s = false -> spawnPair H fld tA tB (s, r) = None.
Proof. intros E. unfold spawnPair, _sampleHotspot. now rewrite E. Qed.

Lemma hotspot_try_draws (H : Host) (fld : QuantumField.t) (st : Q * (Z * Z * Z) * nat)
    (k : Z) :
  snd (hotspot_try H fld st k) = (3 + snd st)%nat.
Proof.
  destruct st as [[e b] n]. unfold hotspot_try.
  match goal with |- context [gtb ?x ?y] => destruct (gtb x y) end; reflexivity.
Qed.

Lemma hotspot_draws (H : Host) (fld : QuantumField.t) (l : list Z) :
  forall st : Q * (Z * Z * Z) * nat,
  snd (fold_left (hotspot_try H fld) l st) = (3 * List.length l + snd st)%nat.
Proof.
  induction l as [|k l IH]; intros st; [reflexivity|].
  cbn [fold_left]. rewrite IH, hotspot_try_draws. cbn [List.length]. lia.
Qed.

Lemma sampleHotspot_wired (H : Host) (fld : QuantumField.t) (s : ParticleSystem.t) (r : nat) :
  field s = true ->
  exists cx cy cz, _sampleHotspot H s fld r = Some (cx, cy, cz, (24 + r)%nat).
Proof.
  intros E. unfold _sampleHotspot. rewrite E.
  generalize (hotspot_draws H fld (upto 8) (-1, (0, 0, 0)%Z, r)).
  replace (3 * List.length (upto 8))%nat with 24%nat by reflexivity.
  generalize (upto 8). intros l Hr.
  destruct (fold_left (hotspot_try H fld) l (-1, (0, 0, 0)%Z, r)) as [[e [[bx by_] bz]] n].
  cbn [snd] in Hr. subst n. do 3 eexists. reflexivity.
Qed.

Lemma t_ext (s s' : ParticleSystem.t) :
  px s = px s' -> py s = py s' -> pz s = pz s' -> vx s = vx s' -> vy s = vy s' ->
  vz s = vz s' -> colorR s = colorR s' -> colorG s = colorG s' -> colorB s = colorB s' ->
  size s = size s' -> alpha s = alpha s' -> type s = type s' -> age s = age s' ->
  lifetime s = lifetime s' -> entangledWith s = entangledWith s' ->
  pairWith s = pairWith s' -> _freeList s = _freeList s' -> active s = active s' ->
  annihilationFlashes s = annihilationFlashes s' -> _flashHead s = _flashHead s' ->
  _spawnAccum s = _spawnAccum s' -> field s = field s' ->
  injectionRate s = injectionRate s' -> s = s'.
Proof.
  destruct s, s'. cbn. intros. subst. reflexivity.
Qed.

Lemma free_undoes_alloc (s : ParticleSystem.t) (a : Z) (rest : list Z) :
  wf s -> _freeList s = a :: rest ->
  _free (set_active (Set_add (active s) a) (set_freeList rest s)) a = s.
Proof.
  intros W E.
  assert (Hin : In a (c_free (core s))) by (cbn [core c_free]; rewrite E; now left).
  destruct (wf_released _ W a Hin) as (R1 & R2 & R3 & R4).
  assert (Hna : ~ In a (active s)).
  { intro Ha. exact (wf_disjoint _ W a Ha Hin). }
  cbn [core c_type c_alpha c_ent c_pair] in R1, R2, R3, R4.
  apply t_ext; try reflexivity.
  - change (put (alpha s) a 0 = alpha s). exact (put_get _ _ _ _ R2).
  - change (put (type s) a TYPE_INACTIVE = type s). exact (put_get _ _ _ _ R1).
  - change (put (entangledWith s) a (-1)%Z = entangledWith s). exact (put_get _ _ _ _ R3).
  - change (put (pairWith s) a (-1)%Z = pairWith s). exact (put_get _ _ _ _ R4).
  - change (a :: rest = _freeList s). now rewrite E.
  - change (Set_delete (Set_add (active s) a) a = active s). now apply Set_delete_add.
Qed.

(** With fewer than two free slots the call changes nothing in the pool. *)
Lemma spawnPair_full (H : Host) (fld : QuantumField.t) (tA tB : Z)
    (s : ParticleSystem.t) (r : nat) :
  wf s -> field s = true -> (List.length (_freeList s) < 2)%nat ->
  spawnPair H fld tA tB (s, r) = Some (s, (24 + r)%nat).
Proof.
  intros W Ef Hlen. unfold spawnPair.
  destruct (sampleHotspot_wired H fld s r Ef) as (cx & cy & cz & ->). cbn [bind].
  destruct (_freeList s) as [|a [|b rest]] eqn:E; [| |cbn [List.length] in Hlen; lia].
  - rewrite (alloc_nil s E). rewrite (alloc_nil s E). reflexivity.
  - rewrite (alloc_cons s a [] E).
    rewrite (alloc_nil (set_active (Set_add (active s) a) (set_freeList [] s)) eq_refl).
    assert (Sa : slot a).
    { apply (wf_free_slot _ W). cbn [core c_free]. rewrite E. now left. }
    destruct (Z.eqb_spec a (-1)) as [Em|_]; [unfold slot in Sa; lia|].
    cbn [orb negb Z.eqb Pos.eqb]. now rewrite (free_undoes_alloc s a [] W E).
Qed.

Lemma spawnPair_room (H : Host) (fld : QuantumField.t) (tA tB : Z)
    (s : ParticleSystem.t) (r : nat) (a b : Z) (rest : list Z) :
  wf s -> field s = true -> _freeList s = a :: b :: rest ->
  exists s' l,
    spawnPair H fld tA tB (s, r) = Some (s', (34 + r)%nat) /\
    core s' = k_pair (core s) a b tA tB rest /\
    age s' = put (put (age s) a 0) b 0 /\
    lifetime s' = put (put (lifetime s) a l) b l /\
    field s' = true.
Proof.
  intros W Ef E. unfold spawnPair.
  destruct (sampleHotspot_wired H fld s r Ef) as (cx & cy & cz & ->). cbn [bind].
  assert (Sa : slot a).
  { apply (wf_free_slot _ W). cbn [core c_free]. rewrite E. now left. }
  assert (Sb : slot b).
  { apply (wf_free_slot _ W). cbn [core c_free]. rewrite E. right. now left. }
  rewrite (alloc_cons s a (b :: rest) E).
  rewrite (alloc_cons (set_active (Set_add (active s) a) (set_freeList (b :: rest) s))
             b rest eq_refl).
  destruct (Z.eqb_spec a (-1)) as [Em|_]; [unfold slot in Sa; lia|].
  destruct (Z.eqb_spec b (-1)) as [Em|_]; [unfold slot in Sb; lia|].
  cbn [orb]. cbv zeta.
  match goal with
  | |- context [spawn_init H (?c1, ?c2, ?c3) (?v1, ?v2, ?v3) ?l ?j ?s0 ?r0 a tA ?sv] =>
      pose proof (spawn_init_frame H c1 c2 c3 v1 v2 v3 l j s0 r0 a tA sv) as Fa;
      cbv zeta in Fa;
      remember (spawn_init H (c1, c2, c3) (v1, v2, v3) l j s0 r0 a tA sv) as sa eqn:Esa;
      clear Esa; destruct Fa as (A1 & A2 & A3 & A4 & A5 & A6 & A7 & A8 & A9)
  end.
  match goal with
  | |- context [spawn_init H (?c1, ?c2, ?c3) (?v1, ?v2, ?v3) ?l ?j sa ?r0 b tB ?sv] =>
      pose proof (spawn_init_frame H c1 c2 c3 v1 v2 v3 l j sa r0 b tB sv) as Fb;
      cbv zeta in Fb;
      remember (spawn_init H (c1, c2, c3) (v1, v2, v3) l j sa r0 b tB sv) as sb eqn:Esb;
      clear Esb; destruct Fb as (B1 & B2 & B3 & B4 & B5 & B6 & B7 & B8 & B9);
      eexists; exists l
  end.
  split; [reflexivity|].
  destruct (link_frame sb a b (ToInt16 b) (ToInt16 a)) as (Ec & Ea & El & Efd).
  cbv zeta in Ec, Ea, El, Efd. rewrite Ec, Ea, El, Efd.
  rewrite B1, B2, B3, B4, B5, B6, B7, B8, B9, A1, A2, A3, A4, A5, A6, A7, A8, A9.
  repeat split; try reflexivity. exact Ef.
Qed.


Lemma pair_allocated (k : Core) (a b tA tB : Z) (rest : list Z) :
  wf_core k -> c_free k = a :: b :: rest ->
  allocated (fun x => a = x \/ b = x) k (k_pair k a b tA tB rest).
Proof.
  intros W E.
  assert (Sa : slot a) by (apply (wf_free_slot k W); rewrite E; now left).
  assert (Sb : slot b) by (apply (wf_free_slot k W); rewrite E; right; now left).
  pose proof (wf_free_nodup k W) as Hnd. rewrite E in Hnd.
  inversion Hnd as [|? ? Hna Hnd1]; subst. inversion Hnd1 as [|? ? Hnb Hnd2]; subst.
  assert (Hab : a <> b) by (intros ->; apply Hna; now left).
  assert (Ia : ToInt16 a = a) by (apply ToInt16_small; unfold slot, MAX in Sa; lia).
  assert (Ib : ToInt16 b = b) by (apply ToInt16_small; unfold slot, MAX in Sb; lia).
  pose proof (wf_type_len k W) as L1. pose proof (wf_alpha_len k W) as L2.
  pose proof (wf_ent_len k W) as L3. pose proof (wf_pair_len k W) as L4.
  assert (Pa : getZ (c_pair (k_pair k a b tA tB rest)) a = b).
  { cbn [k_pair c_pair]. rewrite Ia, Ib.
    rewrite getZ_put_slot by (auto using slots_put).
    destruct (Z.eqb_spec b a) as [->|_]; [congruence|].
    rewrite getZ_put_slot by auto. now rewrite Z.eqb_refl. }
  assert (Pb : getZ (c_pair (k_pair k a b tA tB rest)) b = a).
  { cbn [k_pair c_pair]. rewrite Ia, Ib.
    rewrite getZ_put_slot by (auto using slots_put). now rewrite Z.eqb_refl. }
  assert (Ea : getZ (c_ent (k_pair k a b tA tB rest)) a = b).
  { cbn [k_pair c_ent]. rewrite Ia, Ib.
    rewrite getZ_put_slot by (auto using slots_put).
    destruct (Z.eqb_spec b a) as [->|_]; [congruence|].
    rewrite getZ_put_slot by auto. now rewrite Z.eqb_refl. }
  assert (Eb : getZ (c_ent (k_pair k a b tA tB rest)) b = a).
  { cbn [k_pair c_ent]. rewrite Ia, Ib.
    rewrite getZ_put_slot by (auto using slots_put). now rewrite Z.eqb_refl. }
  constructor.
  - unfold same_lengths. cbn [k_pair c_type c_alpha c_ent c_pair].
    repeat split; repeat apply slots_put; assumption.
  - intros x. cbn [k_pair c_active]. rewrite !In_Set_add. intuition congruence.
  - intros x. cbn [k_pair c_free]. rewrite E. simpl. split.
    + intros Hx. split; [auto|]. intros [<-|<-]; [apply Hna; now right|contradiction].
    + intros ([Hx|[Hx|Hx]] & Hne); [elim Hne; auto|elim Hne; auto|assumption].
  - cbn [k_pair c_active]. apply NoDup_Set_add, NoDup_Set_add, (wf_active_nodup k W).
  - exact Hnd2.
  - intros x [<-|<-]; rewrite E; [now left|right; now left].
  - intros x [<-|<-]; congruence.
  - intros x [<-|<-] _.
    + rewrite Pa. split; [now right|assumption].
    + rewrite Pb. split; [now left|assumption].
  - intros x Hx. unfold same_at. cbn [k_pair c_type c_alpha c_ent c_pair].
    unfold getZ, getQ. rewrite !get_put_other by (intro; apply Hx; auto). auto.
Qed.

(** [s'] is [s] after some free slots were handed out: the pool is still
    well formed and the slots that were live keep what the first loop of
    [update] reads. *)
Definition grows (s s' : ParticleSystem.t) : Prop :=
  wf s' /\ field s' = field s /\ List.length (age s') = List.length (age s) /\
  forall x, In x (active s) ->
    In x (active s') /\ getZ (type s') x = getZ (type s) x /\
    getZ (entangledWith s') x = getZ (entangledWith s) x /\
    getQ (age s') x = getQ (age s) x /\ getQ (lifetime s') x = getQ (lifetime s) x.

Lemma grows_refl (s : ParticleSystem.t) : wf s -> grows s s.
Proof.
  intros W. split; [assumption|]. split; [reflexivity|]. split; [reflexivity|].
  intros x Hx. repeat split; assumption.
Qed.

Lemma grows_trans (s s1 s2 : ParticleSystem.t) : grows s s1 -> grows s1 s2 -> grows s s2.
Proof.
  intros (W1 & F1 & L1 & H1) (W2 & F2 & L2 & H2).
  split; [assumption|]. split; [congruence|]. split; [congruence|].
  intros x Hx. destruct (H1 x Hx) as (A1 & B1 & C1 & D1 & E1).
  destruct (H2 x A1) as (A2 & B2 & C2 & D2 & E2).
  repeat split; congruence.
Qed.

Lemma spawnPair_ok (H : Host) (fld : QuantumField.t) (tA tB : Z)
    (s : ParticleSystem.t) (r : nat) :
  wf s -> field s = true ->
  exists s' r', spawnPair H fld tA tB (s, r) = Some (s', r') /\ grows s s'.
Proof.
  intros W Ef. destruct (_freeList s) as [|a [|b rest]] eqn:E.
  - exists s, (24 + r)%nat. split; [|now apply grows_refl].
    apply spawnPair_full; auto. rewrite E. cbn. lia.
  - exists s, (24 + r)%nat. split; [|now apply grows_refl].
    apply spawnPair_full; auto. rewrite E. cbn. lia.
  - destruct (spawnPair_room H fld tA tB s r a b rest W Ef E)
      as (s' & l & Es & Ec & Eage & Elt & Ef').
    exists s', (34 + r)%nat. split; [assumption|].
    pose proof (pair_allocated (core s) a b tA tB rest W E) as Al. rewrite <- Ec in Al.
    assert (Hdec : forall x, (a = x \/ b = x) \/ ~ (a = x \/ b = x)).
    { intros x. destruct (Z.eq_dec a x); destruct (Z.eq_dec b x); tauto. }
    split; [exact (wf_allocated _ _ _ Hdec W Al)|].
    split; [congruence|].
    split; [rewrite Eage; now rewrite !length_put|].
    intros x Hx.
    assert (Hne : ~ (a = x \/ b = x)).
    { intros Hab. apply (wf_disjoint _ W x Hx). apply (al_from_free _ _ _ Al x Hab). }
    destruct (al_same _ _ _ Al x Hne) as (S1 & _ & S3 & _).
    split; [apply (al_active _ _ _ Al x); now left|].
    split; [exact S1|]. split; [exact S3|].
    rewrite Eage, Elt. unfold getQ.
    rewrite !get_put_other by (intro; apply Hne; auto). auto.
Qed.

Lemma spawnPair_grows (H : Host) (fld : QuantumField.t) (tA tB : Z)
    (s s' : ParticleSystem.t) (r r' : nat) :
  wf s -> spawnPair H fld tA tB (s, r) = Some (s', r') -> grows s s'.
Proof.
  intros W E. destruct (field s) eqn:Ef.
  - destruct (spawnPair_ok H fld tA tB s r W Ef) as (s1 & r1 & E1 & G).
    rewrite E1 in E. apply some_eq in E. apply pair_eq in E. destruct E as (<- & _).
    exact G.
  - rewrite (spawnPair_unwired H fld tA tB s r Ef) in E. discriminate.
Qed.

(** *** The injection loop *)

Lemma grows_spawnAccum (s : ParticleSystem.t) (v : Q) : wf s -> grows s (set_spawnAccum v s).
Proof.
  intros W. split; [exact W|]. split; [reflexivity|]. split; [reflexivity|].
  intros x Hx. repeat split; assumption.
Qed.

Lemma inject_loop_ok (H : Host) (fld : QuantumField.t) (fuel : nat) :
  forall (s : ParticleSystem.t) (r : nat),
  wf s -> field s = true ->
  exists s' r', inject_loop H fld fuel (s, r) = Some (s', r') /\ grows s s'.
Proof.
  induction fuel as [|fuel IH]; intros s r W Ef.
  - exists s, r. split; [reflexivity|now apply grows_refl].
  - cbn [inject_loop]. destruct (geb (_spawnAccum s) 1.0).
    + cbv zeta.
      pose proof (grows_spawnAccum s (_spawnAccum s - 1.0) W) as G0.
      assert (Step : forall tA tB, exists s' r',
                bind (spawnPair H fld tA tB (set_spawnAccum (_spawnAccum s - 1.0) s, S r))
                     (inject_loop H fld fuel) = Some (s', r') /\ grows s s').
      { intros tA tB.
        destruct (spawnPair_ok H fld tA tB (set_spawnAccum (_spawnAccum s - 1.0) s) (S r)
                    (proj1 G0) Ef) as (s1 & r1 & E1 & G1).
        rewrite E1. cbn [bind].
        destruct (IH s1 r1 (proj1 G1)) as (s2 & r2 & E2 & G2).
        { destruct G1 as (_ & F1 & _). rewrite F1. exact Ef. }
        exists s2, r2. split; [assumption|].
        exact (grows_trans _ _ _ G0 (grows_trans _ _ _ G1 G2)). }
      destruct (ltb (random H r) 0.5); [apply Step|].
      destruct (ltb (random H r) 0.8); apply Step.
    + exists s, r. split; [reflexivity|now apply grows_refl].
Qed.

Lemma inject_loop_grows (H : Host) (fld : QuantumField.t) (fuel : nat) :
  forall (s s' : ParticleSystem.t) (r r' : nat),
  wf s -> inject_loop H fld fuel (s, r) = Some (s', r') -> grows s s'.
Proof.
  intros s s' r r' W E. destruct (field s) eqn:Ef.
  - destruct (inject_loop_ok H fld fuel s r W Ef) as (s1 & r1 & E1 & G).
    rewrite E1 in E. apply some_eq in E. apply pair_eq in E. destruct E as (<- & _).
    exact G.
  - destruct fuel as [|fuel].
    + cbn [inject_loop] in E. apply some_eq in E. apply pair_eq in E.
      destruct E as (<- & _). now apply grows_refl.
    + cbn [inject_loop] in E. destruct (geb (_spawnAccum s) 1.0).
      * cbv zeta in E.
        rewrite !(spawnPair_unwired H fld _ _ (set_spawnAccum (_spawnAccum s - 1.0) s) (S r) Ef)
          in E.
        cbn [bind] in E. destruct (ltb _ _); [discriminate|].
        destruct (ltb _ _); discriminate.
      * apply some_eq in E. apply pair_eq in E. destruct E as (<- & _).
        now apply grows_refl.
Qed.

(** The fuel of the injection loop is enough: when the loop returns, its
    condition [_spawnAccum >= 1.0] is false. *)
Lemma spawn_init_spawnAccum (H : Host) (cx cy cz vox voy voz l j : Q) (s : ParticleSystem.t)
    (r : nat) (idx ty : Z) (sv : Q) :
  _spawnAccum (spawn_init H (cx, cy, cz) (vox, voy, voz) l j s r idx ty sv) = _spawnAccum s.
Proof. unfold spawn_init, _setColor. repeat destruct (_ =? _)%Z; reflexivity. Qed.

Lemma spawnPair_spawnAccum (H : Host) (fld : QuantumField.t) (tA tB : Z)
    (s s' : ParticleSystem.t) (r r' : nat) :
  spawnPair H fld tA tB (s, r) = Some (s', r') -> _spawnAccum s' = _spawnAccum s.
Proof.
  unfold spawnPair. destruct (_sampleHotspot H s fld r) as [[[[cx cy] cz] r1]|]; [|discriminate].
  cbn [bind].
  assert (Al : forall u, _spawnAccum (fst (_alloc u)) = _spawnAccum u).
  { intros u. unfold _alloc. destruct (_freeList u); reflexivity. }
  pose proof (Al s) as A1. destruct (_alloc s) as [s1 a]. cbn [fst] in A1.
  pose proof (Al s1) as A2. destruct (_alloc s1) as [s2 b]. cbn [fst] in A2.
  destruct ((a =? -1)%Z || (b =? -1)%Z).
  - cbv zeta. intros E. apply some_eq, pair_eq in E. destruct E as (<- & _).
    destruct (negb (a =? -1)%Z), (negb (b =? -1)%Z);
      repeat change (_spawnAccum (_free ?x ?y)) with (_spawnAccum x); congruence.
  - cbv zeta. intros E. apply some_eq, pair_eq in E. destruct E as (<- & _).
    cbn [_spawnAccum set_entangledWith set_pairWith].
    rewrite !spawn_init_spawnAccum. congruence.
Qed.

Lemma inject_loop_exit (H : Host) (fld : QuantumField.t) (fuel : nat) :
  forall (s s' : ParticleSystem.t) (r r' : nat),
  inject_loop H fld fuel (s, r) = Some (s', r') ->
  _spawnAccum s < inject_Z (Z.of_nat fuel) + 1 -> _spawnAccum s' < 1.
Proof.
  induction fuel as [|fuel IH]; intros s s' r r' E Hlt.
  - cbn [inject_loop] in E. apply some_eq, pair_eq in E. destruct E as (<- & _).
    now rewrite Qplus_0_l in Hlt.
  - cbn [inject_loop] in E. destruct (geb (_spawnAccum s) 1.0) eqn:Eg.
    + cbv zeta in E.
      assert (Step : forall tA tB,
                bind (spawnPair H fld tA tB (set_spawnAccum (_spawnAccum s - 1.0) s, S r))
                     (inject_loop H fld fuel) = Some (s', r') -> _spawnAccum s' < 1).
      { intros tA tB Eb.
        destruct (spawnPair H fld tA tB (set_spawnAccum (_spawnAccum s - 1.0) s, S r))
          as [[s1 r1]|] eqn:Es; [|discriminate].
        cbn [bind] in Eb. apply (IH _ _ _ _ Eb).
        rewrite (spawnPair_spawnAccum _ _ _ _ _ _ _ _ Es).
        change (_spawnAccum (set_spawnAccum ?v ?x)) with v.
        rewrite Nat2Z.inj_succ, <- Z.add_1_r, inject_Z_plus in Hlt.
        change (inject_Z 1) with 1 in Hlt. lra. }
      destruct (ltb (random H r) 0.5); [exact (Step _ _ E)|].
      destruct (ltb (random H r) 0.8); exact (Step _ _ E).
    + apply some_eq, pair_eq in E. destruct E as (<- & _). apply geb_lt in Eg. lra.
Qed.

Lemma inject_exit (H : Host) (dt : Q) (fld : QuantumField.t) (s s' : ParticleSystem.t)
    (r r' : nat) :
  inject H dt fld (s, r) = Some (s', r') -> _spawnAccum s' < 1.
Proof.
  unfold inject. cbv zeta. intros E. apply (inject_loop_exit _ _ _ _ _ _ _ E).
  change (_spawnAccum (set_spawnAccum ?v ?x)) with v.
  pose proof (Qlt_floor (_spawnAccum s + injectionRate s * dt)) as Hf.
  rewrite inject_Z_plus in Hf. change (inject_Z 1) with 1 in Hf.
  destruct (Z_lt_dec (Qfloor (_spawnAccum s + injectionRate s * dt)) 0) as [Hn|Hn].
  - replace (Z.to_nat (Qfloor (_spawnAccum s + injectionRate s * dt))) with 0%nat by lia.
    change (inject_Z (Z.of_nat 0)) with 0.
    assert (Hq : inject_Z (Qfloor (_spawnAccum s + injectionRate s * dt)) <= 0).
    { change 0 with (inject_Z 0). rewrite <- Zle_Qle. lia. }
    lra.
  - rewrite Z2Nat.id by lia. exact Hf.
Qed.


Lemma inject_grows (H : Host) (dt : Q) (fld : QuantumField.t) (s s' : ParticleSystem.t)
    (r r' : nat) :
  wf s -> inject H dt fld (s, r) = Some (s', r') -> grows s s'.
Proof.
  intros W E. unfold inject in E. cbv zeta in E.
  pose proof (grows_spawnAccum s (_spawnAccum s + injectionRate s * dt) W) as G0.
  exact (grows_trans _ _ _ G0 (inject_loop_grows H fld _ _ _ _ _ (proj1 G0) E)).
Qed.

(** *** [update] as a whole *)

Lemma spawn_photons_field (H : Host) (n : nat) (x y z : Q) :
  forall (s : ParticleSystem.t) (r : nat),
  field (fst (spawn_photons H n x y z (s, r))) = field s.
Proof.
  induction n as [|n IH]; intros s r; [reflexivity|].
  cbn [spawn_photons]. destruct (_freeList s) as [|idx rest] eqn:E.
  - rewrite (alloc_nil s E). reflexivity.
  - rewrite (alloc_cons s idx rest E). destruct (idx =? -1)%Z; [reflexivity|].
    rewrite IH. reflexivity.
Qed.

Lemma release_pair_field (s : ParticleSystem.t) (a b : Z) :
  field (release_pair s a b) = field s.
Proof. unfold release_pair. cbv zeta. destruct (_ && _); reflexivity. Qed.

Lemma flashed_field (H : Host) (s : ParticleSystem.t) (r : nat) (a b : Z) (fl : bool) :
  field (flashed H s r a b fl) = field s.
Proof.
  unfold flashed. destruct (midpoint s a b) as [[ax ay] az]. destruct fl; [|reflexivity].
  exact (spawn_photons_field H 3 ax ay az s r).
Qed.

Lemma process_entry_field (H : Host) (s : ParticleSystem.t) (fld : QuantumField.t) (r : nat)
    (e : Entry) :
  field (fst (fst (process_entry H (s, fld, r) e))) = field s.
Proof.
  destruct e as [[a b] fl]. destruct (Set_has (active s) a) eqn:Ea.
  - rewrite process_entry_live by assumption. now rewrite release_pair_field, flashed_field.
  - now rewrite process_entry_skip by assumption.
Qed.

Lemma process_field (H : Host) (es : list Entry) :
  forall (s : ParticleSystem.t) (fld : QuantumField.t) (r : nat),
  field (fst (fst (process H es (s, fld, r)))) = field s.
Proof.
  unfold process. induction es as [|e es IH]; intros s fld r; [reflexivity|].
  cbn [fold_left]. pose proof (process_entry_field H s fld r e) as F.
  destruct (process_entry H (s, fld, r) e) as [[s1 fld1] r1]. cbn [fst] in F.
  now rewrite IH.
Qed.

(** The three stages of [update], once the injection loop has returned. *)
Definition after_inject (H : Host) (dt : Q) (fld : QuantumField.t) (s1 : ParticleSystem.t)
    (r1 : nat) : ParticleSystem.t * QuantumField.t * nat :=
  let st := process H (snd (scan dt fld s1)) (fst (scan dt fld s1), fld, r1) in
  (age_flashes dt (fst (fst st)), snd (fst st), snd st).

Lemma update_stages (H : Host) (dt : Q) (s : ParticleSystem.t) (fld : QuantumField.t)
    (r : nat) :
  update H dt (s, fld, r) =
  bind (inject H dt fld (s, r)) (fun st1 => Some (after_inject H dt fld (fst st1) (snd st1))).
Proof.
  unfold update, after_inject. destruct (inject H dt fld (s, r)) as [[s1 r1]|]; [|reflexivity].
  cbn [bind fst snd]. destruct (scan dt fld s1) as [s2 es]. cbn [fst snd].
  destruct (process H es (s2, fld, r1)) as [[s3 f3] r3]. reflexivity.
Qed.

Lemma after_inject_spec (H : Host) (dt : Q) (fld : QuantumField.t) (s1 : ParticleSystem.t)
    (r1 : nat) :
  wf s1 ->
  let s' := fst (fst (after_inject H dt fld s1 r1)) in
  wf s' /\ field s' = field s1 /\
  Forall (entry_done (core s')) (snd (scan dt fld s1)).
Proof.
  intros W. unfold after_inject. cbv zeta. cbn [fst snd].
  destruct (scan_spec dt fld s1 W) as (R & Hes & _ & _ & _ & _ & Hf).
  pose proof (wf_retouched _ _ W R) as W2.
  destruct (process_spec H (snd (scan dt fld s1)) (fst (scan dt fld s1)) fld r1 W2 Hes)
    as (Adv & Hdone).
  split; [exact (proj1 Adv)|]. split; [|exact Hdone].
  change (field (age_flashes dt ?x)) with (field x).
  now rewrite process_field.
Qed.

Lemma update_wf (H : Host) (dt : Q) (s s' : ParticleSystem.t) (fld fld' : QuantumField.t)
    (r r' : nat) :
  wf s -> update H dt (s, fld, r) = Some (s', fld', r') -> wf s'.
Proof.
  intros W E. rewrite update_stages in E.
  destruct (inject H dt fld (s, r)) as [[s1 r1]|] eqn:Ei; [|discriminate].
  cbn [bind fst snd] in E. apply some_eq in E.
  pose proof (inject_grows H dt fld s s1 r r1 W Ei) as G.
  destruct (after_inject_spec H dt fld s1 r1 (proj1 G)) as (W' & _).
  rewrite E in W'. exact W'.
Qed.





Lemma wf_constructor : wf constructor.
Proof.
  unfold wf, core, ParticleSystem.constructor. cbv zeta.
  cbn [type alpha entangledWith pairWith _freeList active].
  constructor; cbn [c_type c_alpha c_ent c_pair c_free c_active].
  - unfold slots. now rewrite repeat_length.
  - unfold slots. now rewrite repeat_length.
  - unfold slots. now rewrite repeat_length.
  - unfold slots. now rewrite repeat_length.
  - intros i [].
  - intros i Hi. now apply in_upto in Hi.
  - constructor.
  - apply NoDup_upto.
  - intros i [].
  - intros i Hi. apply in_upto in Hi. unfold released.
    cbn [c_type c_alpha c_ent c_pair]. unfold getZ, getQ.
    rewrite !get_repeat by (unfold MAX in *; lia). auto.
  - intros i [].
  - intros i [].
Qed.

Lemma reachable_wf (H : Host) (s : ParticleSystem.t) : reachable H s -> wf s.
Proof.
  induction 1 as [|s _ IH|s v _ IH|s s' fld tA tB r r' _ IH E|s s' fld fld' dt r r' _ IH E].
  - exact wf_constructor.
  - exact IH.
  - exact IH.
  - exact (proj1 (spawnPair_grows H fld tA tB s s' r r' IH E)).
  - exact (update_wf H dt s s' fld fld' r r' IH E).
Qed.

End PoolFacts.

(** ** The particle pool: pairing, exhaustion *)

Module PoolClaims.
Import JS JSFacts ParticleSystem PoolInv PoolFacts.

Lemma reachable_spawn_many (n : nat) :
  forall (s : ParticleSystem.t) (r : nat),
  reachable Sample.host s -> reachable Sample.host (fst (Sample.spawn_many n (s, r))).
Proof.
  induction n as [|n IH]; intros s r R; [exact R|].
  cbn [Sample.spawn_many].
  destruct (spawnPair Sample.host Sample.vacuum TYPE_ELECTRON TYPE_POSITRON (s, r))
    as [[s1 r1]|] eqn:E; [|exact R].
  apply IH. exact (reach_spawnPair _ _ _ _ _ _ _ _ R E).
Qed.

Lemma reachable_wired : reachable Sample.host Sample.wired.
Proof. apply reach_field, reach_constructor. Qed.

Lemma reachable_paired : reachable Sample.host Sample.paired.
Proof.
  replace Sample.paired with (fst (Sample.spawn_many 1 (Sample.wired, 0%nat)))
    by (vm_compute; reflexivity).
  apply reachable_spawn_many, reachable_wired.
Qed.







(** C7, as amended. In every pool state reached from the constructor by
    wiring the field, setting the injection rate, [spawnPair] and complete
    [update] calls, a live slot whose [pairWith] is not -1 names a live slot
    whose own [pairWith] names it back. The states between the two [_free]
    calls of one annihilation are not among these. *)
Theorem pairing_symmetric_when_reachable (H : Host) (s : ParticleSystem.t) :
  reachable H s -> pairing_symmetric (core s).
Proof. intros R. exact (wf_sym _ (reachable_wf H s R)). Qed.

Lemma pairing_symmetric_when_reachable_witness :
  reachable Sample.host Sample.paired /\ pairing_symmetric (core Sample.paired).
Proof.
  split; [exact reachable_paired|].
  exact (pairing_symmetric_when_reachable Sample.host Sample.paired reachable_paired).
Defined.

(** C7 as stated fails after a lone [_free]: in the pool holding the pair
    (0, 1), [_free(0)] leaves slot 1 live with [pairWith[1] = 0] while slot
    0 is no longer live. *)
Lemma pairing_broken_after_lone_free :
  reachable Sample.host Sample.paired /\
  In 1%Z (active (_free Sample.paired 0)) /\
  getZ (pairWith (_free Sample.paired 0)) 1 = 0%Z /\
  ~ In 0%Z (active (_free Sample.paired 0)) /\
  ~ pairing_symmetric (core (_free Sample.paired 0)).
Proof.
  split; [exact reachable_paired|].
  assert (A : active (_free Sample.paired 0) = [1%Z]) by (vm_compute; reflexivity).
  assert (P : getZ (pairWith (_free Sample.paired 0)) 1 = 0%Z) by (vm_compute; reflexivity).
  assert (N : ~ In 0%Z (active (_free Sample.paired 0))).
  { rewrite A. intros [E|[]]. discriminate. }
  split; [rewrite A; now left|]. split; [exact P|]. split; [exact N|].
  intros S. destruct (S 1%Z) as (Hin & _).
  - cbn [core c_active]. rewrite A. now left.
  - cbn [core c_pair]. rewrite P. discriminate.
  - cbn [core c_pair c_active] in Hin. rewrite P in Hin. exact (N Hin).
Qed.






End PoolClaims.

(** ** The coherence channel stays in [0, 1] *)

Module CoherenceClaims.
Import JS JSFacts QuantumField FieldInv FieldFacts Consciousness OrchFacts ParticleSystem PoolInv PoolFacts.









End CoherenceClaims.

(** ** ShapeConstraint.loadSTL on a file that does not parse *)

Module ShapeFacts.
Import JS ShapeConstraint.

(** The fuel of [exec_all] is enough: every match ends after at least one
    character, so the length of the text bounds the positions tried. *)
Lemma span_length (p : Z -> bool) (l : list Z) :
  (List.length (snd (span p l)) <= List.length l)%nat.
Proof.
  induction l as [|c l IH]; [apply Nat.le_refl|].
  cbn [span]. destruct (p c); [|apply Nat.le_refl].
  destruct (span p l) as [run rest]. cbn [snd List.length] in *. lia.
Qed.

Lemma match_word_length (w : list Z) :
  forall l l', match_word w l = Some l' ->
  (List.length l' + List.length w = List.length l)%nat.
Proof.
  induction w as [|a w IH]; intros l l' E.
  - cbn [match_word] in E. apply (f_equal (fun o => match o with Some x => x | None => l end)) in E.
    subst l'. cbn [List.length]. lia.
  - destruct l as [|c l]; [discriminate|]. cbn [match_word] in E.
    destruct (eq_letter a c); [|discriminate].
    specialize (IH l l' E). cbn [List.length]. lia.
Qed.

Lemma space_group_length (l g rest : list Z) :
  space_group l = Some (g, rest) -> (List.length rest <= List.length l)%nat.
Proof.
  unfold space_group. pose proof (span_length is_space l) as S1.
  destruct (span is_space l) as [[|c run] rest1]; [discriminate|]. cbn [snd] in S1.
  pose proof (span_length is_num_char rest1) as S2.
  destruct (span is_num_char rest1) as [[|d run2] rest2]; [discriminate|]. cbn [snd] in S2.
  intros E. assert (rest = rest2) by congruence. subst rest. lia.
Qed.

Lemma match_here_length (l g1 g2 g3 rest : list Z) :
  match_here l = Some (g1, g2, g3, rest) -> (List.length rest < List.length l)%nat.
Proof.
  unfold match_here.
  destruct (match_word [118; 101; 114; 116; 101; 120]%Z l) as [l1|] eqn:E1; [|discriminate].
  apply match_word_length in E1. cbn [List.length] in E1.
  destruct (space_group l1) as [[h1 l2]|] eqn:E2; [|discriminate].
  apply space_group_length in E2.
  destruct (space_group l2) as [[h2 l3]|] eqn:E3; [|discriminate].
  apply space_group_length in E3.
  destruct (space_group l3) as [[h3 l4]|] eqn:E4; [|discriminate].
  apply space_group_length in E4.
  intros E. assert (rest = l4) by congruence. subst rest. lia.
Qed.

Lemma exec_all_fuel (H : Host) (n : nat) :
  forall (m : nat) (l : list Z),
  (List.length l <= n)%nat -> (List.length l <= m)%nat -> exec_all H n l = exec_all H m l.
Proof.
  induction n as [|n IH]; intros m l Hn Hm.
  - destruct l; [|cbn [List.length] in Hn; lia]. destruct m; reflexivity.
  - destruct m as [|m]; [destruct l; [reflexivity|cbn [List.length] in Hm; lia]|].
    cbn [exec_all]. destruct l as [|c tl]; [reflexivity|].
    cbn [List.length] in Hn, Hm.
    destruct (match_here (c :: tl)) as [[[[g1 g2] g3] rest]|] eqn:E.
    + apply match_here_length in E. cbn [List.length] in E.
      rewrite (IH m rest) by lia. reflexivity.
    + apply IH; lia.
Qed.

End ShapeFacts.

Module ShapeClaims.
Import JS ShapeConstraint.
Local Open Scope string_scope.

(** The binary branch of [parseSTL] is taken only when the length test of
    [parseBinarySTL] passes, so only the text parser can fail. *)
Lemma parseSTL_failure (H : Host) (buf : list byte) (m : string) :
  parseSTL H buf = Throw m ->
  m = "No vertices in ASCII STL" /\
  (Z.of_nat (List.length (exec_all H (List.length (TextDecoder_decode H buf))
                            (TextDecoder_decode H buf))) < 9)%Z.
Proof.
  assert (Ascii : parseASCIISTL H buf = Throw m ->
            m = "No vertices in ASCII STL" /\
            (Z.of_nat (List.length (exec_all H (List.length (TextDecoder_decode H buf))
                                      (TextDecoder_decode H buf))) < 9)%Z).
  { unfold parseASCIISTL. cbv zeta.
    destruct (Z.ltb_spec (Z.of_nat (List.length (exec_all H (List.length (TextDecoder_decode H buf))
                                                   (TextDecoder_decode H buf)))) 9) as [Hlt|_].
    - intros E. split; [congruence|assumption].
    - discriminate. }
  unfold parseSTL. cbv zeta.
  destruct (getUint32 buf 80) as [count|m'] eqn:Eg; [|exact Ascii].
  destruct ((0 <? count)%Z && (byteLength buf =? 84 + count * 50)%Z) eqn:Ec; [|exact Ascii].
  apply andb_true_iff in Ec. destruct Ec as (_ & Ec). apply Z.eqb_eq in Ec.
  unfold parseBinarySTL. rewrite Eg.
  rewrite (proj2 (Z.ltb_ge (byteLength buf) (84 + count * 50))) by lia.
  cbv zeta. destruct (fold_left _ _ _) as [vs off]. discriminate.
Qed.

(** C10, as amended. When [parseSTL] throws, the message is that of the
    text parser, and [loadSTL] returns normally: it writes the message to
    the console with [console.error] and leaves every field of the object,
    the published [fuzzMask] and the cached binary mask among them, as it
    was. Nothing is thrown or returned to the caller. *)
Theorem loadSTL_logs_parse_failure (H : Host) (s : ShapeConstraint.t) (buf : list byte)
    (m : string) :
  parseSTL H buf = Throw m ->
  m = "No vertices in ASCII STL" /\
  loadSTL H s buf = Normal (s, [console_error "[ShapeConstraint] Parse error:" m]).
Proof.
  intros E. split; [exact (proj1 (parseSTL_failure H buf m E))|].
  unfold loadSTL. now rewrite E.
Qed.

Lemma parse_truncated : parseSTL Sample.host Sample.truncated = Throw "No vertices in ASCII STL".
Proof. vm_compute. reflexivity. Qed.

Lemma loadSTL_logs_parse_failure_witness :
  loadSTL Sample.host ShapeConstraint.constructor Sample.truncated
  = Normal (ShapeConstraint.constructor,
            [console_error "[ShapeConstraint] Parse error:" "No vertices in ASCII STL"]).
Proof.
  exact (proj2 (loadSTL_logs_parse_failure Sample.host ShapeConstraint.constructor
                  Sample.truncated "No vertices in ASCII STL" parse_truncated)).
Defined.

(** C10 as stated fails in its first clause. For the header of a binary STL
    that announces one triangle and ends there, [parseSTL] throws, yet
    [loadSTL] completes normally: the caller is given no error. *)
Lemma loadSTL_reports_nothing_to_caller :
  parseSTL Sample.host Sample.truncated = Throw "No vertices in ASCII STL" /\
  (exists out, loadSTL Sample.host ShapeConstraint.constructor Sample.truncated = Normal out) /\
  ~ (exists m, loadSTL Sample.host ShapeConstraint.constructor Sample.truncated = Throw m).
Proof.
  split; [exact parse_truncated|].
  unfold loadSTL. rewrite parse_truncated. split.
  - eexists. reflexivity.
  - intros (m & E). discriminate.
Qed.

End ShapeClaims.

(** ** main.js: what the frame loop does with accumulated time *)

Module DriverFacts.
Import JS JSFacts PoolInv PoolFacts Main.








End DriverFacts.

Module DriverClaims.
Import JS JSFacts PoolInv PoolFacts Main DriverFacts.






End DriverClaims.
